(** * Keitai-UCPDisplay: a shallow embedding of [Keitai_UCPDisplay.py]

    The viewer is a Tk application over two libraries, [zipfile] and PIL.
    The embedding keeps the program's own logic (entry filtering, the
    directory scan, the image cache, the fit-to-pane size computation) as
    executable definitions and represents the libraries by their observable
    results: what [zipfile.ZipFile] returns for a path, what [os.walk]
    yields for a directory, what [Image.open] reports for a byte string.

    Numbers follow Python: [int] is [Z]; [float] is IEEE 754 binary64 as
    specified by [SpecFloat] with [prec = 53] and [emax = 1024]. *)

From Stdlib Require Import ZArith String Ascii List Bool Lia.
From Stdlib Require Import Reals Lra.
From Stdlib Require Import Floats.SpecFloat.
From stdpp Require Import gmap strings list.

Local Open Scope string_scope.
Local Open Scope Z_scope.

(** ** Python strings

    A [str] is modelled as a [string] whose characters are the code points
    below 256 (Latin-1).  Member names and paths of the archives this
    program is meant for are ASCII. *)

Module PyStr.

(** [str.lower] on one code point below 256: [A-Z] and the Latin-1 capital
    letters U+00C0..U+00DE (but not the multiplication sign U+00D7) move up
    by 32; every other code point is its own lowercase. *)
Definition lower_char (c : ascii) : ascii :=
  let n := N_of_ascii c in
  if ((65 <=? n) && (n <=? 90))%N then ascii_of_N (n + 32)
  else if ((192 <=? n) && (n <=? 222) && negb (n =? 215))%N then ascii_of_N (n + 32)
  else c.

Fixpoint lower (s : string) : string :=
  match s with
  | EmptyString => EmptyString
  | String c r => String (lower_char c) (lower r)
  end.

(** [s[n:]] *)
Fixpoint drop (n : nat) (s : string) : string :=
  match n, s with
  | O, _ => s
  | S n', String _ r => drop n' r
  | S _, EmptyString => EmptyString
  end.

(** [s[:n]] *)
Fixpoint take (n : nat) (s : string) : string :=
  match n, s with
  | O, _ => EmptyString
  | S n', String c r => String c (take n' r)
  | S _, EmptyString => EmptyString
  end.

(** [s.endswith(suffix)] for a single suffix: the last [len(suffix)]
    characters of [s] are compared with [suffix]. *)
Definition endswith (s suffix : string) : bool :=
  (String.length suffix <=? String.length s)%nat
  && String.eqb (drop (String.length s - String.length suffix) s) suffix.

(** [s.endswith(suffixes)] for a tuple of suffixes. *)
Definition endswith_any (s : string) (suffixes : list string) : bool :=
  existsb (endswith s) suffixes.

(** The suffix relation the claims speak of. *)
Definition ends_with (s suffix : string) : Prop :=
  exists front, s = front ++ suffix.

End PyStr.

(** ** [os.path] (POSIX flavour) *)

Module OsPath.

Definition sep : ascii := "/"%char.

(** [p[p.rfind('/') + 1:]], computed left to right: [acc] is the component
    read since the last separator. *)
Fixpoint basename_from (acc p : string) : string :=
  match p with
  | EmptyString => acc
  | String c r =>
      if Ascii.eqb c sep then basename_from EmptyString r
      else basename_from (acc ++ String c EmptyString) r
  end.

Definition basename (p : string) : string := basename_from EmptyString p.

Definition startswith_sep (p : string) : bool :=
  match p with
  | String c _ => Ascii.eqb c sep
  | EmptyString => false
  end.

(** [posixpath.join(a, b)] for two components. *)
Definition join (a b : string) : string :=
  if startswith_sep b then b
  else if (String.eqb a EmptyString || PyStr.endswith a "/") then a ++ b
  else a ++ "/" ++ b.

End OsPath.

(** ** Exceptions and results *)

Inductive exn :=
| ZeroDivisionError
| OverflowError
| ValueError
| IndexError
| KeyError
| BadZipFile
| OSError
| UnidentifiedImageError.

Inductive res (A : Type) :=
| Ok (a : A)
| Raise (e : exn).
Arguments Ok {A} a.
Arguments Raise {A} e.

Definition res_bind {A B} (r : res A) (k : A -> res B) : res B :=
  match r with
  | Ok a => k a
  | Raise e => Raise e
  end.

(** ** Python numbers: [int] and [float] *)

Module PyNum.

Definition prec : Z := 53.
Definition emax : Z := 1024.

Inductive num :=
| Int (z : Z)
| Float (f : spec_float).

(** [float(z)]: the nearest double, ties to even; [OverflowError] when
    [z] is too large. *)
Definition float_of_int (z : Z) : res spec_float :=
  match binary_normalize prec emax z 0 false with
  | S754_infinity _ => Raise OverflowError
  | f => Ok f
  end.

(** [a / b] on two [int]s.  CPython divides the two operands as doubles
    when both fit a double exactly (at most 53 bits), which is the case of
    every pixel count the toolkit or the image library can return; this is
    that path.  (For longer operands CPython rounds the exact quotient
    once, which converting first does not always do.) *)
Definition truediv (a b : Z) : res spec_float :=
  if b =? 0 then Raise ZeroDivisionError
  else
    res_bind (float_of_int a) (fun fa =>
    res_bind (float_of_int b) (fun fb =>
    match SFdiv prec emax fa fb with
    | S754_infinity _ => Raise OverflowError
    | q => Ok q
    end)).

(** [x * y] *)
Definition mul (x y : num) : res num :=
  match x, y with
  | Int a, Int b => Ok (Int (a * b))
  | Int a, Float g => res_bind (float_of_int a) (fun f => Ok (Float (SFmul prec emax f g)))
  | Float f, Int b => res_bind (float_of_int b) (fun g => Ok (Float (SFmul prec emax f g)))
  | Float f, Float g => Ok (Float (SFmul prec emax f g))
  end.

(** Python compares an [int] with a [float] exactly, by value. *)
Definition compare_int_float (z : Z) (f : spec_float) : option comparison :=
  match f with
  | S754_nan => None
  | S754_infinity s => Some (if s then Gt else Lt)
  | S754_zero _ => Some (z ?= 0)
  | S754_finite s m e =>
      Some (z * 2 ^ Z.max 0 (- e) ?= cond_Zopp s (Zpos m) * 2 ^ Z.max 0 e)
  end.

(** [x < y] *)
Definition lt (x y : num) : bool :=
  match x, y with
  | Int a, Int b => a <? b
  | Float f, Float g => SFltb f g
  | Int a, Float g =>
      match compare_int_float a g with Some Lt => true | _ => false end
  | Float f, Int b =>
      match compare_int_float b f with Some Gt => true | _ => false end
  end.

(** [min(a, b, c)]: the first of the smallest arguments; a later argument
    replaces the current one only when it is strictly smaller. *)
Definition min2 (best item : num) : num := if lt item best then item else best.
Definition min3 (a b c : num) : num := min2 (min2 a b) c.

(** [int(x)]: truncation toward zero. *)
Definition to_int (x : num) : res Z :=
  match x with
  | Int z => Ok z
  | Float S754_nan => Raise ValueError
  | Float (S754_infinity _) => Raise OverflowError
  | Float (S754_zero _) => Ok 0
  | Float (S754_finite s m e) =>
      Ok (cond_Zopp s (match e with
                       | Zneg p => Zpos m / 2 ^ Zpos p
                       | _ => Zpos m * 2 ^ e
                       end))
  end.

(** [max(1, n)] on [int]s: [n] replaces [1] only when it is greater. *)
Definition max1 (n : Z) : Z := if n >? 1 then n else 1.

End PyNum.

(** The fit-to-pane size of lines 136-137:
    [ratio = min(max_w / w, max_h / h, 1)] and
    [(int(w * ratio), int(h * ratio))]. *)
Definition fit_size (max_w max_h w h : Z) : res (Z * Z) :=
  res_bind (PyNum.truediv max_w w) (fun rw =>
  res_bind (PyNum.truediv max_h h) (fun rh =>
  let ratio := PyNum.min3 (PyNum.Float rw) (PyNum.Float rh) (PyNum.Int 1) in
  res_bind (PyNum.mul (PyNum.Int w) ratio) (fun pw =>
  res_bind (PyNum.to_int pw) (fun new_w =>
  res_bind (PyNum.mul (PyNum.Int h) ratio) (fun ph =>
  res_bind (PyNum.to_int ph) (fun new_h =>
  Ok (new_w, new_h))))))).

(** ** The libraries' objects *)

(** A [zipfile.ZipFile] object: its identity [id(zip_obj)], its
    [namelist()], and what [open(name).read()] gives for a member name. *)
Record zip_obj := {
  zip_id : Z;
  zip_namelist : list string;
  zip_read : string -> res (list Byte.byte)
}.

(** What the constructor [zipfile.ZipFile(path, 'r')] does. *)
Inductive zip_result :=
| ZipOpened (z : zip_obj)
| ZipBad                    (* raises [zipfile.BadZipFile] *)
| ZipFailed (e : exn).      (* any other exception, e.g. a missing file *)

(** A PIL image: its [size] and the bytes it was decoded from. *)
Record pil_image := {
  img_size : Z * Z;
  img_data : list Byte.byte
}.

(** An [ImageTk.PhotoImage]: a fresh toolkit object wrapping an image. *)
Record photo := {
  photo_id : nat;
  photo_img : pil_image
}.

(** A directory as [os.walk] sees it: its sub-directories and its other
    entries, both in [scandir] order. *)
#[local] Unset Elimination Schemes.
Inductive dirtree :=
| Dir (subdirs : list (string * dirtree)) (files : list string).
#[local] Set Elimination Schemes.

(** [os.walk(top)], top-down: the triple of the directory itself, then the
    walks of its sub-directories in order. *)
Fixpoint walk (top : string) (t : dirtree)
  : list (string * list string * list string) :=
  match t with
  | Dir subdirs files =>
      (top, map fst subdirs, files)
      :: flat_map (fun d => walk (OsPath.join top (fst d)) (snd d)) subdirs
  end.

(** The files below a directory: [file_under top t root f] when the walk
    from [top] meets a directory named [root] that lists the file [f]. *)
Inductive file_under : string -> dirtree -> string -> string -> Prop :=
| file_here top subdirs files f :
    In f files ->
    file_under top (Dir subdirs files) top f
| file_below top subdirs files d t root f :
    In (d, t) subdirs ->
    file_under (OsPath.join top d) t root f ->
    file_under top (Dir subdirs files) root f.

(** One row of [self.entries]: [(zip_obj, image_name, display_name)]. *)
Record entry := {
  entry_zip : zip_obj;
  entry_name : string;
  entry_display : string
}.

(** What the program does to the outside, in order. *)
Inductive event :=
| ShowError (title message : string)
| ShowInfo (title message : string)
| ZipRead (zid : Z) (name : string)
| ImageOpen (data : list Byte.byte)
| ImageResize (w h : Z)
| NewPhoto (pid : nat).

Definition is_dialog (ev : event) : bool :=
  match ev with
  | ShowError _ _ | ShowInfo _ _ => true
  | _ => false
  end.

(** ** The viewer's state *)

Record viewer := {
  entries : list entry;                    (* self.entries *)
  image_cache : gmap (Z * string) photo;   (* self.image_cache *)
  listbox_items : list string;             (* the rows of self.listbox *)
  listbox_sel : list nat;                  (* self.listbox.curselection() *)
  label_image : option photo;              (* the image of self.image_label *)
  frame_width : Z;                         (* self.right_frame.winfo_width() *)
  frame_height : Z;                        (* self.right_frame.winfo_height() *)
  constructed : nat;                       (* library objects built so far *)
  trace : list event                       (* events, oldest first *)
}.

Definition set_entries (es : list entry) (v : viewer) : viewer :=
  {| entries := es; image_cache := image_cache v;
     listbox_items := listbox_items v; listbox_sel := listbox_sel v;
     label_image := label_image v; frame_width := frame_width v;
     frame_height := frame_height v; constructed := constructed v;
     trace := trace v |}.

Definition set_image_cache (c : gmap (Z * string) photo) (v : viewer) : viewer :=
  {| entries := entries v; image_cache := c;
     listbox_items := listbox_items v; listbox_sel := listbox_sel v;
     label_image := label_image v; frame_width := frame_width v;
     frame_height := frame_height v; constructed := constructed v;
     trace := trace v |}.

Definition set_listbox (items : list string) (sel : list nat) (v : viewer) : viewer :=
  {| entries := entries v; image_cache := image_cache v;
     listbox_items := items; listbox_sel := sel;
     label_image := label_image v; frame_width := frame_width v;
     frame_height := frame_height v; constructed := constructed v;
     trace := trace v |}.

Definition set_label_image (p : photo) (v : viewer) : viewer :=
  {| entries := entries v; image_cache := image_cache v;
     listbox_items := listbox_items v; listbox_sel := listbox_sel v;
     label_image := Some p; frame_width := frame_width v;
     frame_height := frame_height v; constructed := constructed v;
     trace := trace v |}.

Definition set_constructed (n : nat) (v : viewer) : viewer :=
  {| entries := entries v; image_cache := image_cache v;
     listbox_items := listbox_items v; listbox_sel := listbox_sel v;
     label_image := label_image v; frame_width := frame_width v;
     frame_height := frame_height v; constructed := n;
     trace := trace v |}.

Definition log (ev : event) (v : viewer) : viewer :=
  {| entries := entries v; image_cache := image_cache v;
     listbox_items := listbox_items v; listbox_sel := listbox_sel v;
     label_image := label_image v; frame_width := frame_width v;
     frame_height := frame_height v; constructed := constructed v;
     trace := trace v ++ [ev] |}.

(** ** A state and exception monad

    A method runs on the viewer and either returns a value or raises; the
    mutations made before an exception stay. *)

Definition M (A : Type) : Type := viewer -> res A * viewer.

Definition ret {A} (a : A) : M A := fun v => (Ok a, v).
Definition raise {A} (e : exn) : M A := fun v => (Raise e, v).
Definition bind {A B} (m : M A) (k : A -> M B) : M B :=
  fun v =>
    match m v with
    | (Ok a, v') => k a v'
    | (Raise e, v') => (Raise e, v')
    end.
Definition get : M viewer := fun v => (Ok v, v).
Definition modify (f : viewer -> viewer) : M unit := fun v => (Ok tt, f v).
Definition lift {A} (r : res A) : M A := fun v => (r, v).

Declare Scope py_scope.
Delimit Scope py_scope with py.
Notation "x <- m ;; k" := (bind m (fun x => k))
  (at level 100, m at next level, right associativity) : py_scope.
Notation "m ;;; k" := (bind m (fun _ => k))
  (at level 100, right associativity) : py_scope.
Local Open Scope py_scope.

(** [for x in l: body(x)] *)
Fixpoint for_each {A} (l : list A) (body : A -> M unit) : M unit :=
  match l with
  | [] => ret tt
  | x :: r => body x ;;; for_each r body
  end.

(** ** The program *)

Definition img_exts : list string := [".jpg"; ".jpeg"; ".gif"; ".png"].

(** [name.lower().endswith(img_exts)] *)
Definition is_image_name (name : string) : bool :=
  PyStr.endswith_any (PyStr.lower name) img_exts.

(** [fname.lower().endswith('.ucp')] *)
Definition is_ucp_name (fname : string) : bool :=
  PyStr.endswith (PyStr.lower fname) ".ucp".

(** [f"{base}::{name}"] *)
Definition display_name (base name : string) : string :=
  (base ++ "::" ++ name)%string.

(** [x or 400] on an [int] *)
Definition or_400 (x : Z) : Z := if x =? 0 then 400 else x.

(** [not s] on a [str] *)
Definition str_not (s : string) : bool := String.eqb s EmptyString.

(** [self.listbox.insert(tk.END, display)] *)
Definition listbox_insert_end (display : string) (v : viewer) : viewer :=
  set_listbox (listbox_items v ++ [display]) (listbox_sel v) v.

(** [self.listbox.delete(0, tk.END)]: the rows go, and the selection with
    them. *)
Definition listbox_delete_all (v : viewer) : viewer := set_listbox [] [] v.

(** Adding an index to an ascending selection. *)
Fixpoint sel_add (i : nat) (sel : list nat) : list nat :=
  match sel with
  | [] => [i]
  | j :: r =>
      if (i <? j)%nat then i :: sel
      else if (i =? j)%nat then sel
      else j :: sel_add i r
  end.

(** [self.listbox.selection_set(i)]: an index past the last row is
    ignored. *)
Definition listbox_selection_set (i : nat) (v : viewer) : viewer :=
  if (i <? length (listbox_items v))%nat
  then set_listbox (listbox_items v) (sel_add i (listbox_sel v)) v
  else v.

(** Lines 78-81 and 103-106, the same loop in both open methods: the image
    members of [zip_obj] are appended to [self.entries]. *)
Definition append_images (base : string) (zip_obj : zip_obj) : M unit :=
  for_each (zip_namelist zip_obj) (fun name =>
    if is_image_name name
    then modify (fun v =>
           set_entries (entries v ++
             [{| entry_zip := zip_obj; entry_name := name;
                 entry_display := display_name base name |}]) v)
    else ret tt).

(** [get_display_size(self, pil_img)] *)
Definition get_display_size (v : viewer) (pil_img : pil_image) : res (Z * Z) :=
  let max_w := or_400 (frame_width v) in
  let max_h := or_400 (frame_height v) in
  let '(w, h) := img_size pil_img in
  fit_size max_w max_h w h.

(** The world the program runs in. *)
Record world := {
  ZipFile : nat -> string -> zip_result;
    (* [zipfile.ZipFile(path, 'r')] when [n] objects were built before *)
  Image_open : list Byte.byte -> res (Z * Z);
    (* [Image.open(io.BytesIO(data))]: the size of the decoded image *)
  Image_load : list Byte.byte -> res unit;
    (* the pixel decoding that [resize] triggers *)
  askopenfilename : string;
    (* the reply to the file dialog, empty when it is cancelled *)
  isdir : string -> bool;
    (* [os.path.isdir] *)
  scandir_tree : string -> dirtree
    (* the directory tree below a path *)
}.

Section Program.

Variable W : world.

(** [pil_img.resize((w, h), LANCZOS)]: Pillow refuses a size below 1x1. *)
Definition Image_resize (pil_img : pil_image) (w h : Z) : res pil_image :=
  if (w <? 1) || (h <? 1) then Raise ValueError
  else res_bind (Image_load W (img_data pil_img)) (fun _ =>
       Ok {| img_size := (w, h); img_data := img_data pil_img |}).

(** [ImageTk.PhotoImage(pil_img)] *)
Definition PhotoImage (pil_img : pil_image) : M photo :=
  v <- get ;;
  let p := {| photo_id := constructed v; photo_img := pil_img |} in
  modify (log (NewPhoto (photo_id p))) ;;;
  modify (set_constructed (S (constructed v))) ;;;
  ret p.

(** Lines 120-128: the cache miss. *)
Definition load_photo (zip_obj : zip_obj) (name : string) : M photo :=
  modify (log (ZipRead (zip_id zip_obj) name)) ;;;
  data <- lift (zip_read zip_obj name) ;;
  modify (log (ImageOpen data)) ;;;
  size <- lift (Image_open W data) ;;
  let pil_img := {| img_size := size; img_data := data |} in
  v <- get ;;
  new_size <- lift (get_display_size v pil_img) ;;
  let new_w := PyNum.max1 (fst new_size) in
  let new_h := PyNum.max1 (snd new_size) in
  modify (log (ImageResize new_w new_h)) ;;;
  pil_img <- lift (Image_resize pil_img new_w new_h) ;;
  photo <- PhotoImage pil_img ;;
  modify (fun v =>
    set_image_cache (<[(zip_id zip_obj, name) := photo]> (image_cache v)) v) ;;;
  ret photo.

(** [on_select(self, event)] *)
Definition on_select : M unit :=
  v <- get ;;
  match entries v with
  | [] => ret tt
  | _ :: _ =>
      match listbox_sel v with
      | [] => ret tt
      | i :: _ =>
          match entries v !! i with
          | None => raise IndexError
          | Some e =>
              let cache_key := (zip_id (entry_zip e), entry_name e) in
              photo <- match image_cache v !! cache_key with
                       | Some photo => ret photo
                       | None => load_photo (entry_zip e) (entry_name e)
                       end ;;
              modify (set_label_image photo)
          end
      end
  end.

(** [populate_listbox(self)] *)
Definition populate_listbox : M unit :=
  modify listbox_delete_all ;;;
  v <- get ;;
  for_each (entries v) (fun e => modify (listbox_insert_end (entry_display e))) ;;;
  match entries v with
  | [] => ret tt
  | _ :: _ => modify (listbox_selection_set 0) ;;; on_select
  end.

(** [open_ucp(self, file_path=None)] *)
Definition open_ucp (file_path : option string) : M unit :=
  let file_path :=
    match file_path with
    | Some p => if str_not p then askopenfilename W else p
    | None => askopenfilename W
    end in
  if str_not file_path then ret tt
  else
    v <- get ;;
    match ZipFile W (constructed v) file_path with
    | ZipBad =>
        modify (log (ShowError "Invalid File"
                       "Selected file is not a valid UCP archive."))
    | ZipFailed e => raise e
    | ZipOpened zip_obj =>
        modify (set_constructed (S (constructed v))) ;;;
        modify (set_entries []) ;;;
        append_images (OsPath.basename file_path) zip_obj ;;;
        populate_listbox
    end.

(** Lines 87-91: the archives below a folder, in walk order. *)
Definition find_archives (folder_path : string) : list string :=
  flat_map
    (fun triple =>
       let '(root, _, files) := triple in
       map (OsPath.join root) (List.filter is_ucp_name files))
    (walk folder_path (scandir_tree W folder_path)).

(** Lines 98-106: one turn of the loop over the archives. *)
Definition load_archive (path : string) : M unit :=
  v <- get ;;
  match ZipFile W (constructed v) path with
  | ZipBad => ret tt
  | ZipFailed e => raise e
  | ZipOpened zip_obj =>
      modify (set_constructed (S (constructed v))) ;;;
      append_images (OsPath.basename path) zip_obj
  end.

(** [open_ucp_folder(self, folder_path)] *)
Definition open_ucp_folder (folder_path : string) : M unit :=
  if str_not folder_path || negb (isdir W folder_path) then ret tt
  else
    let archives := find_archives folder_path in
    match archives with
    | [] =>
        modify (log (ShowInfo "No UCP Files"
                       "No UCP files found in the specified folder."))
    | _ :: _ =>
        modify (set_entries []) ;;;
        for_each archives load_archive ;;;
        populate_listbox
    end.

(** The user picks row [i] of the list: the selection becomes that row and
    the [<<ListboxSelect>>] binding runs [on_select]. *)
Definition click (i : nat) : M unit :=
  modify (fun v => set_listbox (listbox_items v) [i] v) ;;;
  on_select.

(** The parsed command line: [args.folder] and [args.file]. *)
Record args := {
  arg_folder : option string;
  arg_file : option string
}.

(** [if args.folder] / [elif args.file] *)
Definition given (a : option string) : option string :=
  match a with
  | Some s => if str_not s then None else Some s
  | None => None
  end.

(** The body of [__main__] after the viewer is built and before the event
    loop starts. *)
Definition main (a : args) : M unit :=
  match given (arg_folder a) with
  | Some folder => open_ucp_folder folder
  | None =>
      match given (arg_file a) with
      | Some file => open_ucp (Some file)
      | None => ret tt
      end
  end.

End Program.

(** [UCPViewer.__init__]: no entries, an empty cache, an empty list, no
    image; the pane has the size the toolkit reports. *)
Definition init_viewer (width height : Z) : viewer :=
  {| entries := []; image_cache := ∅; listbox_items := []; listbox_sel := [];
     label_image := None; frame_width := width; frame_height := height;
     constructed := 0; trace := [] |}.

(** * The vocabulary of the statements *)

(** A string without a path separator. *)
Fixpoint no_sep (s : string) : Prop :=
  match s with
  | EmptyString => True
  | String c r => c <> OsPath.sep /\ no_sep r
  end.

(** The rows that one archive contributes to [self.entries]. *)
Definition archive_rows (base : string) (z : zip_obj) : list entry :=
  map (fun name => {| entry_zip := z; entry_name := name;
                      entry_display := display_name base name |})
      (List.filter is_image_name (zip_namelist z)).

Definition rows_of (a : string * zip_obj) : list entry :=
  archive_rows (OsPath.basename (fst a)) (snd a).

(** The archives of a list that open, with the objects [ZipFile] returns
    for them when [n] objects were built before the first. *)
Fixpoint opened (W : world) (n : nat) (archives : list string)
  : list (string * zip_obj) :=
  match archives with
  | [] => []
  | path :: rest =>
      match ZipFile W n path with
      | ZipOpened z => (path, z) :: opened W (S n) rest
      | _ => opened W n rest
      end
  end.

(** No archive of the list makes the constructor raise anything but
    [BadZipFile]. *)
Definition only_bad (W : world) (archives : list string) : Prop :=
  forall path n e, In path archives -> ZipFile W n path <> ZipFailed e.

(** The events [on_select] may emit: never a dialog, and a resize only with
    both dimensions at least 1. *)
Definition select_event (ev : event) : Prop :=
  is_dialog ev = false
  /\ match ev with
     | ImageResize w h => 1 <= w /\ 1 <= h
     | _ => True
     end.

(** [quiet v v']: [v'] extends the trace of [v] by selection events only. *)
Definition quiet (v v' : viewer) : Prop :=
  exists evs, trace v' = (trace v ++ evs)%list /\ Forall select_event evs.

(** [frame v v']: moreover the entry list, the list box and the pane are
    the same. *)
Definition frame (v v' : viewer) : Prop :=
  entries v' = entries v
  /\ listbox_items v' = listbox_items v
  /\ listbox_sel v' = listbox_sel v
  /\ frame_width v' = frame_width v
  /\ frame_height v' = frame_height v
  /\ quiet v v'.

(** [steps R m]: whatever [m] does, and whether it returns or raises, the
    state it leaves is [R]-related to the one it started from. *)
Definition steps (R : viewer -> viewer -> Prop) {A} (m : M A) : Prop :=
  forall v, R v (snd (m v)).

(** The entry the selection points at, as [on_select] reads it. *)
Definition selected_entry (v : viewer) : option entry :=
  match listbox_sel v with
  | i :: _ => entries v !! i
  | [] => None
  end.

Definition cache_key (e : entry) : Z * string :=
  (zip_id (entry_zip e), entry_name e).

(** What [populate_listbox] leaves on the screen: the rows are the display
    names; with a non-empty entry list the first row is the selection, and
    when the method returned the label shows the photo that the cache holds
    for the first entry. *)
Definition listing_shown (out : res unit * viewer) : Prop :=
  let v' := snd out in
  listbox_items v' = map entry_display (entries v')
  /\ (entries v' <> [] ->
      listbox_sel v' = [0%nat]
      /\ (fst out = Ok tt ->
          exists e p, entries v' !! 0%nat = Some e
                      /\ image_cache v' !! cache_key e = Some p
                      /\ label_image v' = Some p)).

(** The listing is as it was: same entries, rows, selection and label. *)
Definition unchanged_listing (v v' : viewer) : Prop :=
  entries v' = entries v
  /\ listbox_items v' = listbox_items v
  /\ listbox_sel v' = listbox_sel v
  /\ label_image v' = label_image v.

(** The listing as C7 words it: the same, with the first entry displayed
    whatever the method did. *)
Definition listing_claimed (v' : viewer) : Prop :=
  listbox_items v' = map entry_display (entries v')
  /\ (entries v' <> [] ->
      listbox_sel v' = [0%nat]
      /\ exists e p, entries v' !! 0%nat = Some e
                     /\ image_cache v' !! cache_key e = Some p
                     /\ label_image v' = Some p).

(** The state after the user picked the rows [js] one after the other,
    whether a pick returned or raised. *)
Definition after_clicks (W : world) (js : list nat) (v : viewer) : viewer :=
  fold_left (fun s j => snd (click W j s)) js v.

(** Induction on a directory tree, with the hypothesis for every
    sub-directory. *)
Fixpoint dirtree_ind (P : dirtree -> Prop)
    (step : forall subdirs files,
        Forall (fun d => P (snd d)) subdirs -> P (Dir subdirs files))
    (t : dirtree) : P t :=
  match t with
  | Dir subdirs files =>
      step subdirs files
        ((fix all (l : list (string * dirtree)) : Forall (fun d => P (snd d)) l :=
            match l with
            | [] => List.Forall_nil _
            | d :: r => @List.Forall_cons _ _ d r (dirtree_ind P step (snd d)) (all r)
            end) subdirs)
  end.

(** The files of a walk, each with the directory that lists it, in walk
    order. *)
Definition walk_files (top : string) (t : dirtree) : list (string * string) :=
  flat_map (fun triple => map (pair (fst (fst triple))) (snd triple)) (walk top t).

(** ** Doubles as real numbers *)

(** The real number a finite double stands for. *)
Definition SF2R (f : spec_float) : R :=
  match f with
  | S754_finite s m e =>
      ((if s then -1 else 1) * IZR (Zpos m) * powerRZ 2 e)%R
  | _ => 0%R
  end.

Definition canonical (m : positive) : Prop := 2 ^ 52 <= Zpos m < 2 ^ 53.

(** The relative rounding error: one unit in the last place is at most
    [2^-52] of the value. *)
Definition ulp_rel : R := (/ 4503599627370496)%R.

Definition num2R (x : PyNum.num) : R :=
  match x with
  | PyNum.Int z => IZR z
  | PyNum.Float f => SF2R f
  end.

(** A positive normal double. *)
Definition normal_pos (f : spec_float) : Prop :=
  exists m e, f = S754_finite false m e /\ canonical m /\ -105 <= e <= 1.

(** ** A small world to run the program in *)

Module Demo.

Import Byte.

Definition zip_a : zip_obj :=
  {| zip_id := 100;
     zip_namelist := ["logo.PNG"; "readme.txt"; "pics/wide.jpg"; "gif"];
     zip_read := fun name =>
       if String.eqb name "logo.PNG" then Ok [x01]
       else if String.eqb name "pics/wide.jpg" then Ok [x02]
       else Raise KeyError |}.

Definition zip_c : zip_obj :=
  {| zip_id := 200;
     zip_namelist := ["anim.Gif"];
     zip_read := fun name =>
       if String.eqb name "anim.Gif" then Ok [x03] else Raise KeyError |}.

Definition zip_broken : zip_obj :=
  {| zip_id := 300;
     zip_namelist := ["torn.png"];
     zip_read := fun name =>
       if String.eqb name "torn.png" then Ok [xff] else Raise KeyError |}.

Definition tree : dirtree :=
  Dir [("sub", Dir [] ["c.UCP"; "notes.txt"]); ("empty", Dir [] [])]
      ["a.ucp"; "junk.ucp"; "readme.md"].

Definition W : world :=
  {| ZipFile := fun _ path =>
       if String.eqb path "/data/a.ucp" then ZipOpened zip_a
       else if String.eqb path "/data/sub/c.UCP" then ZipOpened zip_c
       else if String.eqb path "/data/torn.ucp" then ZipOpened zip_broken
       else if String.eqb path "/data/junk.ucp" then ZipBad
       else ZipFailed OSError;
     Image_open := fun data =>
       match data with
       | [x01] => Ok (240, 320)
       | [x02] => Ok (1000, 1)
       | [x03] => Ok (1000, 400)
       | _ => Raise UnidentifiedImageError
       end;
     Image_load := fun _ => Ok tt;
     askopenfilename := EmptyString;
     isdir := fun path => String.eqb path "/data" || String.eqb path "/plain";
     scandir_tree := fun path =>
       if String.eqb path "/data" then tree
       else if String.eqb path "/plain" then Dir [("old", Dir [] [])] ["notes.txt"]
       else Dir [] [] |}.

(** The window as it is once mapped: an 800x600 window whose left pane
    takes 300 pixels. *)
Definition v0 : viewer := init_viewer 500 600.

(** The archive [a.ucp] is opened ... *)
Definition v1 : viewer := snd (open_ucp W (Some "/data/a.ucp") v0).

(** ... and the user picks its second row. *)
Definition v2 : viewer := snd (click W 1 v1).

(** A picture one pixel high. *)
Definition ribbon : pil_image := {| img_size := (1000, 1); img_data := [] |}.

Definition photo_1500x900 : pil_image :=
  {| img_size := (1500, 900); img_data := [] |}.

End Demo.

(** * The rest of the viewer *)

(** ** The context menu and the clipboard *)

(** The fields of a mouse event that [show_context_menu] reads. *)
Record tk_event := {
  event_y : Z;
  event_x_root : Z;
  event_y_root : Z
}.

(** The viewer with what the context menu works on: the clipboard and the
    place where the menu was last posted. *)
Record desk := {
  desk_viewer : viewer;
  desk_clipboard : string;
  desk_menu : option (Z * Z)
}.

(** [self.listbox.get(i)]: the text of row [i], empty past the last row. *)
Definition listbox_get (i : nat) (v : viewer) : string :=
  default EmptyString (listbox_items v !! i).

(** [self.listbox.selection_clear(0, tk.END)] *)
Definition listbox_selection_clear (v : viewer) : viewer :=
  set_listbox (listbox_items v) [] v.

(** [self.listbox.selection_set(idx)] for the [int] that [nearest]
    returns: a negative index, like one past the last row, is ignored. *)
Definition listbox_selection_set_index (idx : Z) (v : viewer) : viewer :=
  if idx <? 0 then v else listbox_selection_set (Z.to_nat idx) v.

(** Lines 141-143: the row under the cursor becomes the selection. *)
Definition context_select (idx : Z) (v : viewer) : viewer :=
  listbox_selection_set_index idx (listbox_selection_clear v).

(** [show_context_menu(self, event)]; [nearest] is the toolkit's
    [self.listbox.nearest]. *)
Definition show_context_menu (nearest : viewer -> Z -> Z)
    (event : tk_event) (d : desk) : desk :=
  let idx := nearest (desk_viewer d) (event_y event) in
  {| desk_viewer := context_select idx (desk_viewer d);
     desk_clipboard := desk_clipboard d;
     desk_menu := Some (event_x_root event, event_y_root event) |}.

(** [copy_selected(self)]: [clipboard_clear()] then
    [clipboard_append(text)]. *)
Definition copy_selected (d : desk) : desk :=
  match listbox_sel (desk_viewer d) with
  | [] => d
  | i :: _ =>
      let text := listbox_get i (desk_viewer d) in
      {| desk_viewer := desk_viewer d;
         desk_clipboard := (EmptyString ++ text)%string;
         desk_menu := desk_menu d |}
  end.

(** ** What the user and the window manager can do *)

(** The window is resized: the pane reports a new size.  The program has
    no handler for it. *)
Definition set_pane (width height : Z) (v : viewer) : viewer :=
  {| entries := entries v; image_cache := image_cache v;
     listbox_items := listbox_items v; listbox_sel := listbox_sel v;
     label_image := label_image v; frame_width := width;
     frame_height := height; constructed := constructed v;
     trace := trace v |}.

Inductive action :=
| OpenFile (file_path : option string)   (* File > Open UCP File, or the command line *)
| OpenFolder (folder_path : string)      (* File > Open Folder, or [-F] *)
| Pick (i : nat)                         (* a row is picked *)
| RightClick (idx : Z)                   (* the context menu is asked for on row [idx] *)
| ResizePane (width height : Z).         (* the window is resized *)

Definition act (W : world) (a : action) (v : viewer) : res unit * viewer :=
  match a with
  | OpenFile file_path => open_ucp W file_path v
  | OpenFolder folder_path => open_ucp_folder W folder_path v
  | Pick i => click W i v
  | RightClick idx => (Ok tt, context_select idx v)
  | ResizePane width height => (Ok tt, set_pane width height v)
  end.

(** What the toolkit and the file system grant: a picked row is a row of
    the list, and the archives of a scanned folder can be read (their
    constructor raises nothing but [BadZipFile]). *)
Definition allowed (W : world) (a : action) (v : viewer) : Prop :=
  match a with
  | Pick i => (i < length (listbox_items v))%nat
  | OpenFolder folder_path => only_bad W (find_archives W folder_path)
  | _ => True
  end.

(** The states the viewer can be in. *)
Inductive reachable (W : world) : viewer -> Prop :=
| reach_init width height : reachable W (init_viewer width height)
| reach_step a v :
    reachable W v -> allowed W a v -> reachable W (snd (act W a v)).

(** The rows are the display names of the entries, and the selection
    points into the entry list. *)
Definition listing_ok (v : viewer) : Prop :=
  listbox_items v = map entry_display (entries v)
  /\ Forall (fun i => (i < length (entries v))%nat) (listbox_sel v).

(** What is in the cache stays there, unchanged. *)
Definition cache_kept (v v' : viewer) : Prop :=
  forall k p, image_cache v !! k = Some p -> image_cache v' !! k = Some p.

(** The photo on the label, if any, is one the cache holds. *)
Definition label_cached (v : viewer) : Prop :=
  forall p, label_image v = Some p -> exists k, image_cache v !! k = Some p.

(** ** How an open ends *)

(** What showing an entry for the first time takes: its member is read,
    decoded, sized for the pane, and its pixels are loaded for the resize.
    [Ok tt] when the four succeed, else the exception of the first that
    fails. *)
Definition load_result (W : world) (v : viewer) (e : entry) : res unit :=
  res_bind (zip_read (entry_zip e) (entry_name e)) (fun data =>
  res_bind (Image_open W data) (fun size =>
  res_bind (get_display_size v {| img_size := size; img_data := data |}) (fun _ =>
  Image_load W data))).

(** How [populate_listbox] ends on a new entry list: there is nothing to
    show, or the first entry is in the cache, or the first entry is
    loaded. *)
Definition first_image_result (W : world) (v : viewer) (rows : list entry)
  : res unit :=
  match rows with
  | [] => Ok tt
  | e :: _ =>
      match image_cache v !! cache_key e with
      | Some _ => Ok tt
      | None => load_result W v e
      end
  end.

(** C5 as it is worded, for one path: a valid container is opened without
    any error, neither an exception nor a dialog, and the entry list is
    rebuilt from it; for anything else an error dialog is shown and the
    method returns with the entry list it started with. *)
Definition open_ucp_claimed (W : world) (path : string) (v : viewer) : Prop :=
  let out := open_ucp W (Some path) v in
  exists evs,
    trace (snd out) = (trace v ++ evs)%list
    /\ match ZipFile W (constructed v) path with
       | ZipOpened z =>
           fst out = Ok tt
           /\ Forall (fun ev => is_dialog ev = false) evs
           /\ entries (snd out) = archive_rows (OsPath.basename path) z
       | _ =>
           fst out = Ok tt
           /\ Exists (fun ev => is_dialog ev = true) evs
           /\ entries (snd out) = entries v
       end.

(** ** A second world *)

(** A shelf of archives that go wrong in different ways, and a desk. *)
Module Shelf.

Import Byte.

(** An archive without any image member. *)
Definition zip_text : zip_obj :=
  {| zip_id := 400;
     zip_namelist := ["readme.txt"; "index.html"; "png"];
     zip_read := fun _ => Raise KeyError |}.

(** An archive built after [Demo.zip_a] was dropped, at the address that
    object had: the same [id], and a member of the same name. *)
Definition zip_recycled : zip_obj :=
  {| zip_id := 100;
     zip_namelist := ["logo.PNG"];
     zip_read := fun name =>
       if String.eqb name "logo.PNG" then Ok [x03] else Raise KeyError |}.

Definition W : world :=
  {| ZipFile := fun _ path =>
       if String.eqb path "/shelf/a.ucp" then ZipOpened Demo.zip_a
       else if String.eqb path "/shelf/text.ucp" then ZipOpened zip_text
       else if String.eqb path "/shelf/later.ucp" then ZipOpened zip_recycled
       else if String.eqb path "/scrap/x.ucp" then ZipBad
       else if String.eqb path "/scrap/old/y.UCP" then ZipBad
       else ZipFailed OSError;
     Image_open := Image_open Demo.W;
     Image_load := fun _ => Ok tt;
     askopenfilename := EmptyString;
     isdir := fun path => String.eqb path "/shelf" || String.eqb path "/scrap";
     scandir_tree := fun path =>
       if String.eqb path "/shelf"
       then Dir [] ["a.ucp"; "gone.ucp"; "text.ucp"]
       else if String.eqb path "/scrap"
       then Dir [("old", Dir [] ["y.UCP"])] ["x.ucp"; "list.txt"]
       else Dir [] [] |}.

(** [a.ucp] is open, its first picture on the label. *)
Definition v1 : viewer := snd (open_ucp W (Some "/shelf/a.ucp") Demo.v0).

(** Then the archive without pictures is opened: the cache still holds
    the photo of [a.ucp]'s first picture. *)
Definition v2 : viewer := snd (open_ucp W (Some "/shelf/text.ucp") v1).

(** The list box's [nearest]: rows are 17 pixels high; the row is clamped
    to the list, and -1 stands for an empty list. *)
Definition nearest (v : viewer) (y : Z) : Z :=
  match listbox_items v with
  | [] => -1
  | _ :: _ => Z.min (Z.max 0 (y / 17)) (Z.of_nat (length (listbox_items v)) - 1)
  end.

Definition desk0 : desk :=
  {| desk_viewer := Demo.v2; desk_clipboard := "before"; desk_menu := None |}.

Definition right_click : tk_event :=
  {| event_y := 25; event_x_root := 640; event_y_root := 300 |}.

(** The first picture of the archive that does not decode is selected. *)
Definition torn : viewer := snd (open_ucp Demo.W (Some "/data/torn.ucp") Demo.v0).

Definition thumb : pil_image := {| img_size := (240, 320); img_data := [] |}.

Definition flat : pil_image := {| img_size := (640, 0); img_data := [] |}.

End Shelf.

(** * Properties *)

(** ** The model at work *)

Example lower_ex : PyStr.lower "Pic/LOGO.PnG" = "pic/logo.png".
Proof. reflexivity. Qed.

Example endswith_ex :
  PyStr.endswith_any "pic/logo.png" [".jpg"; ".jpeg"; ".gif"; ".png"] = true
  /\ PyStr.endswith_any "png" [".jpg"; ".jpeg"; ".gif"; ".png"] = false.
Proof. split; reflexivity. Qed.

Example basename_ex :
  OsPath.basename "/data/keitai/a.ucp" = "a.ucp"
  /\ OsPath.basename "a.ucp" = "a.ucp"
  /\ OsPath.basename "dir/" = EmptyString.
Proof. repeat split; reflexivity. Qed.

Example join_ex :
  OsPath.join "/data" "a.ucp" = "/data/a.ucp"
  /\ OsPath.join "/data/" "a.ucp" = "/data/a.ucp"
  /\ OsPath.join EmptyString "a.ucp" = "a.ucp".
Proof. repeat split; reflexivity. Qed.

Example fit_size_landscape : fit_size 500 600 1000 400 = Ok (500, 200).
Proof. vm_compute. reflexivity. Qed.

Example fit_size_small : fit_size 500 600 240 320 = Ok (240, 320).
Proof. vm_compute. reflexivity. Qed.

Example fit_size_third : fit_size 500 600 1500 900 = Ok (500, 300).
Proof. vm_compute. reflexivity. Qed.

(** Doubles round: [500 / 531 * 531] is a little below 500, and
    [1 / 49 * 49] a little below 1. *)
Example fit_size_rounds_down : fit_size 500 600 531 480 = Ok (499, 451).
Proof. vm_compute. reflexivity. Qed.

Example fit_size_unmapped : fit_size 1 1 49 49 = Ok (0, 0).
Proof. vm_compute. reflexivity. Qed.

Example fit_size_large :
  fit_size 1753242036 141904688 2147483647 946684800 = Ok (321900168, 141904688).
Proof. vm_compute. reflexivity. Qed.

Example fit_size_zero_width : fit_size 500 600 0 10 = Raise ZeroDivisionError.
Proof. vm_compute. reflexivity. Qed.

Example demo_find_archives :
  find_archives Demo.W "/data" = ["/data/a.ucp"; "/data/junk.ucp"; "/data/sub/c.UCP"].
Proof. vm_compute. reflexivity. Qed.

Example demo_open_ucp :
  let out := open_ucp Demo.W (Some "/data/a.ucp") Demo.v0 in
  fst out = Ok tt
  /\ listbox_items (snd out) = ["a.ucp::logo.PNG"; "a.ucp::pics/wide.jpg"]
  /\ listbox_sel (snd out) = [0%nat]
  /\ trace (snd out)
     = [ZipRead 100 "logo.PNG"; ImageOpen [Byte.x01]; ImageResize 240 320; NewPhoto 1]
  /\ option_map photo_id (label_image (snd out)) = Some 1%nat.
Proof. vm_compute. repeat split; reflexivity. Qed.

Example demo_click_wide :
  let v1 := snd (open_ucp Demo.W (Some "/data/a.ucp") Demo.v0) in
  let out := click Demo.W 1 v1 in
  fst out = Ok tt
  /\ trace (snd out)
     = [ZipRead 100 "logo.PNG"; ImageOpen [Byte.x01]; ImageResize 240 320; NewPhoto 1;
        ZipRead 100 "pics/wide.jpg"; ImageOpen [Byte.x02]; ImageResize 500 1; NewPhoto 2].
Proof. vm_compute. repeat split; reflexivity. Qed.

Example demo_open_folder :
  let out := open_ucp_folder Demo.W "/data" Demo.v0 in
  fst out = Ok tt
  /\ listbox_items (snd out)
     = ["a.ucp::logo.PNG"; "a.ucp::pics/wide.jpg"; "c.UCP::anim.Gif"]
  /\ List.filter is_dialog (trace (snd out)) = [].
Proof. vm_compute. repeat split; reflexivity. Qed.

(** ** Strings and paths *)

Module PyStrFacts.
Import PyStr.

Lemma app_nil_l (b : string) : (EmptyString ++ b)%string = b.
Proof. reflexivity. Qed.

Lemma app_cons (c : ascii) (a b : string) :
  (String c a ++ b)%string = String c (a ++ b).
Proof. reflexivity. Qed.

Lemma length_app (a b : string) :
  String.length (a ++ b) = (String.length a + String.length b)%nat.
Proof.
  induction a as [|c a IH]; [reflexivity|].
  rewrite app_cons. simpl. now rewrite IH.
Qed.

Lemma app_empty_r (a : string) : (a ++ EmptyString)%string = a.
Proof. induction a as [|c a IH]; [reflexivity | now rewrite app_cons, IH]. Qed.

Lemma app_assoc (a b c : string) : ((a ++ b) ++ c = a ++ (b ++ c))%string.
Proof. induction a as [|x a IH]; [reflexivity | now rewrite !app_cons, IH]. Qed.

Lemma take_drop (n : nat) (s : string) : (take n s ++ drop n s)%string = s.
Proof.
  revert s; induction n as [|n IH]; intros [|c s]; simpl; try reflexivity.
  now rewrite app_cons, IH.
Qed.

Lemma drop_app (a b : string) : drop (String.length a) (a ++ b) = b.
Proof. induction a as [|c a IH]; [reflexivity | rewrite app_cons; exact IH]. Qed.

Lemma endswith_spec (s suffix : string) :
  endswith s suffix = true <-> ends_with s suffix.
Proof.
  unfold endswith, ends_with. rewrite andb_true_iff, Nat.leb_le, String.eqb_eq.
  split.
  - intros [_ Hd].
    exists (take (String.length s - String.length suffix) s).
    rewrite <- Hd at 2. symmetry. apply take_drop.
  - intros [front ->]. rewrite length_app. split; [lia|].
    replace (String.length front + String.length suffix - String.length suffix)%nat
      with (String.length front) by lia.
    apply drop_app.
Qed.

Lemma endswith_any_spec (s : string) (suffixes : list string) :
  endswith_any s suffixes = true
  <-> exists suffix, In suffix suffixes /\ ends_with s suffix.
Proof.
  unfold endswith_any. rewrite existsb_exists.
  split; intros [x [Hin Hx]]; exists x; split; auto; now apply endswith_spec.
Qed.

End PyStrFacts.

Module OsPathFacts.
Import PyStr OsPath PyStrFacts.

Lemma no_sep_snoc (a : string) (c : ascii) :
  no_sep a -> c <> sep -> no_sep (a ++ String c EmptyString).
Proof.
  induction a as [|x a IH]; intros Ha Hc.
  - rewrite app_nil_l. simpl. tauto.
  - rewrite app_cons. simpl in *. tauto.
Qed.

Lemma basename_from_spec (p acc : string) :
  no_sep acc ->
  no_sep (basename_from acc p)
  /\ exists front,
       (acc ++ p = front ++ basename_from acc p)%string
       /\ (front = EmptyString \/ ends_with front "/").
Proof.
  revert acc; induction p as [|c r IH]; intros acc Hacc; simpl.
  - split; [assumption|]. exists EmptyString. rewrite app_empty_r. auto.
  - destruct (Ascii.eqb_spec c sep) as [->|Hc].
    + destruct (IH EmptyString I) as [Hn [front [Heq Hf]]]. split; [assumption|].
      rewrite app_nil_l in Heq.
      exists (acc ++ "/" ++ front)%string. split.
      * rewrite !app_assoc. rewrite <- Heq. reflexivity.
      * right. destruct Hf as [->|[g ->]].
        -- exists acc. now rewrite app_empty_r.
        -- exists (acc ++ "/" ++ g)%string. now rewrite !app_assoc.
    + destruct (IH (acc ++ String c EmptyString)%string (no_sep_snoc _ _ Hacc Hc))
        as [Hn [front [Heq Hf]]].
      split; [assumption|]. exists front. split; [|assumption].
      rewrite <- Heq, app_assoc. reflexivity.
Qed.

(** [basename p] is the part of [p] after its last separator. *)
Lemma basename_spec (p : string) :
  no_sep (basename p)
  /\ exists front,
       (p = front ++ basename p)%string /\ (front = EmptyString \/ ends_with front "/").
Proof. exact (basename_from_spec p EmptyString I). Qed.

End OsPathFacts.

(** ** Running the monad *)

Lemma for_each_modify {A} (l : list A) (f : A -> viewer -> viewer) (v : viewer) :
  for_each l (fun x => modify (f x)) v = (Ok tt, fold_left (fun s x => f x s) l v).
Proof.
  revert v; induction l as [|x l IH]; intros v; simpl; [reflexivity|].
  unfold bind at 1, modify at 1. apply IH.
Qed.

Lemma for_each_app {A} (l1 l2 : list A) (body : A -> M unit) (v : viewer) :
  for_each (l1 ++ l2) body v
  = (for_each l1 body ;;; for_each l2 body)%py v.
Proof.
  revert v; induction l1 as [|x l1 IH]; intros v; simpl.
  - reflexivity.
  - unfold bind. destruct (body x v) as [[[]|e] v1]; [|reflexivity].
    rewrite IH. reflexivity.
Qed.

Lemma append_images_run (base : string) (z : zip_obj) (v : viewer) :
  append_images base z v
  = (Ok tt, set_entries (entries v ++ archive_rows base z) v).
Proof.
  unfold append_images, archive_rows.
  generalize (zip_namelist z) as names.
  intros names; revert v; induction names as [|n names IH]; intros v; simpl.
  - rewrite app_nil_r. destruct v; reflexivity.
  - unfold bind at 1. destruct (is_image_name n); simpl.
    + rewrite IH. f_equal. destruct v; simpl. unfold set_entries; simpl.
      now rewrite <- List.app_assoc.
    + apply IH.
Qed.

Lemma archive_rows_names (base : string) (z : zip_obj) :
  map entry_name (archive_rows base z) = List.filter is_image_name (zip_namelist z).
Proof.
  unfold archive_rows. rewrite List.map_map. simpl. apply List.map_id.
Qed.

Lemma archive_rows_each (base : string) (z : zip_obj) :
  Forall (fun e => entry_zip e = z
                   /\ entry_display e = (base ++ "::" ++ entry_name e)%string)
         (archive_rows base z).
Proof.
  unfold archive_rows. apply List.Forall_forall. intros e He.
  apply List.in_map_iff in He. destruct He as [n [<- _]]. simpl. split; reflexivity.
Qed.

Lemma is_image_name_spec (name : string) :
  is_image_name name = true
  <-> exists ext, In ext [".jpg"; ".jpeg"; ".gif"; ".png"]
                  /\ PyStr.ends_with (PyStr.lower name) ext.
Proof. apply PyStrFacts.endswith_any_spec. Qed.

(** ** What a method leaves alone *)

Lemma quiet_refl v : quiet v v.
Proof. exists []. split; [now rewrite app_nil_r | constructor]. Qed.

Lemma quiet_same_trace v v' : trace v' = trace v -> quiet v v'.
Proof. intros H. exists []. split; [now rewrite app_nil_r | constructor]. Qed.

Lemma quiet_trans v1 v2 v3 : quiet v1 v2 -> quiet v2 v3 -> quiet v1 v3.
Proof.
  intros [e1 [H1 F1]] [e2 [H2 F2]]. exists (e1 ++ e2)%list. split.
  - rewrite H2, H1. now rewrite <- List.app_assoc.
  - apply Forall_app; split; assumption.
Qed.

Ltac frame_fields :=
  unfold frame; simpl;
  repeat match goal with |- _ /\ _ => split; [reflexivity|] end.

Lemma frame_refl v : frame v v.
Proof. frame_fields. apply quiet_refl. Qed.

Lemma frame_trans v1 v2 v3 : frame v1 v2 -> frame v2 v3 -> frame v1 v3.
Proof.
  intros (a1 & b1 & c1 & d1 & e1 & q1) (a2 & b2 & c2 & d2 & e2 & q2).
  unfold frame. repeat match goal with |- _ /\ _ => split; [congruence|] end.
  eapply quiet_trans; eassumption.
Qed.

Lemma frame_quiet v v' : frame v v' -> quiet v v'.
Proof. intros H; apply H. Qed.

Lemma quiet_log ev v : select_event ev -> quiet v (log ev v).
Proof.
  intros H. exists [ev]. split; [reflexivity | constructor; [exact H | constructor]].
Qed.

Lemma frame_log ev v : select_event ev -> frame v (log ev v).
Proof. intros H. frame_fields. now apply quiet_log. Qed.

Lemma frame_set_constructed n v : frame v (set_constructed n v).
Proof. frame_fields. now apply quiet_same_trace. Qed.

Lemma frame_set_image_cache c v : frame v (set_image_cache c v).
Proof. frame_fields. now apply quiet_same_trace. Qed.

Lemma frame_set_label_image p v : frame v (set_label_image p v).
Proof. frame_fields. now apply quiet_same_trace. Qed.

Lemma quiet_set_entries es v : quiet v (set_entries es v).
Proof. now apply quiet_same_trace. Qed.

Lemma quiet_set_listbox items sel v : quiet v (set_listbox items sel v).
Proof. now apply quiet_same_trace. Qed.

Lemma max1_ge (n : Z) : 1 <= PyNum.max1 n.
Proof. unfold PyNum.max1. destruct (Z.gtb_spec n 1); lia. Qed.

Section Steps.
Context (R : viewer -> viewer -> Prop).
Hypothesis R_refl : forall v, R v v.
Hypothesis R_trans : forall a b c, R a b -> R b c -> R a c.

Lemma steps_ret {A} (a : A) : steps R (ret a).
Proof using R_refl. intros v. apply R_refl. Qed.

Lemma steps_raise {A} (e : exn) : steps R (@raise A e).
Proof using R_refl. intros v. apply R_refl. Qed.

Lemma steps_lift {A} (r : res A) : steps R (lift r).
Proof using R_refl. intros v. apply R_refl. Qed.

Lemma steps_get : steps R get.
Proof using R_refl. intros v. apply R_refl. Qed.

Lemma steps_modify (f : viewer -> viewer) :
  (forall v, R v (f v)) -> steps R (modify f).
Proof. intros H v. apply H. Qed.

Lemma steps_bind {A B} (m : M A) (k : A -> M B) :
  steps R m -> (forall a, steps R (k a)) -> steps R (bind m k).
Proof using R_trans.
  intros Hm Hk v. unfold bind. specialize (Hm v).
  destruct (m v) as [[a|e] v1]; simpl in *; [|exact Hm].
  eapply R_trans; [exact Hm | apply Hk].
Qed.

Lemma steps_for_each {A} (l : list A) (body : A -> M unit) :
  (forall x, steps R (body x)) -> steps R (for_each l body).
Proof using R_refl R_trans.
  intros Hb. induction l as [|x l IH]; simpl.
  - apply steps_ret.
  - apply steps_bind; [apply Hb | intros _; exact IH].
Qed.

End Steps.

(** ** The methods *)

Section ProgramFacts.

Variable W : world.

Create HintDb frame_db.
#[local] Hint Resolve frame_refl frame_log frame_set_constructed
  frame_set_image_cache frame_set_label_image : frame_db.

Ltac frame_steps :=
  repeat first
    [ apply (steps_ret frame frame_refl)
    | apply (steps_raise frame frame_refl)
    | apply (steps_lift frame frame_refl)
    | apply (steps_get frame frame_refl)
    | apply (steps_modify frame); intros; auto with frame_db
    | apply (steps_bind frame frame_trans); [|intros] ].

Lemma PhotoImage_frame (img : pil_image) : steps frame (PhotoImage img).
Proof.
  unfold PhotoImage. frame_steps.
  apply frame_log. split; [reflexivity | exact I].
Qed.

Lemma load_photo_frame (z : zip_obj) (name : string) :
  steps frame (load_photo W z name).
Proof.
  unfold load_photo. frame_steps.
  - apply frame_log. split; [reflexivity | exact I].
  - apply frame_log. split; [reflexivity | exact I].
  - apply frame_log. split; [reflexivity | split; apply max1_ge].
  - apply PhotoImage_frame.
Qed.

Lemma on_select_frame : steps frame (on_select W).
Proof.
  unfold on_select.
  apply (steps_bind frame frame_trans); [apply (steps_get frame frame_refl)|].
  intros v. destruct (entries v) as [|e0 es]; [frame_steps|].
  destruct (listbox_sel v) as [|i sel]; [frame_steps|].
  destruct ((e0 :: es) !! i) as [e|]; [|frame_steps].
  apply (steps_bind frame frame_trans); [|intros; frame_steps].
  destruct (image_cache v !! _); [frame_steps | apply load_photo_frame].
Qed.

(** A photo that [load_photo] returns is in the cache under its key. *)
Lemma load_photo_cached (z : zip_obj) (name : string) (v v' : viewer) (p : photo) :
  load_photo W z name v = (Ok p, v') ->
  image_cache v' !! (zip_id z, name) = Some p.
Proof.
  unfold load_photo, bind, modify, lift, get, PhotoImage, ret; simpl.
  destruct (zip_read z name) as [data|]; [|discriminate].
  destruct (Image_open W data) as [size|]; [|discriminate].
  destruct (get_display_size _ _) as [new_size|]; [|discriminate].
  destruct (Image_resize W _ _ _) as [img|]; [|discriminate].
  intros H. inversion H; subst; clear H. simpl. apply lookup_insert_eq.
Qed.

(** After a selection that returns, the selected entry's photo is in the
    cache and on the label. *)
Lemma on_select_shows (v v' : viewer) (e : entry) :
  on_select W v = (Ok tt, v') ->
  selected_entry v = Some e ->
  exists p, image_cache v' !! cache_key e = Some p /\ label_image v' = Some p.
Proof.
  unfold selected_entry, cache_key, on_select, bind, get.
  destruct (listbox_sel v) as [|i sel]; [discriminate|].
  destruct (entries v) as [|e0 es]; [discriminate|].
  intros H Hi. rewrite Hi in H.
  destruct (image_cache v !! _) as [p|] eqn:Hc.
  - inversion H; subst. exists p. split; [exact Hc | reflexivity].
  - destruct (load_photo W _ _ v) as [[p|err] v1] eqn:Hl; [|discriminate].
    inversion H; subst. exists p. split; [|reflexivity].
    simpl. eapply load_photo_cached; eassumption.
Qed.

(** Running [on_select] again on the state it left changes nothing. *)
Lemma on_select_idem (v v' : viewer) :
  on_select W v = (Ok tt, v') -> on_select W v' = (Ok tt, v').
Proof.
  intros H. pose proof (on_select_frame v) as F. rewrite H in F.
  destruct F as (He & _ & Hs & _). simpl in He, Hs.
  destruct (selected_entry v) as [e|] eqn:Hsel.
  - destruct (on_select_shows _ _ _ H Hsel) as [p [Hc Hl]].
    unfold selected_entry in Hsel. unfold cache_key in Hc.
    unfold on_select, bind, get. rewrite He, Hs.
    destruct (listbox_sel v) as [|i sel]; [discriminate|].
    destruct (entries v) as [|e0 es]; [discriminate|].
    rewrite Hsel, Hc. unfold modify. f_equal.
    destruct v'; simpl in *. subst. reflexivity.
  - revert H. unfold selected_entry in Hsel.
    unfold on_select, bind, get. rewrite He, Hs.
    destruct (entries v) as [|e0 es]; [intros H; inversion H; reflexivity|].
    destruct (listbox_sel v) as [|i sel]; [intros H; inversion H; reflexivity|].
    rewrite Hsel. discriminate.
Qed.

Lemma insert_rows (es : list entry) (v : viewer) :
  fold_left (fun s e => listbox_insert_end (entry_display e) s) es v
  = set_listbox (listbox_items v ++ map entry_display es) (listbox_sel v) v.
Proof.
  revert v; induction es as [|e es IH]; intros v; simpl.
  - rewrite app_nil_r. destruct v; reflexivity.
  - rewrite IH. unfold listbox_insert_end, set_listbox; simpl.
    now rewrite <- List.app_assoc.
Qed.

(** [populate_listbox] rewrites the rows from the entry list, then selects
    the first row and runs [on_select] when there is one. *)
Lemma populate_listbox_run (v : viewer) :
  populate_listbox W v
  = match entries v with
    | [] => (Ok tt, set_listbox [] [] v)
    | _ :: _ => on_select W (set_listbox (map entry_display (entries v)) [0%nat] v)
    end.
Proof.
  unfold populate_listbox, bind at 1, modify at 1, bind at 1, get at 1.
  unfold bind at 1. rewrite for_each_modify, insert_rows.
  unfold listbox_delete_all. simpl.
  destruct (entries v) as [|e es]; [reflexivity|].
  unfold bind, modify, listbox_selection_set. simpl. reflexivity.
Qed.

Lemma open_ucp_bad (path : string) (v : viewer) :
  path <> EmptyString ->
  ZipFile W (constructed v) path = ZipBad ->
  open_ucp W (Some path) v
  = (Ok tt, log (ShowError "Invalid File"
                   "Selected file is not a valid UCP archive.") v).
Proof.
  intros Hp Hz. unfold open_ucp, str_not.
  apply String.eqb_neq in Hp. rewrite !Hp.
  unfold bind, get. rewrite Hz. reflexivity.
Qed.

Lemma open_ucp_opened (path : string) (z : zip_obj) (v : viewer) :
  path <> EmptyString ->
  ZipFile W (constructed v) path = ZipOpened z ->
  open_ucp W (Some path) v
  = populate_listbox W
      (set_entries (archive_rows (OsPath.basename path) z)
         (set_constructed (S (constructed v)) v)).
Proof.
  intros Hp Hz. unfold open_ucp, str_not.
  apply String.eqb_neq in Hp. rewrite !Hp.
  unfold bind at 1, get at 1. rewrite Hz.
  unfold bind at 1, modify at 1, bind at 1, modify at 1, bind at 1.
  rewrite append_images_run. reflexivity.
Qed.

Lemma populate_listbox_entries (v : viewer) :
  entries (snd (populate_listbox W v)) = entries v.
Proof.
  rewrite populate_listbox_run. destruct (entries v) as [|e es] eqn:E.
  - simpl. exact E.
  - destruct (on_select_frame (set_listbox (map entry_display (e :: es)) [0%nat] v))
      as (He & _). rewrite He. simpl. exact E.
Qed.

Lemma populate_listbox_quiet : steps quiet (populate_listbox W).
Proof.
  intros v. rewrite populate_listbox_run. destruct (entries v) as [|e es].
  - now apply quiet_same_trace.
  - eapply quiet_trans; [|apply frame_quiet, on_select_frame].
    now apply quiet_same_trace.
Qed.

Lemma populate_listbox_shown (v : viewer) : listing_shown (populate_listbox W v).
Proof.
  unfold listing_shown. rewrite populate_listbox_run.
  destruct (entries v) as [|e es] eqn:E.
  - simpl. rewrite E. split; [reflexivity | congruence].
  - set (v0 := set_listbox (map entry_display (e :: es)) [0%nat] v).
    destruct (on_select_frame v0) as (He & Hi & Hs & _).
    rewrite He, Hi, Hs. subst v0; simpl. rewrite E.
    split; [reflexivity|]. intros _. split; [reflexivity|].
    intros Hr. destruct (on_select W _) as [r v'] eqn:Hsel.
    simpl in Hr; subst r.
    destruct (on_select_shows _ _ e Hsel) as [p [Hc Hl]].
    { unfold selected_entry; simpl. now rewrite E. }
    exists e, p. simpl. auto.
Qed.

Lemma load_archives_run (archives : list string) (v : viewer) :
  only_bad W archives ->
  for_each archives (load_archive W) v
  = (Ok tt,
     set_entries (entries v ++ flat_map rows_of (opened W (constructed v) archives))
       (set_constructed (constructed v + length (opened W (constructed v) archives)) v)).
Proof.
  revert v; induction archives as [|path rest IH]; intros v Hok.
  - simpl. rewrite app_nil_r, Nat.add_0_r. destruct v; reflexivity.
  - assert (Hrest : only_bad W rest).
    { intros q n e Hq. apply Hok. now right. }
    simpl. unfold bind at 1, load_archive at 1, bind at 1, get at 1.
    destruct (ZipFile W (constructed v) path) as [z| |e] eqn:Hz.
    + unfold bind at 1, modify at 1. rewrite append_images_run.
      rewrite IH by assumption. simpl. f_equal.
      unfold set_entries, set_constructed; simpl.
      rewrite <- List.app_assoc. f_equal. lia.
    + simpl. apply IH; assumption.
    + exfalso. eapply Hok; [left; reflexivity | exact Hz].
Qed.

Lemma open_ucp_folder_run (folder : string) (v : viewer) :
  folder <> EmptyString ->
  isdir W folder = true ->
  find_archives W folder <> [] ->
  only_bad W (find_archives W folder) ->
  open_ucp_folder W folder v
  = populate_listbox W
      (set_entries (flat_map rows_of (opened W (constructed v) (find_archives W folder)))
         (set_constructed
            (constructed v + length (opened W (constructed v) (find_archives W folder))) v)).
Proof.
  intros Hf Hd Hne Hok. unfold open_ucp_folder, str_not.
  apply String.eqb_neq in Hf. rewrite Hf, Hd. simpl.
  destruct (find_archives W folder) as [|p ps] eqn:Ha; [congruence|].
  unfold bind at 1, modify at 1, bind at 1.
  rewrite load_archives_run by assumption. reflexivity.
Qed.

Lemma open_ucp_folder_none (folder : string) (v : viewer) :
  folder <> EmptyString ->
  isdir W folder = true ->
  find_archives W folder = [] ->
  open_ucp_folder W folder v
  = (Ok tt, log (ShowInfo "No UCP Files"
                   "No UCP files found in the specified folder.") v).
Proof.
  intros Hf Hd Ha. unfold open_ucp_folder, str_not.
  apply String.eqb_neq in Hf. rewrite Hf, Hd, Ha. reflexivity.
Qed.

(** C2: the rows an opened archive contributes are those of the names
    of [namelist()] whose lowercase ends with one of the four image
    suffixes, in [namelist()] order, each belonging to that archive and
    displayed as the basename of the archive path, then [::], then the
    member name.  After [open_ucp] on a valid archive the entry list is
    the rows of that archive; after [open_ucp_folder] it is the rows of
    the archives that opened, one archive after the other. *)
Theorem entries_are_image_members (v : viewer) :
  (forall path z,
      path <> EmptyString ->
      ZipFile W (constructed v) path = ZipOpened z ->
      let v' := snd (open_ucp W (Some path) v) in
      map entry_name (entries v') = List.filter is_image_name (zip_namelist z)
      /\ Forall (fun e =>
           entry_zip e = z
           /\ entry_display e
              = (OsPath.basename path ++ "::" ++ entry_name e)%string)
           (entries v'))
  /\ (forall folder,
      folder <> EmptyString ->
      isdir W folder = true ->
      find_archives W folder <> [] ->
      only_bad W (find_archives W folder) ->
      let v' := snd (open_ucp_folder W folder v) in
      let archives := opened W (constructed v) (find_archives W folder) in
      entries v' = flat_map rows_of archives
      /\ Forall (fun a =>
           map entry_name (rows_of a)
           = List.filter is_image_name (zip_namelist (snd a))
           /\ Forall (fun e =>
                entry_zip e = snd a
                /\ entry_display e
                   = (OsPath.basename (fst a) ++ "::" ++ entry_name e)%string)
                (rows_of a))
           archives)
  /\ (forall name,
      is_image_name name = true
      <-> exists ext, In ext [".jpg"; ".jpeg"; ".gif"; ".png"]
                      /\ PyStr.ends_with (PyStr.lower name) ext).
Proof.
  split; [|split].
  - intros path z Hp Hz v'. subst v'.
    rewrite (open_ucp_opened path z v Hp Hz), populate_listbox_entries. simpl.
    split; [apply archive_rows_names | apply archive_rows_each].
  - intros folder Hf Hd Hne Hok v' archives. subst v' archives.
    rewrite (open_ucp_folder_run folder v Hf Hd Hne Hok), populate_listbox_entries.
    split; [reflexivity|].
    apply List.Forall_forall. intros a _. unfold rows_of.
    split; [apply archive_rows_names | apply archive_rows_each].
  - apply is_image_name_spec.
Qed.

(** C8: when the scan of an existing folder finds no archive, the method
    shows the information dialog and returns; the entry list, the rows of
    the list box, its selection and the displayed image are the ones
    before. *)
Theorem open_ucp_folder_nothing_found (folder : string) (v : viewer) :
  folder <> EmptyString ->
  isdir W folder = true ->
  find_archives W folder = [] ->
  exists v',
    open_ucp_folder W folder v = (Ok tt, v')
    /\ entries v' = entries v
    /\ listbox_items v' = listbox_items v
    /\ listbox_sel v' = listbox_sel v
    /\ label_image v' = label_image v
    /\ image_cache v' = image_cache v.
Proof.
  intros Hf Hd Ha. eexists. split; [now apply open_ucp_folder_none|].
  repeat split.
Qed.

(** C9: in folder mode the turn of the loop for an archive that raises
    [BadZipFile] changes nothing at all: no dialog, no entry, no exception.
    So when no archive raises anything else, the entry list is made of the
    rows of the archives that open, in scan order, and no dialog is
    shown. *)
Theorem open_ucp_folder_skips_bad (v : viewer) :
  (forall path,
      ZipFile W (constructed v) path = ZipBad ->
      load_archive W path v = (Ok tt, v))
  /\ (forall folder,
      folder <> EmptyString ->
      isdir W folder = true ->
      find_archives W folder <> [] ->
      only_bad W (find_archives W folder) ->
      let v' := snd (open_ucp_folder W folder v) in
      entries v'
      = flat_map rows_of (opened W (constructed v) (find_archives W folder))
      /\ exists evs, trace v' = (trace v ++ evs)%list
                     /\ Forall (fun ev => is_dialog ev = false) evs).
Proof.
  split.
  - intros path Hz. unfold load_archive, bind, get. rewrite Hz. reflexivity.
  - intros folder Hf Hd Hne Hok v'. subst v'.
    rewrite (open_ucp_folder_run folder v Hf Hd Hne Hok).
    split; [now rewrite populate_listbox_entries|].
    match goal with |- context [populate_listbox W ?s] =>
      destruct (populate_listbox_quiet s) as [evs [Ht Hq]] end.
    exists evs. split; [exact Ht|].
    eapply Forall_impl; [exact Hq | intros ev H; apply H].
Qed.

(** A cache hit: the cached photo goes on the label and nothing else
    happens. *)
Lemma on_select_hit (v : viewer) (e : entry) (p : photo) :
  selected_entry v = Some e ->
  image_cache v !! cache_key e = Some p ->
  on_select W v = (Ok tt, set_label_image p v).
Proof.
  unfold selected_entry, cache_key, on_select, bind, get. intros Hsel Hc.
  destruct (listbox_sel v) as [|i sel]; [discriminate|].
  destruct (entries v) as [|e0 es]; [discriminate|].
  rewrite Hsel, Hc. reflexivity.
Qed.

(** [load_photo] leaves the cache alone or adds its own key. *)
Lemma load_photo_cache (z : zip_obj) (name : string) (v : viewer) :
  image_cache (snd (load_photo W z name v)) = image_cache v
  \/ exists p, image_cache (snd (load_photo W z name v))
               = <[(zip_id z, name) := p]> (image_cache v).
Proof.
  unfold load_photo, bind, modify, lift, get, PhotoImage, ret; simpl.
  destruct (zip_read z name) as [data|]; [|now left].
  destruct (Image_open W data) as [size|]; [|now left].
  destruct (get_display_size _ _) as [new_size|]; [|now left].
  destruct (Image_resize W _ _ _) as [img|]; [|now left].
  right. eexists. reflexivity.
Qed.

(** What is in the cache stays in the cache. *)
Lemma on_select_cache_grows (v : viewer) (k : Z * string) (p : photo) :
  image_cache v !! k = Some p ->
  image_cache (snd (on_select W v)) !! k = Some p.
Proof.
  intros Hk. unfold on_select, bind, get.
  destruct (entries v) as [|e0 es]; [exact Hk|].
  destruct (listbox_sel v) as [|i sel]; [exact Hk|].
  destruct ((e0 :: es) !! i) as [e|]; [|exact Hk].
  destruct (image_cache v !! (zip_id (entry_zip e), entry_name e)) as [q|] eqn:Hc.
  - exact Hk.
  - pose proof (load_photo_cache (entry_zip e) (entry_name e) v) as Hl.
    destruct (load_photo W (entry_zip e) (entry_name e) v) as [[q|err] v1];
      simpl in Hl |- *.
    + destruct Hl as [-> | [ph ->]]; [exact Hk|].
      rewrite lookup_insert_ne; [exact Hk | congruence].
    + destruct Hl as [-> | [ph ->]]; [exact Hk|].
      rewrite lookup_insert_ne; [exact Hk | congruence].
Qed.

Lemma click_keeps (j : nat) (v : viewer) (k : Z * string) (p : photo) :
  entries (snd (click W j v)) = entries v
  /\ listbox_items (snd (click W j v)) = listbox_items v
  /\ (image_cache v !! k = Some p ->
      image_cache (snd (click W j v)) !! k = Some p).
Proof.
  unfold click, bind, modify.
  set (v0 := set_listbox (listbox_items v) [j] v).
  destruct (on_select_frame v0) as (He & Hi & _).
  split; [exact He|]. split; [exact Hi|].
  apply (on_select_cache_grows v0).
Qed.

Lemma after_clicks_keeps (js : list nat) (v : viewer) (k : Z * string) (p : photo) :
  entries (after_clicks W js v) = entries v
  /\ (image_cache v !! k = Some p ->
      image_cache (after_clicks W js v) !! k = Some p).
Proof.
  revert v; induction js as [|j js IH]; intros v; simpl; [auto|].
  destruct (click_keeps j v k p) as (He & _ & Hc).
  destruct (IH (snd (click W j v))) as (He' & Hc').
  split; [congruence | auto].
Qed.

(** C4: when picking row [i], an entry of the list, returns, its photo is
    in the cache under the key (archive identity, member name) and on the
    label; picking that row again, at once or after any other rows were
    picked, finds the key, emits no event (nothing is read, decoded,
    resized or built) and puts the same photo on the label; picked again at
    once, the state is the very same. *)
Theorem click_again_uses_cache
    (i : nat) (e : entry) (js : list nat) (v v1 : viewer) :
  click W i v = (Ok tt, v1) ->
  entries v !! i = Some e ->
  let v2 := after_clicks W js v1 in
  exists p,
    image_cache v1 !! (zip_id (entry_zip e), entry_name e) = Some p
    /\ label_image v1 = Some p
    /\ image_cache v2 !! (zip_id (entry_zip e), entry_name e) = Some p
    /\ click W i v2
       = (Ok tt, set_label_image p (set_listbox (listbox_items v2) [i] v2))
    /\ trace (snd (click W i v2)) = trace v2
    /\ label_image (snd (click W i v2)) = Some p
    /\ click W i v1 = (Ok tt, v1).
Proof.
  intros H He v2. unfold click, bind, modify in H.
  set (v0 := set_listbox (listbox_items v) [i] v) in H.
  destruct (on_select_shows v0 v1 e H) as [p [Hc Hl]].
  { unfold selected_entry; simpl. exact He. }
  destruct (on_select_frame v0) as (He1 & _ & Hs1 & _). rewrite H in He1, Hs1.
  simpl in He1, Hs1.
  assert (Hhit : forall s, entries s = entries v ->
            image_cache s !! cache_key e = Some p ->
            click W i s
            = (Ok tt, set_label_image p (set_listbox (listbox_items s) [i] s))).
  { intros s Hes Hcs. unfold click, bind, modify.
    apply (on_select_hit _ e); [|exact Hcs].
    unfold selected_entry; simpl. now rewrite Hes. }
  destruct (after_clicks_keeps js v1 (cache_key e) p) as (He2 & Hc2).
  fold v2 in He2, Hc2. specialize (Hc2 Hc).
  assert (Hagain : click W i v2
            = (Ok tt, set_label_image p (set_listbox (listbox_items v2) [i] v2))).
  { apply Hhit; [congruence | exact Hc2]. }
  exists p. split; [exact Hc|]. split; [exact Hl|]. split; [exact Hc2|].
  split; [exact Hagain|]. rewrite Hagain. split; [reflexivity|].
  split; [reflexivity|].
  rewrite (Hhit v1 He1 Hc). f_equal.
  destruct v1; simpl in *. subst. reflexivity.
Qed.

(** ** The directory scan *)

Lemma walk_file_under (t : dirtree) (top root f : string) :
  (exists dirs files, In (root, dirs, files) (walk top t) /\ In f files)
  <-> file_under top t root f.
Proof.
  split.
  - revert top. induction t as [subdirs files IH] using dirtree_ind.
    intros top (dirs & fs & Hin & Hf). simpl in Hin. destruct Hin as [Heq|Hin].
    + inversion Heq; subst. now apply file_here.
    + apply List.in_flat_map in Hin. destruct Hin as [[d t] [Hd Hw]].
      rewrite List.Forall_forall in IH. simpl in Hw.
      apply file_below with (d := d) (t := t); [exact Hd|].
      apply (IH (d, t) Hd). eauto.
  - induction 1 as [top subdirs files f Hf
                   | top subdirs files d t root f Hd Hu IH].
    + exists (map fst subdirs), files. split; [now left | exact Hf].
    + destruct IH as (dirs & fs & Hin & Hf). exists dirs, fs.
      split; [|exact Hf]. simpl. right.
      apply List.in_flat_map. exists (d, t). split; [exact Hd | exact Hin].
Qed.

Lemma walk_files_spec (t : dirtree) (top root f : string) :
  In (root, f) (walk_files top t) <-> file_under top t root f.
Proof.
  rewrite <- walk_file_under. unfold walk_files. rewrite List.in_flat_map. split.
  - intros [[[r dirs] files] [Hin Hf]]. simpl in Hf.
    apply List.in_map_iff in Hf. destruct Hf as [g [Heq Hg]].
    inversion Heq; subst. eauto.
  - intros (dirs & files & Hin & Hf). exists (root, dirs, files).
    split; [exact Hin|]. simpl. now apply List.in_map.
Qed.

Lemma find_in_directory (root : string) (files : list string) :
  map (OsPath.join root) (List.filter is_ucp_name files)
  = map (fun rf => OsPath.join (fst rf) (snd rf))
      (List.filter (fun rf => is_ucp_name (snd rf)) (map (pair root) files)).
Proof.
  induction files as [|f files IH]; simpl; [reflexivity|].
  destruct (is_ucp_name f); simpl; now rewrite IH.
Qed.

(** C3: the archives collected for a folder are the files met by the walk
    of that folder whose lowercased name ends with [.ucp], each joined to
    the directory that lists it, in walk order; a path is collected exactly
    when it names such a file somewhere below the folder. *)
Theorem find_archives_spec (folder : string) :
  find_archives W folder
  = map (fun rf => OsPath.join (fst rf) (snd rf))
      (List.filter (fun rf => is_ucp_name (snd rf))
         (walk_files folder (scandir_tree W folder)))
  /\ forall path,
       In path (find_archives W folder)
       <-> exists root fname,
             file_under folder (scandir_tree W folder) root fname
             /\ PyStr.ends_with (PyStr.lower fname) ".ucp"
             /\ path = OsPath.join root fname.
Proof.
  assert (Heq : find_archives W folder
    = map (fun rf => OsPath.join (fst rf) (snd rf))
        (List.filter (fun rf => is_ucp_name (snd rf))
           (walk_files folder (scandir_tree W folder)))).
  { unfold find_archives, walk_files.
    induction (walk folder (scandir_tree W folder)) as [|[[root dirs] files] l IH].
    - reflexivity.
    - simpl. rewrite List.filter_app, List.map_app, <- IH.
      f_equal. apply find_in_directory. }
  split; [exact Heq|]. intros path. rewrite Heq, List.in_map_iff. split.
  - intros [[root f] [Hp Hin]]. apply List.filter_In in Hin.
    destruct Hin as [Hin Hu]. simpl in *. exists root, f.
    split; [now apply walk_files_spec|].
    split; [now apply PyStrFacts.endswith_spec | now symmetry].
  - intros (root & f & Hu & He & ->). exists (root, f). split; [reflexivity|].
    apply List.filter_In. split; [now apply walk_files_spec|].
    simpl. now apply PyStrFacts.endswith_spec.
Qed.

(** C7, as the code has it: after [open_ucp] on a valid archive, and after
    [open_ucp_folder] on a folder with at least one archive none of which
    raises anything but [BadZipFile], the rows of the list box are the
    display names of the entry list in order; when the entry list is not
    empty the first row is the selection, and if the method returned the
    label shows the photo cached for the first entry.  An open that ends
    early, on a file that is no archive or a folder without archives,
    leaves the entry list, the rows, the selection and the label as they
    were. *)
Theorem open_then_listing_shown (v : viewer) :
  (forall path z,
      path <> EmptyString ->
      ZipFile W (constructed v) path = ZipOpened z ->
      listing_shown (open_ucp W (Some path) v))
  /\ (forall folder,
      folder <> EmptyString ->
      isdir W folder = true ->
      find_archives W folder <> [] ->
      only_bad W (find_archives W folder) ->
      listing_shown (open_ucp_folder W folder v))
  /\ (forall path,
      path <> EmptyString ->
      ZipFile W (constructed v) path = ZipBad ->
      unchanged_listing v (snd (open_ucp W (Some path) v)))
  /\ (forall folder,
      folder <> EmptyString ->
      isdir W folder = true ->
      find_archives W folder = [] ->
      unchanged_listing v (snd (open_ucp_folder W folder v))).
Proof.
  split; [|split; [|split]].
  - intros path z Hp Hz. rewrite (open_ucp_opened path z v Hp Hz).
    apply populate_listbox_shown.
  - intros folder Hf Hd Hne Hok.
    rewrite (open_ucp_folder_run folder v Hf Hd Hne Hok).
    apply populate_listbox_shown.
  - intros path Hp Hz. rewrite (open_ucp_bad path v Hp Hz).
    repeat split.
  - intros folder Hf Hd Ha. rewrite (open_ucp_folder_none folder v Hf Hd Ha).
    repeat split.
Qed.

(** The clamp at work: every resize that [on_select] asks for has both
    dimensions at least 1, whatever the state and the selection, and
    [on_select] shows no dialog. *)
Lemma on_select_resizes (v : viewer) :
  exists evs,
    trace (snd (on_select W v)) = (trace v ++ evs)%list
    /\ Forall select_event evs.
Proof. destruct (on_select_frame v) as (_ & _ & _ & _ & _ & Hq). exact Hq. Qed.

End ProgramFacts.

(** ** Doubles *)

Lemma digits2_pos_bounds (p : positive) :
  2 ^ (Zpos (digits2_pos p) - 1) <= Zpos p < 2 ^ Zpos (digits2_pos p).
Proof.
  induction p as [p IH|p IH|]; simpl digits2_pos.
  - rewrite Pos2Z.inj_succ, Z.pow_succ_r by lia.
    replace (Z.succ (Zpos (digits2_pos p)) - 1) with (Z.succ (Zpos (digits2_pos p) - 1)) by lia.
    rewrite Z.pow_succ_r by lia. lia.
  - rewrite Pos2Z.inj_succ, Z.pow_succ_r by lia.
    replace (Z.succ (Zpos (digits2_pos p)) - 1) with (Z.succ (Zpos (digits2_pos p) - 1)) by lia.
    rewrite Z.pow_succ_r by lia. lia.
  - simpl. lia.
Qed.

Lemma Zdigits2_bounds (m : Z) :
  0 < m -> 2 ^ (Zdigits2 m - 1) <= m < 2 ^ Zdigits2 m.
Proof. destruct m as [|p|p]; try lia. intros _. apply digits2_pos_bounds. Qed.

Lemma Zdigits2_pos (m : Z) : 0 < m -> 0 < Zdigits2 m.
Proof. destruct m; simpl; lia. Qed.

Lemma Zdigits2_unique (m d : Z) :
  2 ^ (d - 1) <= m < 2 ^ d -> 0 < d -> Zdigits2 m = d.
Proof.
  intros [Hl Hu] Hd.
  assert (Hm : 0 < m) by (pose proof (Z.pow_pos_nonneg 2 (d - 1)); lia).
  pose proof (Zdigits2_bounds m Hm) as [Hl' Hu'].
  pose proof (Zdigits2_pos m Hm) as Hd'.
  assert (d - 1 < Zdigits2 m).
  { apply (Z.pow_lt_mono_r_iff 2); lia. }
  assert (Zdigits2 m - 1 < d).
  { apply (Z.pow_lt_mono_r_iff 2); lia. }
  lia.
Qed.

Lemma shr_1_half (mrs : shr_record) :
  0 <= shr_m mrs -> shr_m (shr_1 mrs) = shr_m mrs / 2.
Proof.
  destruct mrs as [m r s]; cbn [shr_m]. intros Hm.
  destruct m as [|[p|p|]|p]; cbn [shr_1 shr_m]; try lia.
  - reflexivity.
  - apply Z.div_unique with (r := 1); lia.
  - apply Z.div_unique with (r := 0); lia.
  - reflexivity.
Qed.

Lemma iter_pos_nat {A} (f : A -> A) (p : positive) (x : A) :
  SpecFloat.iter_pos f p x = Nat.iter (Pos.to_nat p) f x.
Proof.
  revert x; induction p as [p IH|p IH|]; intros x; simpl SpecFloat.iter_pos.
  - rewrite !IH, Pos2Nat.inj_xI.
    replace (S (2 * Pos.to_nat p)) with (Pos.to_nat p + (Pos.to_nat p + 1))%nat by lia.
    rewrite !Nat.iter_add. reflexivity.
  - rewrite !IH, Pos2Nat.inj_xO.
    replace (2 * Pos.to_nat p)%nat with (Pos.to_nat p + Pos.to_nat p)%nat by lia.
    rewrite Nat.iter_add. reflexivity.
  - reflexivity.
Qed.

Lemma iter_shr_1 (n : nat) (mrs : shr_record) :
  0 <= shr_m mrs ->
  shr_m (Nat.iter n shr_1 mrs) = shr_m mrs / 2 ^ Z.of_nat n.
Proof.
  intros Hm. induction n as [|n IH].
  - simpl. now rewrite Z.div_1_r.
  - simpl Nat.iter. rewrite shr_1_half.
    + rewrite IH, Nat2Z.inj_succ, Z.pow_succ_r by lia.
      pose proof (Z.pow_pos_nonneg 2 (Z.of_nat n)).
      rewrite Z.div_div by lia. f_equal. lia.
    + rewrite IH. apply Z.div_pos; [lia | apply Z.pow_pos_nonneg; lia].
Qed.

Lemma shr_spec (mrs : shr_record) (e n : Z) :
  0 <= n -> 0 <= shr_m mrs ->
  shr_m (fst (shr mrs e n)) = shr_m mrs / 2 ^ n
  /\ snd (shr mrs e n) = e + n
  /\ (n = 0 -> fst (shr mrs e n) = mrs).
Proof.
  intros Hn Hm. destruct n as [|p|p]; try lia; simpl.
  - rewrite Z.div_1_r. repeat split; lia.
  - rewrite iter_pos_nat, iter_shr_1, positive_nat_Z by assumption.
    repeat split. discriminate.
Qed.

Lemma shr_m_of_loc (m : Z) (l : location) : shr_m (shr_record_of_loc m l) = m.
Proof. destruct l as [|[]]; reflexivity. Qed.

Lemma round_nearest_even_near (m : Z) (l : location) :
  round_nearest_even m l = m \/ round_nearest_even m l = m + 1.
Proof.
  destruct l as [|[]]; simpl; auto. destruct (Z.even m); auto.
Qed.

Lemma fexp_normal (x : Z) : -1074 <= x - 53 -> fexp 53 1024 x = x - 53.
Proof. unfold fexp, emin. lia. Qed.

Lemma binary_round_aux_shape (mx ex : Z) (lx : location) :
  0 < mx ->
  53 <= Zdigits2 mx ->
  -1074 <= Zdigits2 mx + ex - 53 ->
  Zdigits2 mx + ex <= 1023 ->
  let k := Zdigits2 mx - 53 in
  let t := mx / 2 ^ k in
  exists m e,
    binary_round_aux 53 1024 false mx ex lx = S754_finite false m e
    /\ 2 ^ 52 <= Zpos m < 2 ^ 53
    /\ 2 ^ 52 <= t < 2 ^ 53
    /\ ((Zpos m = t /\ e = ex + k)
        \/ (Zpos m = t + 1 /\ e = ex + k)
        \/ (t + 1 = 2 ^ 53 /\ Zpos m = 2 ^ 52 /\ e = ex + k + 1))
    /\ (lx = loc_Exact -> k = 0 -> Zpos m = mx /\ e = ex).
Proof.
  intros Hm Hd Hlo Hhi k t.
  pose proof (Zdigits2_bounds mx Hm) as [Hl Hu].
  assert (Hk : 0 <= k) by (subst k; lia).
  pose proof (Z.pow_pos_nonneg 2 k ltac:(lia) Hk) as Hpk.
  assert (Ht : 2 ^ 52 <= t < 2 ^ 53).
  { subst t. split.
    - apply Z.div_le_lower_bound; [lia|].
      rewrite <- Z.pow_add_r by lia.
      replace (k + 52) with (Zdigits2 mx - 1) by (subst k; lia). exact Hl.
    - apply Z.div_lt_upper_bound; [lia|].
      rewrite <- Z.pow_add_r by lia.
      replace (k + 53) with (Zdigits2 mx) by (subst k; lia). exact Hu. }
  unfold binary_round_aux, shr_fexp.
  rewrite fexp_normal by lia.
  replace (Zdigits2 mx + ex - 53 - ex) with k by (subst k; lia).
  destruct (shr_spec (shr_record_of_loc mx lx) ex k) as (S1 & S2 & S3);
    [lia | rewrite shr_m_of_loc; lia|].
  destruct (shr (shr_record_of_loc mx lx) ex k) as [mrs' e'] eqn:Hs.
  cbn [fst snd] in S1, S2, S3. rewrite shr_m_of_loc in S1. fold t in S1.
  set (m2 := round_nearest_even (shr_m mrs') (loc_of_shr_record mrs')).
  assert (Hm2 : m2 = t \/ m2 = t + 1).
  { subst m2. rewrite S1. apply round_nearest_even_near. }
  assert (Hexact : lx = loc_Exact -> k = 0 -> m2 = mx).
  { intros -> Hk0. subst m2. rewrite (S3 Hk0). reflexivity. }
  clearbody m2.
  destruct (Z.eq_dec m2 (2 ^ 53)) as [E|NE].
  - (* the mantissa carried into a 54th bit *)
    subst m2. change (Zdigits2 (2 ^ 53)) with 54.
    rewrite fexp_normal by lia.
    replace (54 + e' - 53 - e') with 1 by lia.
    cbn [shr shr_record_of_loc SpecFloat.iter_pos shr_1 shr_m].
    change (2 ^ 53) with 9007199254740992 at 1.
    cbn [shr_1 shr_m].
    assert (He : (e' + 1 <=? 1024 - 53) = true) by (apply Z.leb_le; lia).
    rewrite He. eexists _, _. split; [reflexivity|].
    split; [change (Z.pos 4503599627370496) with (2 ^ 52); lia|].
    split; [exact Ht|]. split.
    + right; right. change (Z.pos 4503599627370496) with (2 ^ 52). lia.
    + intros Hx Hk0. specialize (Hexact Hx Hk0). exfalso.
      assert (t = mx) by (subst t; rewrite Hk0; apply Z.div_1_r). lia.
  - assert (Hr : 2 ^ 52 <= m2 < 2 ^ 53) by lia.
    rewrite (Zdigits2_unique m2 53) by (change (53 - 1) with 52; lia).
    rewrite fexp_normal by lia.
    replace (53 + e' - 53 - e') with 0 by lia.
    cbn [shr]. rewrite shr_m_of_loc.
    destruct m2 as [|p|p]; try lia.
    assert (He : (e' <=? 1024 - 53) = true) by (apply Z.leb_le; lia).
    rewrite He. exists p, e'. split; [reflexivity|].
    split; [exact Hr|]. split; [exact Ht|]. split.
    + destruct Hm2 as [E|E]; [left | right; left]; lia.
    + intros Hx Hk0. specialize (Hexact Hx Hk0). lia.
Qed.

Lemma IZR_pow2 (n : Z) : 0 <= n -> IZR (2 ^ n) = powerRZ 2 n.
Proof.
  destruct n as [|p|p]; try lia; intros _.
  - reflexivity.
  - change (2 ^ Zpos p) with (Z.pow_pos 2 p). apply Zpower_pos_powerRZ.
Qed.

Lemma pow2_pos (e : Z) : (0 < powerRZ 2 e)%R.
Proof. apply powerRZ_lt. lra. Qed.

Lemma pow2_add (a b : Z) : powerRZ 2 (a + b) = (powerRZ 2 a * powerRZ 2 b)%R.
Proof. apply powerRZ_add. lra. Qed.

Lemma canonical_digits (m : positive) : canonical m -> Zdigits2 (Zpos m) = 53.
Proof. intros H. apply Zdigits2_unique; [exact H | lia]. Qed.

(** [float(z)] is exact for a positive integer below [2^53]. *)
Lemma float_of_int_exact (z : Z) :
  0 < z < 2 ^ 53 ->
  exists m e,
    PyNum.float_of_int z = Ok (S754_finite false m e)
    /\ canonical m
    /\ -52 <= e <= 0
    /\ Zpos m = z * 2 ^ (- e)
    /\ SF2R (S754_finite false m e) = IZR z.
Proof.
  intros [Hz Hb]. destruct z as [|p|p]; try lia.
  pose proof (digits2_pos_bounds p) as [Hl Hu].
  set (d := Zpos (digits2_pos p)) in *.
  assert (Hd : 1 <= d <= 53).
  { split; [subst d; lia|].
    destruct (Z_le_gt_dec d 53) as [|Hgt]; [assumption|exfalso].
    assert (2 ^ 53 <= 2 ^ (d - 1)) by (apply Z.pow_le_mono_r; lia). lia. }
  assert (Hshift : exists mz, shl_align p 0 (d - 53) = (mz, d - 53)
                              /\ Zpos mz = Zpos p * 2 ^ (53 - d)).
  { unfold shl_align. rewrite Z.sub_0_r.
    destruct (d - 53) as [|q|q] eqn:Hq; try lia.
    - exists p. replace (53 - d) with 0 by lia. split; [reflexivity | lia].
    - exists (Pos.iter xO p q). split; [reflexivity|].
      change (Pos.iter xO p q) with (shift_pos q p).
      rewrite shift_pos_correct. change (Z.pow_pos 2 q) with (2 ^ Zpos q).
      replace (53 - d) with (Zpos q) by lia. lia. }
  destruct Hshift as [mz [Hal Hmz]].
  assert (Hcan : canonical mz).
  { unfold canonical. rewrite Hmz. split.
    - replace 52 with ((d - 1) + (53 - d)) by lia.
      rewrite Z.pow_add_r by lia. apply Z.mul_le_mono_nonneg_r; [|exact Hl].
      apply Z.pow_nonneg; lia.
    - replace 53 with (d + (53 - d)) at 2 by lia.
      rewrite Z.pow_add_r by lia. apply Z.mul_lt_mono_pos_r; [|exact Hu].
      apply Z.pow_pos_nonneg; lia. }
  destruct (binary_round_aux_shape (Zpos mz) (d - 53) loc_Exact)
    as (m & e & Hr & Hm & _ & _ & Hex);
    rewrite ?(canonical_digits mz Hcan); try lia.
  destruct (Hex eq_refl) as [Hme He]; [rewrite (canonical_digits mz Hcan); lia|].
  exists m, e.
  assert (Hf : PyNum.float_of_int (Zpos p) = Ok (S754_finite false m e)).
  { unfold PyNum.float_of_int, binary_normalize, binary_round.
    change PyNum.prec with 53. change PyNum.emax with 1024.
    rewrite Z.add_0_r. fold d. rewrite fexp_normal by lia.
    rewrite Hal, Hr. reflexivity. }
  split; [exact Hf|]. split; [exact Hm|]. split; [lia|].
  assert (Hpos : Zpos m = Zpos p * 2 ^ (- e)).
  { rewrite Hme, Hmz, He. f_equal. f_equal. lia. }
  split; [exact Hpos|].
  unfold SF2R. rewrite Hpos, mult_IZR, IZR_pow2 by lia.
  rewrite Rmult_1_l, Rmult_assoc, <- pow2_add.
  replace (- e + e) with 0 by lia. simpl. lra.
Qed.

(** Rounding never exceeds the exact value by more than that. *)
Lemma binary_round_aux_value (mx ex : Z) (lx : location) :
  0 < mx ->
  53 <= Zdigits2 mx ->
  -1074 <= Zdigits2 mx + ex - 53 ->
  Zdigits2 mx + ex <= 1023 ->
  exists m e,
    binary_round_aux 53 1024 false mx ex lx = S754_finite false m e
    /\ canonical m
    /\ Zdigits2 mx + ex - 53 <= e <= Zdigits2 mx + ex - 52
    /\ (SF2R (S754_finite false m e) <= IZR mx * powerRZ 2 ex * (1 + ulp_rel))%R.
Proof.
  intros Hm Hd Hlo Hhi.
  destruct (binary_round_aux_shape mx ex lx Hm Hd Hlo Hhi)
    as (m & e & Hr & Hcan & Ht & Hcase & _).
  set (k := Zdigits2 mx - 53) in *. set (t := mx / 2 ^ k) in *.
  exists m, e. split; [exact Hr|]. split; [exact Hcan|].
  split; [subst k; lia|].
  assert (Hk : 0 <= k) by (subst k; lia).
  pose proof (Z.pow_pos_nonneg 2 k ltac:(lia) Hk) as Hpk.
  assert (Htk : 2 ^ k * t <= mx) by (subst t; apply Z.mul_div_le; lia).
  (* in the reals *)
  pose proof (pow2_pos ex) as HP. set (P := powerRZ 2 ex) in *.
  pose proof (pow2_pos k) as HK. set (K := powerRZ 2 k) in *.
  assert (HtK : (K * IZR t <= IZR mx)%R).
  { subst K. rewrite <- IZR_pow2, <- mult_IZR by lia. now apply IZR_le. }
  assert (Ht52 : (4503599627370496 <= IZR t)%R).
  { apply IZR_le. change 4503599627370496 with (2 ^ 52). lia. }
  assert (HKx : (K <= IZR mx * ulp_rel)%R).
  { unfold ulp_rel.
    assert (K * 4503599627370496 <= IZR mx)%R by nra. 
    apply Rmult_le_reg_r with 4503599627370496%R; [lra|].
    rewrite Rmult_assoc, Rinv_l by lra. lra. }
  assert (Hup : (IZR (t + 1) * (K * P) <= IZR mx * P * (1 + ulp_rel))%R).
  { rewrite plus_IZR.
    replace ((IZR t + 1) * (K * P))%R with ((K * IZR t + K) * P)%R by ring.
    replace (IZR mx * P * (1 + ulp_rel))%R with ((IZR mx + IZR mx * ulp_rel) * P)%R by ring.
    apply Rmult_le_compat_r; lra. }
  unfold SF2R. rewrite Rmult_1_l.
  destruct Hcase as [[Hme He]|[[Hme He]|[Hc [Hme He]]]]; rewrite Hme, He.
  - rewrite pow2_add. fold P K. rewrite (Rmult_comm P K).
    eapply Rle_trans; [|exact Hup].
    rewrite plus_IZR. apply Rmult_le_compat_r; [nra | lra].
  - rewrite pow2_add. fold P K. rewrite (Rmult_comm P K). exact Hup.
  - rewrite !pow2_add. fold P K. rewrite Hc in Hup.
    change (powerRZ 2 1) with (2 * 1)%R.
    replace (IZR (2 ^ 52) * (P * K * (2 * 1)))%R
      with (IZR (2 ^ 53) * (K * P))%R; [exact Hup|].
    change (2 ^ 53) with (2 * 2 ^ 52). rewrite mult_IZR. ring.
Qed.

Lemma SFdiv_core_canonical (ma mb : positive) (ea eb : Z) :
  canonical ma -> canonical mb -> -1074 <= ea - eb - 53 ->
  exists l,
    SFdiv_core_binary 53 1024 (Zpos ma) ea (Zpos mb) eb
    = (Zpos ma * 2 ^ 53 / Zpos mb, ea - eb - 53, l).
Proof.
  intros Ha Hb He. unfold SFdiv_core_binary.
  rewrite (canonical_digits ma Ha), (canonical_digits mb Hb).
  rewrite fexp_normal by lia.
  replace (Z.min (53 + ea - (53 + eb) - 53) (ea - eb)) with (ea - eb - 53) by lia.
  replace (ea - eb - (ea - eb - 53)) with 53 by lia.
  cbv iota. rewrite Z.shiftl_mul_pow2 by lia.
  destruct (Z.div_eucl (Zpos ma * 2 ^ 53) (Zpos mb)) as [q r] eqn:E.
  exists (new_location (Zpos mb) r). f_equal. f_equal.
  unfold Z.div. now rewrite E.
Qed.

(** The quotient of two positive integers below [2^53]: a normal double
    that exceeds the exact quotient by at most one part in [2^52]. *)
Lemma truediv_value (a b : Z) :
  0 < a < 2 ^ 53 -> 0 < b < 2 ^ 53 ->
  exists m e,
    PyNum.truediv a b = Ok (S754_finite false m e)
    /\ canonical m
    /\ -105 <= e <= 1
    /\ (SF2R (S754_finite false m e) * IZR b <= IZR a * (1 + ulp_rel))%R.
Proof.
  intros Ha Hb.
  destruct (float_of_int_exact a Ha) as (ma & ea & Hfa & Hca & Hea & Hma & Hva).
  destruct (float_of_int_exact b Hb) as (mb & eb & Hfb & Hcb & Heb & Hmb & Hvb).
  destruct (SFdiv_core_canonical ma mb ea eb Hca Hcb ltac:(lia)) as [l Hcore].
  set (q := Zpos ma * 2 ^ 53 / Zpos mb) in *.
  assert (Hq : 2 ^ 52 <= q < 2 ^ 54).
  { unfold canonical in Hca, Hcb. subst q. split.
    - apply Z.div_le_lower_bound; lia.
    - apply Z.div_lt_upper_bound; lia. }
  assert (Hqm : Zpos mb * q <= Zpos ma * 2 ^ 53).
  { subst q. apply Z.mul_div_le. lia. }
  assert (Hdq : 53 <= Zdigits2 q <= 54).
  { pose proof (Zdigits2_bounds q ltac:(lia)) as [Hl Hu].
    pose proof (Zdigits2_pos q ltac:(lia)).
    split.
    - assert (52 < Zdigits2 q) by (apply (Z.pow_lt_mono_r_iff 2); lia). lia.
    - assert (Zdigits2 q - 1 < 54) by (apply (Z.pow_lt_mono_r_iff 2); lia). lia. }
  destruct (binary_round_aux_value q (ea - eb - 53) l) as (m & e & Hr & Hcan & He & Hv);
    try lia.
  exists m, e.
  assert (Hdiv : PyNum.truediv a b = Ok (S754_finite false m e)).
  { unfold PyNum.truediv. replace (b =? 0) with false by (symmetry; apply Z.eqb_neq; lia).
    rewrite Hfa, Hfb. cbn [res_bind]. unfold SFdiv.
    change PyNum.prec with 53. change PyNum.emax with 1024.
    rewrite Hcore. cbn [xorb]. rewrite Hr. reflexivity. }
  split; [exact Hdiv|]. split; [exact Hcan|]. split; [lia|].
  (* the value *)
  unfold SF2R in Hva, Hvb. rewrite Rmult_1_l in Hva, Hvb.
  rewrite <- Hva, <- Hvb.
  pose proof (pow2_pos ea) as HPa. pose proof (pow2_pos eb) as HPb.
  assert (Hsplit : powerRZ 2 ea = (IZR (2 ^ 53) * (powerRZ 2 (ea - eb - 53) * powerRZ 2 eb))%R).
  { rewrite IZR_pow2, <- !pow2_add by lia. f_equal. lia. }
  assert (HqR : (IZR (Zpos mb) * IZR q <= IZR (Zpos ma) * IZR (2 ^ 53))%R).
  { rewrite <- !mult_IZR. now apply IZR_le. }
  pose proof (pow2_pos (ea - eb - 53)) as HPe.
  set (E := powerRZ 2 (ea - eb - 53)) in *. set (B := powerRZ 2 eb) in *.
  rewrite Hsplit.
  assert (Hulp : (0 < ulp_rel)%R) by (unfold ulp_rel; lra).
  eapply Rle_trans.
  { apply Rmult_le_compat_r; [|exact Hv].
    apply Rmult_le_pos; [apply IZR_le; lia | lra]. }
  replace (IZR q * E * (1 + ulp_rel) * (IZR (Zpos mb) * B))%R
    with ((IZR (Zpos mb) * IZR q) * (E * B * (1 + ulp_rel)))%R by ring.
  replace (IZR (Z.pos ma) * (IZR (2 ^ 53) * (E * B)) * (1 + ulp_rel))%R
    with ((IZR (Zpos ma) * IZR (2 ^ 53)) * (E * B * (1 + ulp_rel)))%R by ring.
  apply Rmult_le_compat_r; [|exact HqR].
  apply Rmult_le_pos; [apply Rmult_le_pos|]; lra.
Qed.

(** The product of two positive normal doubles exceeds the exact product
    by at most one part in [2^52]. *)
Lemma SFmul_value (m1 m2 : positive) (e1 e2 : Z) :
  canonical m1 -> canonical m2 -> -1000 <= e1 + e2 <= 900 ->
  exists m e,
    SFmul 53 1024 (S754_finite false m1 e1) (S754_finite false m2 e2)
    = S754_finite false m e
    /\ canonical m
    /\ (SF2R (S754_finite false m e)
        <= SF2R (S754_finite false m1 e1) * SF2R (S754_finite false m2 e2)
           * (1 + ulp_rel))%R.
Proof.
  intros H1 H2 He. unfold canonical in H1, H2.
  assert (Hp : 2 ^ 104 <= Zpos (m1 * m2) < 2 ^ 106).
  { rewrite Pos2Z.inj_mul. split.
    - change (2 ^ 104) with (2 ^ 52 * 2 ^ 52). apply Z.mul_le_mono_nonneg; lia.
    - change (2 ^ 106) with (2 ^ 53 * 2 ^ 53). apply Z.mul_lt_mono_nonneg; lia. }
  assert (Hd : 105 <= Zdigits2 (Zpos (m1 * m2)) <= 106).
  { pose proof (Zdigits2_bounds (Zpos (m1 * m2)) ltac:(lia)) as [Hl Hu].
    pose proof (Zdigits2_pos (Zpos (m1 * m2)) ltac:(lia)).
    split.
    - assert (104 < Zdigits2 (Zpos (m1 * m2)))
        by (apply (Z.pow_lt_mono_r_iff 2); lia). lia.
    - assert (Zdigits2 (Zpos (m1 * m2)) - 1 < 106)
        by (apply (Z.pow_lt_mono_r_iff 2); lia). lia. }
  destruct (binary_round_aux_value (Zpos (m1 * m2)) (e1 + e2) loc_Exact)
    as (m & e & Hr & Hcan & _ & Hv); try lia.
  exists m, e. split; [exact Hr|]. split; [exact Hcan|].
  eapply Rle_trans; [exact Hv|]. apply Req_le.
  unfold SF2R. rewrite Pos2Z.inj_mul, mult_IZR, pow2_add. ring.
Qed.

Lemma canonical_lt_exp (m1 m2 : positive) (e1 e2 : Z) :
  canonical m1 -> canonical m2 -> e1 < e2 ->
  (IZR (Zpos m1) * powerRZ 2 e1 < IZR (Zpos m2) * powerRZ 2 e2)%R.
Proof.
  intros H1 H2 He. unfold canonical in H1, H2.
  replace e2 with ((e2 - e1) + e1) by lia.
  rewrite pow2_add, <- (IZR_pow2 (e2 - e1)) by lia.
  pose proof (pow2_pos e1) as HP.
  rewrite <- Rmult_assoc, <- mult_IZR.
  apply Rmult_lt_compat_r; [exact HP|]. apply IZR_lt.
  assert (2 ^ 1 <= 2 ^ (e2 - e1)) by (apply Z.pow_le_mono_r; lia).
  change (2 ^ 1) with 2 in *. nia.
Qed.

(** On positive normal doubles, [<] is the order of the values. *)
Lemma SFltb_canonical (m1 m2 : positive) (e1 e2 : Z) :
  canonical m1 -> canonical m2 ->
  SFltb (S754_finite false m1 e1) (S754_finite false m2 e2) = true
  <-> (SF2R (S754_finite false m1 e1) < SF2R (S754_finite false m2 e2))%R.
Proof.
  intros H1 H2. unfold SFltb, SFcompare, SF2R. rewrite !Rmult_1_l.
  destruct (Z.compare_spec e1 e2) as [->|Hlt|Hgt].
  - pose proof (pow2_pos e2) as HP.
    change (Pos.compare_cont Eq m1 m2) with (Pos.compare m1 m2).
    destruct (Pos.compare_spec m1 m2) as [->|Hl|Hg].
    + split; [discriminate | intros H; exfalso; lra].
    + split; [intros _ | reflexivity].
      apply Rmult_lt_compat_r; [exact HP | apply IZR_lt; lia].
    + split; [discriminate | intros H; exfalso].
      assert (IZR (Zpos m2) * powerRZ 2 e2 < IZR (Zpos m1) * powerRZ 2 e2)%R
        by (apply Rmult_lt_compat_r; [exact HP | apply IZR_lt; lia]).
      lra.
  - split; [intros _ | reflexivity]. now apply canonical_lt_exp.
  - split; [discriminate | intros H; exfalso].
    pose proof (canonical_lt_exp m2 m1 e2 e1 H2 H1 Hgt). lra.
Qed.

(** [1 < x] for the [int] 1 and a positive double [x]. *)
Lemma lt_one_float (m : positive) (e : Z) :
  PyNum.lt (PyNum.Int 1) (PyNum.Float (S754_finite false m e)) = true
  <-> (1 < SF2R (S754_finite false m e))%R.
Proof.
  unfold PyNum.lt, PyNum.compare_int_float, SF2R, cond_Zopp.
  rewrite !Rmult_1_l, Z.mul_1_l.
  set (A := Z.max 0 (- e)). set (B := Z.max 0 e).
  assert (He : e = B + - A) by (subst A B; lia).
  assert (HA : 0 <= A) by (subst A; lia). assert (HB : 0 <= B) by (subst B; lia).
  pose proof (pow2_pos A) as HPA.
  assert (Hval : (IZR (Zpos m) * powerRZ 2 e * powerRZ 2 A = IZR (Zpos m * 2 ^ B))%R).
  { rewrite He at 1. rewrite pow2_add, powerRZ_neg', mult_IZR, IZR_pow2 by lia.
    field. apply Rgt_not_eq, pow2_pos. }
  destruct (Z.compare_spec (2 ^ A) (Zpos m * 2 ^ B)) as [Heq|Hlt|Hgt].
  - split; [discriminate | intros H; exfalso].
    apply (f_equal IZR) in Heq. rewrite IZR_pow2 in Heq by lia. nra.
  - split; [intros _ | reflexivity].
    apply IZR_lt in Hlt. rewrite IZR_pow2 in Hlt by lia. nra.
  - split; [discriminate | intros H; exfalso].
    apply IZR_lt in Hgt. rewrite IZR_pow2 in Hgt by lia. nra.
Qed.

(** [int(x)] of a positive double is the integer part of its value. *)
Lemma to_int_floor (m : positive) (e : Z) :
  exists z,
    PyNum.to_int (PyNum.Float (S754_finite false m e)) = Ok z
    /\ 0 <= z
    /\ (IZR z <= SF2R (S754_finite false m e))%R.
Proof.
  unfold PyNum.to_int, SF2R, cond_Zopp. rewrite Rmult_1_l.
  destruct e as [|p|p].
  - exists (Zpos m * 2 ^ 0). split; [reflexivity|]. split; [lia|].
    simpl. rewrite Z.mul_1_r. lra.
  - exists (Zpos m * 2 ^ Zpos p). split; [reflexivity|].
    pose proof (Z.pow_pos_nonneg 2 (Zpos p)). split; [lia|].
    rewrite mult_IZR, IZR_pow2 by lia. lra.
  - exists (Zpos m / 2 ^ Zpos p). split; [reflexivity|].
    pose proof (Z.pow_pos_nonneg 2 (Zpos p) ltac:(lia) ltac:(lia)) as Hp.
    split; [apply Z.div_pos; lia|].
    pose proof (Z.mul_div_le (Zpos m) (2 ^ Zpos p) Hp) as Hle.
    apply IZR_le in Hle. rewrite mult_IZR, IZR_pow2 in Hle by lia.
    change (Zneg p) with (- Zpos p). rewrite powerRZ_neg'.
    pose proof (pow2_pos (Zpos p)) as HP.
    apply Rmult_le_reg_r with (powerRZ 2 (Zpos p)); [exact HP|].
    rewrite Rmult_assoc, Rinv_l by lra. lra.
Qed.

(** [min(rw, rh, 1)] is one of its arguments and at most each of them. *)
Lemma min3_ratio (rw rh : spec_float) :
  normal_pos rw -> normal_pos rh ->
  let ratio := PyNum.min3 (PyNum.Float rw) (PyNum.Float rh) (PyNum.Int 1) in
  (ratio = PyNum.Int 1 \/ (exists f, ratio = PyNum.Float f /\ normal_pos f))
  /\ (num2R ratio <= SF2R rw)%R
  /\ (num2R ratio <= SF2R rh)%R
  /\ (num2R ratio <= 1)%R.
Proof.
  intros (mw & ew & -> & Hcw & Hew) (mh & eh & -> & Hch & Heh) ratio.
  subst ratio. unfold PyNum.min3.
  pose (fw := S754_finite false mw ew). pose (fh := S754_finite false mh eh).
  fold fw fh.
  assert (H1 : exists f, PyNum.min2 (PyNum.Float fw) (PyNum.Float fh) = PyNum.Float f
                         /\ normal_pos f
                         /\ (SF2R f <= SF2R fw)%R /\ (SF2R f <= SF2R fh)%R).
  { unfold PyNum.min2. cbn [PyNum.lt].
    destruct (SFltb fh fw) eqn:Hlt.
    - apply SFltb_canonical in Hlt; [|assumption..]. fold fw fh in Hlt.
      exists fh. split; [reflexivity|]. split; [|split; lra].
      exists mh, eh. auto.
    - assert (~ (SF2R fh < SF2R fw)%R).
      { intros H. apply SFltb_canonical in H; [|assumption..].
        fold fw fh in H. congruence. }
      exists fw. split; [reflexivity|]. split; [|split; lra].
      exists mw, ew. auto. }
  destruct H1 as (f & -> & Hf & Hfw & Hfh).
  destruct Hf as (m & e & -> & Hc & He).
  unfold PyNum.min2.
  destruct (PyNum.lt (PyNum.Int 1) (PyNum.Float (S754_finite false m e))) eqn:Hlt.
  - apply lt_one_float in Hlt. cbn [num2R].
    split; [now left|]. repeat split; lra.
  - assert (~ (1 < SF2R (S754_finite false m e))%R).
    { intros H. apply lt_one_float in H. congruence. }
    cbn [num2R]. split; [|repeat split; lra].
    right. eexists. split; [reflexivity|]. exists m, e. auto.
Qed.

(** [int(x * ratio)] is at most [x * ratio] rounded up by one part in
    [2^52]. *)
Lemma scale_dimension (x : Z) (ratio : PyNum.num) :
  0 < x < 2 ^ 53 ->
  ratio = PyNum.Int 1 \/ (exists f, ratio = PyNum.Float f /\ normal_pos f) ->
  exists z,
    res_bind (PyNum.mul (PyNum.Int x) ratio) PyNum.to_int = Ok z
    /\ 0 <= z
    /\ (IZR z <= IZR x * num2R ratio * (1 + ulp_rel))%R.
Proof.
  intros Hx [->|(f & -> & m & e & -> & Hc & He)].
  - exists (x * 1). split; [reflexivity|]. split; [lia|].
    cbn [num2R]. rewrite Z.mul_1_r.
    assert (0 < IZR x)%R by (apply IZR_lt; lia).
    unfold ulp_rel. nra.
  - destruct (float_of_int_exact x Hx) as (mx & ex & Hfx & Hcx & Hex & _ & Hvx).
    destruct (SFmul_value mx m ex e Hcx Hc ltac:(lia)) as (mp & ep & Hp & Hcp & Hvp).
    destruct (to_int_floor mp ep) as (z & Hz & Hz0 & Hzv).
    exists z. split.
    + cbn [PyNum.mul]. rewrite Hfx. cbn [res_bind].
      change PyNum.prec with 53. change PyNum.emax with 1024.
      rewrite Hp. exact Hz.
    + split; [exact Hz0|]. cbn [num2R]. rewrite <- Hvx.
      eapply Rle_trans; [exact Hzv | exact Hvp].
Qed.

(** The size that fits: for positive sizes below [2^51], [fit_size]
    returns, and neither dimension exceeds the bound or the original. *)
Lemma fit_size_fits (max_w max_h w h : Z) :
  0 < max_w < 2 ^ 51 -> 0 < max_h < 2 ^ 51 ->
  0 < w < 2 ^ 51 -> 0 < h < 2 ^ 51 ->
  exists rw rh new_w new_h,
    PyNum.truediv max_w w = Ok rw
    /\ PyNum.truediv max_h h = Ok rh
    /\ (let ratio := PyNum.min3 (PyNum.Float rw) (PyNum.Float rh) (PyNum.Int 1) in
        res_bind (PyNum.mul (PyNum.Int w) ratio) PyNum.to_int = Ok new_w
        /\ res_bind (PyNum.mul (PyNum.Int h) ratio) PyNum.to_int = Ok new_h)
    /\ fit_size max_w max_h w h = Ok (new_w, new_h)
    /\ 0 <= new_w <= max_w /\ new_w <= w
    /\ 0 <= new_h <= max_h /\ new_h <= h.
Proof.
  intros Hmw Hmh Hw Hh.
  destruct (truediv_value max_w w) as (m1 & e1 & Hrw & Hc1 & He1 & Hv1); try lia.
  destruct (truediv_value max_h h) as (m2 & e2 & Hrh & Hc2 & He2 & Hv2); try lia.
  set (rw := S754_finite false m1 e1) in *. set (rh := S754_finite false m2 e2) in *.
  destruct (min3_ratio rw rh) as (Hform & Hle1 & Hle2 & Hle3);
    [exists m1, e1; auto | exists m2, e2; auto |].
  set (ratio := PyNum.min3 (PyNum.Float rw) (PyNum.Float rh) (PyNum.Int 1)) in *.
  destruct (scale_dimension w ratio ltac:(lia) Hform) as (nw & Hnw & Hnw0 & Hnwv).
  destruct (scale_dimension h ratio ltac:(lia) Hform) as (nh & Hnh & Hnh0 & Hnhv).
  exists rw, rh, nw, nh.
  split; [exact Hrw|]. split; [exact Hrh|]. split; [split; assumption|].
  split.
  { unfold fit_size. rewrite Hrw, Hrh. cbn [res_bind]. fold ratio.
    unfold res_bind in Hnw, Hnh |- *.
    destruct (PyNum.mul (PyNum.Int w) ratio) as [pw|]; [|discriminate].
    rewrite Hnw.
    destruct (PyNum.mul (PyNum.Int h) ratio) as [ph|]; [|discriminate].
    rewrite Hnh. reflexivity. }
  assert (Bound : forall x mx, 0 < x < 2 ^ 51 -> 0 < mx < 2 ^ 51 ->
            forall (r : R) (z : Z),
              (r * IZR x <= IZR mx * (1 + ulp_rel))%R ->
              (num2R ratio <= r)%R ->
              (IZR z <= IZR x * num2R ratio * (1 + ulp_rel))%R ->
              z <= mx /\ z <= x).
  { intros x mx Hx Hmx r z Hr Hrr Hz.
    assert (Hx0 : (0 < IZR x < 2251799813685248)%R).
    { split; [apply IZR_lt; lia|]. apply IZR_lt. change 2251799813685248 with (2 ^ 51). lia. }
    assert (Hm0 : (0 < IZR mx < 2251799813685248)%R).
    { split; [apply IZR_lt; lia|]. apply IZR_lt. change 2251799813685248 with (2 ^ 51). lia. }
    assert (Hxr : (IZR x * num2R ratio <= IZR mx * (1 + ulp_rel))%R).
    { eapply Rle_trans; [|exact Hr]. rewrite (Rmult_comm r).
      apply Rmult_le_compat_l; lra. }
    assert (Hx1 : (IZR x * num2R ratio <= IZR x)%R).
    { rewrite <- (Rmult_1_r (IZR x)) at 2. apply Rmult_le_compat_l; lra. }
    unfold ulp_rel in *.
    split.
    - assert (IZR z < IZR (mx + 1))%R; [|apply lt_IZR in H; lia].
      rewrite plus_IZR. nra.
    - assert (IZR z < IZR (x + 1))%R; [|apply lt_IZR in H; lia].
      rewrite plus_IZR. nra. }
  destruct (Bound w max_w Hw Hmw _ nw Hv1 Hle1 Hnwv).
  destruct (Bound h max_h Hh Hmh _ nh Hv2 Hle2 Hnhv).
  lia.
Qed.

(** ** The fit-to-pane size *)

(** C1: for an image with positive dimensions [(w, h)] and pane bounds
    [(max_w, max_h)], all below [2^51] as every C [int] of the toolkit
    and of the image library is, [get_display_size] returns
    [(int(w * r), int(h * r))] with [r = min(max_w / w, max_h / h, 1)],
    and each returned dimension is at most the pane bound and at most the
    original dimension. *)
Theorem get_display_size_fits (v : viewer) (pil_img : pil_image) :
  let max_w := or_400 (frame_width v) in
  let max_h := or_400 (frame_height v) in
  let w := fst (img_size pil_img) in
  let h := snd (img_size pil_img) in
  0 <= frame_width v < 2 ^ 51 -> 0 <= frame_height v < 2 ^ 51 ->
  0 < w < 2 ^ 51 -> 0 < h < 2 ^ 51 ->
  exists rw rh new_w new_h,
    get_display_size v pil_img = Ok (new_w, new_h)
    /\ PyNum.truediv max_w w = Ok rw
    /\ PyNum.truediv max_h h = Ok rh
    /\ (let ratio := PyNum.min3 (PyNum.Float rw) (PyNum.Float rh) (PyNum.Int 1) in
        res_bind (PyNum.mul (PyNum.Int w) ratio) PyNum.to_int = Ok new_w
        /\ res_bind (PyNum.mul (PyNum.Int h) ratio) PyNum.to_int = Ok new_h)
    /\ 0 <= new_w <= max_w /\ new_w <= w
    /\ 0 <= new_h <= max_h /\ new_h <= h.
Proof.
  intros max_w max_h w h Hfw Hfh Hw Hh.
  assert (Hmw : 0 < max_w < 2 ^ 51).
  { subst max_w. unfold or_400. destruct (Z.eqb_spec (frame_width v) 0); lia. }
  assert (Hmh : 0 < max_h < 2 ^ 51).
  { subst max_h. unfold or_400. destruct (Z.eqb_spec (frame_height v) 0); lia. }
  destruct (fit_size_fits max_w max_h w h Hmw Hmh Hw Hh)
    as (rw & rh & nw & nh & Hrw & Hrh & Hratio & Hfit & Hb).
  exists rw, rh, nw, nh. split; [|auto].
  unfold get_display_size. fold max_w max_h.
  destruct (img_size pil_img) as [w0 h0]. exact Hfit.
Qed.

Lemma get_display_size_fits_witness :
  exists rw rh new_w new_h,
    get_display_size Demo.v0 Demo.photo_1500x900 = Ok (new_w, new_h)
    /\ PyNum.truediv 500 1500 = Ok rw
    /\ PyNum.truediv 600 900 = Ok rh
    /\ (let ratio := PyNum.min3 (PyNum.Float rw) (PyNum.Float rh) (PyNum.Int 1) in
        res_bind (PyNum.mul (PyNum.Int 1500) ratio) PyNum.to_int = Ok new_w
        /\ res_bind (PyNum.mul (PyNum.Int 900) ratio) PyNum.to_int = Ok new_h)
    /\ 0 <= new_w <= 500 /\ new_w <= 1500
    /\ 0 <= new_h <= 600 /\ new_h <= 900.
Proof.
  apply (get_display_size_fits Demo.v0 Demo.photo_1500x900); simpl; lia.
Defined.

(** C10: [get_display_size] can return a dimension of 0, as for a picture
    1000 wide and 1 high in a 400x400 pane; [max(1, n)] is never below 1
    and leaves a positive [n] alone; and every resize that [on_select]
    asks for, in any world and any state, has both dimensions at least 1. *)
Theorem resize_gets_at_least_one :
  get_display_size (init_viewer 400 400) Demo.ribbon = Ok (400, 0)
  /\ (forall n, 1 <= PyNum.max1 n /\ (1 <= n -> PyNum.max1 n = n))
  /\ (forall (W : world) (v : viewer),
       exists evs,
         trace (snd (on_select W v)) = (trace v ++ evs)%list
         /\ Forall (fun ev =>
                      match ev with
                      | ImageResize w h => 1 <= w /\ 1 <= h
                      | _ => True
                      end) evs).
Proof.
  split; [vm_compute; reflexivity|]. split.
  - intros n. split; [apply max1_ge|].
    unfold PyNum.max1. destruct (Z.gtb_spec n 1); lia.
  - intros W v. destruct (on_select_resizes W v) as [evs [Ht Hq]].
    exists evs. split; [exact Ht|].
    eapply Forall_impl; [exact Hq | intros ev H; apply H].
Qed.

(** ** The claims at work in the small world *)

Lemma demo_only_bad : only_bad Demo.W (find_archives Demo.W "/data").
Proof.
  intros path n e Hin H. vm_compute in Hin.
  destruct Hin as [<-|[<-|[<-|[]]]]; vm_compute in H; discriminate H.
Defined.

Lemma entries_are_image_members_witness :
  (let v' := snd (open_ucp Demo.W (Some "/data/a.ucp") Demo.v0) in
   map entry_name (entries v') = ["logo.PNG"; "pics/wide.jpg"]
   /\ Forall (fun e =>
        entry_zip e = Demo.zip_a
        /\ entry_display e = ("a.ucp" ++ "::" ++ entry_name e)%string)
        (entries v'))
  /\ (let v' := snd (open_ucp_folder Demo.W "/data" Demo.v0) in
      entries v'
      = flat_map rows_of [("/data/a.ucp", Demo.zip_a); ("/data/sub/c.UCP", Demo.zip_c)]).
Proof.
  destruct (entries_are_image_members Demo.W Demo.v0) as (Hfile & Hfolder & _).
  split.
  - apply (Hfile "/data/a.ucp" Demo.zip_a); [discriminate | reflexivity].
  - apply (Hfolder "/data");
      [discriminate | reflexivity | vm_compute; discriminate | exact demo_only_bad].
Defined.

Lemma click_again_uses_cache_witness :
  let v3 := after_clicks Demo.W [0%nat; 5%nat] Demo.v2 in
  exists p,
    image_cache Demo.v2 !! (100, "pics/wide.jpg") = Some p
    /\ label_image Demo.v2 = Some p
    /\ image_cache v3 !! (100, "pics/wide.jpg") = Some p
    /\ click Demo.W 1 v3
       = (Ok tt, set_label_image p (set_listbox (listbox_items v3) [1%nat] v3))
    /\ trace (snd (click Demo.W 1 v3)) = trace v3
    /\ label_image (snd (click Demo.W 1 v3)) = Some p
    /\ click Demo.W 1 Demo.v2 = (Ok tt, Demo.v2).
Proof.
  apply (click_again_uses_cache Demo.W 1
           {| entry_zip := Demo.zip_a; entry_name := "pics/wide.jpg";
              entry_display := "a.ucp::pics/wide.jpg" |}
           [0%nat; 5%nat] Demo.v1 Demo.v2);
    vm_compute; reflexivity.
Defined.

Lemma open_ucp_folder_nothing_found_witness :
  exists v',
    open_ucp_folder Demo.W "/plain" Demo.v2 = (Ok tt, v')
    /\ entries v' = entries Demo.v2
    /\ listbox_items v' = listbox_items Demo.v2
    /\ listbox_sel v' = listbox_sel Demo.v2
    /\ label_image v' = label_image Demo.v2
    /\ image_cache v' = image_cache Demo.v2.
Proof.
  apply (open_ucp_folder_nothing_found Demo.W "/plain" Demo.v2);
    [discriminate | reflexivity | reflexivity].
Defined.

Lemma open_ucp_folder_skips_bad_witness :
  load_archive Demo.W "/data/junk.ucp" Demo.v2 = (Ok tt, Demo.v2)
  /\ (let v' := snd (open_ucp_folder Demo.W "/data" Demo.v0) in
      entries v'
      = flat_map rows_of [("/data/a.ucp", Demo.zip_a); ("/data/sub/c.UCP", Demo.zip_c)]
      /\ exists evs, trace v' = (trace Demo.v0 ++ evs)%list
                     /\ Forall (fun ev => is_dialog ev = false) evs).
Proof.
  split.
  - apply (proj1 (open_ucp_folder_skips_bad Demo.W Demo.v2)). reflexivity.
  - apply (proj2 (open_ucp_folder_skips_bad Demo.W Demo.v0) "/data");
      [discriminate | reflexivity | vm_compute; discriminate | exact demo_only_bad].
Defined.

Lemma open_then_listing_shown_witness :
  listing_shown (open_ucp Demo.W (Some "/data/a.ucp") Demo.v2)
  /\ listing_shown (open_ucp_folder Demo.W "/data" Demo.v2)
  /\ unchanged_listing Demo.v2 (snd (open_ucp Demo.W (Some "/data/junk.ucp") Demo.v2))
  /\ unchanged_listing Demo.v2 (snd (open_ucp_folder Demo.W "/plain" Demo.v2)).
Proof.
  destruct (open_then_listing_shown Demo.W Demo.v2)
    as (Hfile & Hfolder & Hbad & Hnone).
  split; [|split; [|split]].
  - apply (Hfile "/data/a.ucp" Demo.zip_a); [discriminate | reflexivity].
  - apply (Hfolder "/data");
      [discriminate | reflexivity | vm_compute; discriminate | exact demo_only_bad].
  - apply (Hbad "/data/junk.ucp"); [discriminate | reflexivity].
  - apply (Hnone "/plain"); [discriminate | reflexivity | reflexivity].
Defined.

(** C7 as worded fails twice.  After the second row of [a.ucp] was picked,
    opening a file that is no archive ends with the error dialog: the entry
    list is not empty and the selection is still the second row.  And
    opening an archive whose first image does not decode leaves the first
    row selected with nothing on the label. *)
Lemma listing_claimed_counterexample :
  ~ listing_claimed (snd (open_ucp Demo.W (Some "/data/junk.ucp") Demo.v2))
  /\ ~ listing_claimed (snd (open_ucp Demo.W (Some "/data/torn.ucp") Demo.v0)).
Proof.
  split; intros [_ H].
  - destruct H as [Hsel _]; [vm_compute; discriminate|].
    vm_compute in Hsel. discriminate Hsel.
  - destruct H as [_ (e & p & _ & _ & Hl)]; [vm_compute; discriminate|].
    vm_compute in Hl. discriminate Hl.
Qed.

(** * More of the viewer *)

(** ** The cache only grows *)

Lemma cache_kept_refl v : cache_kept v v.
Proof. intros k p H. exact H. Qed.

Lemma cache_kept_trans a b c : cache_kept a b -> cache_kept b c -> cache_kept a c.
Proof. intros H1 H2 k p H. apply H2, H1, H. Qed.

Lemma cache_kept_same v v' : image_cache v' = image_cache v -> cache_kept v v'.
Proof. intros E k p H. now rewrite E. Qed.

Ltac kept_steps :=
  repeat lazymatch goal with
  | |- steps _ (on_select _) => fail
  | |- steps _ (populate_listbox _) => fail
  | |- steps _ (append_images _ _) => fail
  | |- steps _ (load_archive _ _) => fail
  | _ =>
    first
    [ apply (steps_ret cache_kept cache_kept_refl)
    | apply (steps_raise cache_kept cache_kept_refl)
    | apply (steps_lift cache_kept cache_kept_refl)
    | apply (steps_get cache_kept cache_kept_refl)
    | apply (steps_modify cache_kept); intros; apply cache_kept_same;
      first [ reflexivity
            | unfold listbox_selection_set; destruct (_ <? _)%nat; reflexivity ]
    | apply (steps_for_each cache_kept cache_kept_refl cache_kept_trans); intros
    | apply (steps_bind cache_kept cache_kept_trans); [|intros] ]
  end.

Section CacheFacts.

Variable W : world.

Lemma on_select_kept : steps cache_kept (on_select W).
Proof. intros v k p H. now apply on_select_cache_grows. Qed.

Lemma populate_listbox_kept : steps cache_kept (populate_listbox W).
Proof.
  unfold populate_listbox. kept_steps.
  destruct (entries _); kept_steps. apply on_select_kept.
Qed.

Lemma append_images_kept base z : steps cache_kept (append_images base z).
Proof.
  unfold append_images. kept_steps. destruct (is_image_name _); kept_steps.
Qed.

Lemma open_ucp_kept file_path : steps cache_kept (open_ucp W file_path).
Proof.
  unfold open_ucp. destruct (str_not _); kept_steps.
  destruct (ZipFile W _ _); kept_steps.
  - apply append_images_kept.
  - apply populate_listbox_kept.
Qed.

Lemma load_archive_kept path : steps cache_kept (load_archive W path).
Proof.
  unfold load_archive. kept_steps.
  destruct (ZipFile W _ _); kept_steps. apply append_images_kept.
Qed.

Lemma open_ucp_folder_kept folder : steps cache_kept (open_ucp_folder W folder).
Proof.
  unfold open_ucp_folder. destruct (_ || _); kept_steps.
  destruct (find_archives W folder); kept_steps.
  - apply load_archive_kept.
  - apply populate_listbox_kept.
Qed.

Lemma click_kept i : steps cache_kept (click W i).
Proof. unfold click. kept_steps. apply on_select_kept. Qed.

(** X1: no action ever removes or replaces a cached photo: whatever the
    user does, and whether the method returns or raises, every key of the
    cache keeps its photo. *)
Theorem cache_never_shrinks (a : action) (v : viewer) :
  cache_kept v (snd (act W a v)).
Proof.
  destruct a as [p|f|i|idx|w h]; simpl.
  - apply open_ucp_kept.
  - apply open_ucp_folder_kept.
  - apply click_kept.
  - apply cache_kept_same. unfold context_select, listbox_selection_set_index,
      listbox_selection_set, listbox_selection_clear.
    destruct (idx <? 0); [reflexivity|]. simpl.
    destruct (_ <? _)%nat; reflexivity.
  - now apply cache_kept_same.
Qed.

End CacheFacts.

(** ** The listing in every reachable state *)

Section ListingFacts.

Variable W : world.

(** [open_ucp], branch by branch. *)
Lemma open_ucp_cases (file_path : option string) (v : viewer) :
  let path :=
    match file_path with
    | Some p => if str_not p then askopenfilename W else p
    | None => askopenfilename W
    end in
  open_ucp W file_path v
  = if str_not path then (Ok tt, v)
    else match ZipFile W (constructed v) path with
         | ZipBad =>
             (Ok tt, log (ShowError "Invalid File"
                            "Selected file is not a valid UCP archive.") v)
         | ZipFailed e => (Raise e, v)
         | ZipOpened z =>
             populate_listbox W
               (set_entries (archive_rows (OsPath.basename path) z)
                  (set_constructed (S (constructed v)) v))
         end.
Proof.
  intros path. unfold open_ucp. fold path.
  destruct (str_not path); [reflexivity|].
  unfold bind at 1, get at 1.
  destruct (ZipFile W (constructed v) path) as [z| |e]; try reflexivity.
  unfold bind at 1, modify at 1, bind at 1, modify at 1, bind at 1.
  rewrite append_images_run. reflexivity.
Qed.

Lemma populate_listbox_ok (v : viewer) : listing_ok (snd (populate_listbox W v)).
Proof.
  rewrite populate_listbox_run. destruct (entries v) as [|e es] eqn:E.
  - split; simpl; [now rewrite E | constructor].
  - set (v0 := set_listbox (map entry_display (e :: es)) [0%nat] v).
    destruct (on_select_frame W v0) as (He & Hi & Hs & _).
    split; rewrite ?He, ?Hi, ?Hs; subst v0; simpl; rewrite E.
    + reflexivity.
    + constructor; [simpl; lia | constructor].
Qed.

Lemma listing_ok_same (v v' : viewer) :
  entries v' = entries v -> listbox_items v' = listbox_items v ->
  listbox_sel v' = listbox_sel v -> listing_ok v -> listing_ok v'.
Proof. intros He Hi Hs [H1 H2]. split; rewrite ?He, ?Hi, ?Hs; assumption. Qed.

Lemma act_listing_ok (a : action) (v : viewer) :
  listing_ok v -> allowed W a v -> listing_ok (snd (act W a v)).
Proof.
  intros Hok Hal. destruct a as [fp|folder|i|idx|w h]; simpl in *.
  - rewrite open_ucp_cases. cbv zeta.
    destruct (str_not _); [exact Hok|].
    destruct (ZipFile W _ _) as [z| |e].
    + apply populate_listbox_ok.
    + simpl. now apply (listing_ok_same v).
    + exact Hok.
  - destruct (String.eqb_spec folder EmptyString) as [->|Hf].
    { unfold open_ucp_folder, str_not. simpl. exact Hok. }
    destruct (isdir W folder) eqn:Hd.
    2:{ unfold open_ucp_folder. rewrite Hd, orb_true_r. exact Hok. }
    destruct (find_archives W folder) as [|p ps] eqn:Ha.
    + rewrite (open_ucp_folder_none W folder v Hf Hd Ha). simpl.
      now apply (listing_ok_same v).
    + rewrite (open_ucp_folder_run W folder v Hf Hd); rewrite ?Ha;
        [apply populate_listbox_ok | discriminate | exact Hal].
  - unfold click, bind, modify.
    set (v0 := set_listbox (listbox_items v) [i] v).
    destruct (on_select_frame W v0) as (He & Hi & Hs & _).
    destruct Hok as [H1 H2].
    split; rewrite ?He, ?Hi, ?Hs; subst v0; simpl; [exact H1|].
    constructor; [|constructor].
    rewrite H1, length_map in Hal. exact Hal.
  - destruct Hok as [H1 H2]. unfold context_select, listbox_selection_set_index.
    destruct (idx <? 0); [split; [exact H1 | constructor]|].
    unfold listbox_selection_set, listbox_selection_clear. simpl.
    destruct (Nat.ltb_spec (Z.to_nat idx) (length (listbox_items v))) as [Hlt|Hge];
      simpl; (split; [exact H1|]); [|constructor].
    constructor; [|constructor]. rewrite H1, length_map in Hlt. exact Hlt.
  - exact Hok.
Qed.

(** X2: in every state the viewer can reach, the rows of the list box are
    the display names of the entry list, row for row, and every selected
    index has an entry, so that [self.entries[idx[0]]] finds the entry of
    the selected row. *)
Theorem reachable_listing_ok (v : viewer) :
  reachable W v ->
  listbox_items v = map entry_display (entries v)
  /\ (forall i, In i (listbox_sel v) ->
      exists e, entries v !! i = Some e
                /\ listbox_items v !! i = Some (entry_display e)).
Proof.
  intros Hr.
  assert (Hok : listing_ok v).
  { induction Hr as [w h|a v Hr IH Hal].
    - split; [reflexivity | constructor].
    - now apply act_listing_ok. }
  destruct Hok as [H1 H2]. split; [exact H1|].
  intros i Hi. rewrite List.Forall_forall in H2. specialize (H2 i Hi).
  destruct (lookup_lt_is_Some_2 (entries v) i H2) as [e He].
  exists e. split; [exact He|]. rewrite H1, list_lookup_fmap, He. reflexivity.
Qed.

(** X3: when the scan meets an archive whose constructor raises something
    else than [BadZipFile], [open_ucp_folder] raises it: no dialog is
    shown, the entry list holds the rows of the archives opened before
    the failing one, and the list box, its selection and the label are
    the old ones. *)
Theorem open_ucp_folder_failure
    (folder : string) (before after : list string) (path : string)
    (e : exn) (v : viewer) :
  folder <> EmptyString ->
  isdir W folder = true ->
  find_archives W folder = (before ++ path :: after)%list ->
  only_bad W before ->
  ZipFile W (constructed v + length (opened W (constructed v) before)) path
    = ZipFailed e ->
  let out := open_ucp_folder W folder v in
  fst out = Raise e
  /\ entries (snd out) = flat_map rows_of (opened W (constructed v) before)
  /\ listbox_items (snd out) = listbox_items v
  /\ listbox_sel (snd out) = listbox_sel v
  /\ label_image (snd out) = label_image v
  /\ trace (snd out) = trace v.
Proof.
  intros Hf Hd Ha Hok Hz out. subst out.
  assert (Heq : open_ucp_folder W folder v
    = (Raise e,
       set_entries (flat_map rows_of (opened W (constructed v) before))
         (set_constructed
            (constructed v + length (opened W (constructed v) before)) v))).
  { unfold open_ucp_folder, str_not.
    apply String.eqb_neq in Hf. rewrite Hf, Hd, Ha. cbn [orb negb].
    assert (Hm : forall (A : Type) (l : list string) (x y : A),
               l <> [] -> match l with [] => x | _ :: _ => y end = y).
    { intros A [|q qs] x y H; congruence. }
    rewrite Hm by (destruct before; discriminate).
    unfold bind at 1, modify at 1, bind at 1.
    rewrite for_each_app. unfold bind at 1.
    rewrite load_archives_run by assumption.
    cbn [for_each]. unfold bind at 1, load_archive at 1, bind at 1, get at 1.
    cbn [constructed set_entries set_constructed]. rewrite Hz.
    reflexivity. }
  rewrite Heq. simpl. repeat split.
Qed.

(** X4: an archive without image members empties the listing: the entry
    list and the list box are cleared, nothing is selected, no dialog is
    shown, and the image on the label stays. *)
Theorem open_ucp_no_images (path : string) (z : zip_obj) (v : viewer) :
  path <> EmptyString ->
  ZipFile W (constructed v) path = ZipOpened z ->
  List.filter is_image_name (zip_namelist z) = [] ->
  let out := open_ucp W (Some path) v in
  fst out = Ok tt
  /\ entries (snd out) = []
  /\ listbox_items (snd out) = []
  /\ listbox_sel (snd out) = []
  /\ label_image (snd out) = label_image v
  /\ trace (snd out) = trace v.
Proof.
  intros Hp Hz Hn out. subst out.
  rewrite (open_ucp_opened W path z v Hp Hz), populate_listbox_run.
  unfold archive_rows. rewrite Hn. simpl. repeat split.
Qed.

Lemma opened_all_bad (archives : list string) (n : nat) :
  (forall p k, In p archives -> ZipFile W k p = ZipBad) ->
  opened W n archives = [].
Proof.
  induction archives as [|p ps IH]; intros Hbad; [reflexivity|].
  simpl. rewrite (Hbad p n) by now left.
  apply IH. intros q k Hq. apply Hbad. now right.
Qed.

(** X5: when every archive found below the folder raises [BadZipFile],
    [open_ucp_folder] returns without any dialog, with the entry list and
    the list box emptied; the image on the label stays. *)
Theorem open_ucp_folder_all_bad (folder : string) (v : viewer) :
  folder <> EmptyString ->
  isdir W folder = true ->
  find_archives W folder <> [] ->
  (forall p k, In p (find_archives W folder) -> ZipFile W k p = ZipBad) ->
  let out := open_ucp_folder W folder v in
  fst out = Ok tt
  /\ entries (snd out) = []
  /\ listbox_items (snd out) = []
  /\ listbox_sel (snd out) = []
  /\ label_image (snd out) = label_image v
  /\ trace (snd out) = trace v.
Proof.
  intros Hf Hd Hne Hbad out. subst out.
  assert (Hok : only_bad W (find_archives W folder)).
  { intros p n e Hin H. rewrite (Hbad p n Hin) in H. discriminate. }
  rewrite (open_ucp_folder_run W folder v Hf Hd Hne Hok), populate_listbox_run.
  rewrite (opened_all_bad _ _ Hbad). simpl. repeat split.
Qed.

End ListingFacts.

(** ** Loading a photo *)

Section LoadFacts.

Variable W : world.

Lemma get_display_size_pane (s v : viewer) (pil_img : pil_image) :
  frame_width s = frame_width v -> frame_height s = frame_height v ->
  get_display_size s pil_img = get_display_size v pil_img.
Proof. intros Hw Hh. unfold get_display_size. now rewrite Hw, Hh. Qed.

Lemma Image_resize_clamped (pil_img : pil_image) (nw nh : Z) :
  Image_resize W pil_img (PyNum.max1 nw) (PyNum.max1 nh)
  = res_bind (Image_load W (img_data pil_img)) (fun _ =>
      Ok {| img_size := (PyNum.max1 nw, PyNum.max1 nh);
            img_data := img_data pil_img |}).
Proof.
  unfold Image_resize.
  pose proof (max1_ge nw). pose proof (max1_ge nh).
  destruct (Z.ltb_spec (PyNum.max1 nw) 1); [lia|].
  destruct (Z.ltb_spec (PyNum.max1 nh) 1); [lia|]. reflexivity.
Qed.

(** A load that returns: what was read and what was built. *)
Lemma load_photo_ok (z : zip_obj) (name : string) (v v' : viewer) (p : photo) :
  load_photo W z name v = (Ok p, v') ->
  exists data size nw nh,
    zip_read z name = Ok data
    /\ Image_open W data = Ok size
    /\ get_display_size v {| img_size := size; img_data := data |} = Ok (nw, nh)
    /\ photo_img p = {| img_size := (PyNum.max1 nw, PyNum.max1 nh);
                        img_data := data |}.
Proof.
  unfold load_photo, bind, modify, lift, get, PhotoImage, ret.
  destruct (zip_read z name) as [data|] eqn:Hr; [|discriminate].
  destruct (Image_open W data) as [size|] eqn:Ho; [|discriminate].
  rewrite (get_display_size_pane _ v) by reflexivity.
  destruct (get_display_size v _) as [[nw nh]|] eqn:Hg; [|discriminate].
  cbn [fst snd]. rewrite Image_resize_clamped. cbn [img_data].
  destruct (Image_load W data) as [[]|]; [|discriminate]. cbn [res_bind].
  intros H. inversion H; subst; clear H.
  exists data, size, nw, nh. auto.
Qed.

(** A load that raises: nothing is cached or displayed, and a retry under
    the same pane raises the same. *)
Lemma load_photo_raise (z : zip_obj) (name : string) (v v' : viewer) (e : exn) :
  load_photo W z name v = (Raise e, v') ->
  image_cache v' = image_cache v
  /\ label_image v' = label_image v
  /\ constructed v' = constructed v
  /\ forall s, frame_width s = frame_width v -> frame_height s = frame_height v ->
       fst (load_photo W z name s) = Raise e.
Proof.
  unfold load_photo, bind, modify, lift, get, PhotoImage, ret.
  destruct (zip_read z name) as [data|e1].
  2:{ intros H; inversion H; subst. repeat split. }
  destruct (Image_open W data) as [size|e2].
  2:{ intros H; inversion H; subst. repeat split. }
  rewrite (get_display_size_pane _ v) by reflexivity.
  destruct (get_display_size v _) as [[nw nh]|e3] eqn:Hg.
  2:{ intros H; inversion H; subst. repeat split.
      intros s Hw Hh. rewrite (get_display_size_pane _ v) by assumption.
      now rewrite Hg. }
  cbn [fst snd]. rewrite Image_resize_clamped. cbn [img_data].
  destruct (Image_load W data) as [[]|e4] eqn:Hl; cbn [res_bind];
    [discriminate|].
  intros H; inversion H; subst. repeat split.
  intros s Hw Hh. rewrite (get_display_size_pane _ v) by assumption.
  rewrite Hg. cbn [fst snd]. rewrite Image_resize_clamped. cbn [img_data].
  now rewrite Hl.
Qed.

(** X6: when [on_select] raises, nothing was added to the cache and the
    label keeps its image; selecting again under the same pane raises the
    same exception: a failure is never cached. *)
Theorem on_select_failure (v v' : viewer) (e : exn) :
  on_select W v = (Raise e, v') ->
  image_cache v' = image_cache v
  /\ label_image v' = label_image v
  /\ fst (on_select W v') = Raise e.
Proof.
  intros H. pose proof (on_select_frame W v) as F. rewrite H in F.
  destruct F as (He & _ & Hs & Hw & Hh & _). simpl in He, Hs, Hw, Hh.
  revert H. unfold on_select, bind, get. rewrite He, Hs.
  destruct (entries v) as [|e0 es]; [discriminate|].
  destruct (listbox_sel v) as [|i sel]; [discriminate|].
  destruct ((e0 :: es) !! i) as [en|].
  2:{ intros H; inversion H; subst. repeat split. }
  destruct (image_cache v !! _) as [p|] eqn:Hc; [discriminate|].
  destruct (load_photo W (entry_zip en) (entry_name en) v) as [[p|e1] v1] eqn:Hl;
    [discriminate|].
  intros H; inversion H; subst; clear H.
  destruct (load_photo_raise _ _ _ _ _ Hl) as (Hcache & Hlabel & _ & Hretry).
  split; [exact Hcache|]. split; [exact Hlabel|].
  rewrite Hcache, Hc.
  specialize (Hretry v' Hw Hh).
  destruct (load_photo W (entry_zip en) (entry_name en) v') as [[q|e2] v2];
    simpl in Hretry |- *; congruence.
Qed.

(** The first pick of an entry: its member is read and decoded, and the
    photo built for it has the size fitted to the pane of that moment,
    each dimension raised to 1 at least. *)
Lemma click_first_load (i : nat) (e : entry) (v v1 : viewer) :
  click W i v = (Ok tt, v1) ->
  entries v !! i = Some e ->
  image_cache v !! cache_key e = None ->
  exists p data size nw nh,
    zip_read (entry_zip e) (entry_name e) = Ok data
    /\ Image_open W data = Ok size
    /\ get_display_size v {| img_size := size; img_data := data |} = Ok (nw, nh)
    /\ photo_img p = {| img_size := (PyNum.max1 nw, PyNum.max1 nh);
                        img_data := data |}
    /\ label_image v1 = Some p
    /\ image_cache v1 !! cache_key e = Some p.
Proof.
  unfold click, bind at 1, modify at 1. intros H He Hc.
  set (v0 := set_listbox (listbox_items v) [i] v) in H.
  destruct (on_select_shows W v0 v1 e H) as [p [Hp Hl]].
  { unfold selected_entry; simpl. exact He. }
  revert H. unfold on_select, bind, get. subst v0. simpl.
  destruct (entries v) as [|e0 es]; [discriminate|].
  rewrite He. unfold cache_key in Hc. rewrite Hc.
  destruct (load_photo W _ _ _) as [[q|err] v2] eqn:Hload; [|discriminate].
  intros H. unfold modify in H. inversion H; subst; clear H.
  simpl in Hl. inversion Hl; subst q.
  destruct (load_photo_ok _ _ _ _ _ Hload) as (data & size & nw & nh & Hr & Ho & Hg & Hi).
  exists p, data, size, nw, nh.
  rewrite (get_display_size_pane _ v) in Hg by reflexivity.
  repeat split; assumption.
Qed.

(** X7: the cache key has no pane size in it.  Once an entry was loaded,
    its photo has the size fitted to the pane of that moment; after the
    window is resized, picking the entry again shows that same photo, so
    sized for the old pane, and emits no event. *)
Theorem cached_photo_ignores_pane
    (i : nat) (e : entry) (v v1 : viewer) (width height : Z) :
  click W i v = (Ok tt, v1) ->
  entries v !! i = Some e ->
  image_cache v !! cache_key e = None ->
  exists p data size nw nh,
    Image_open W data = Ok size
    /\ get_display_size v {| img_size := size; img_data := data |} = Ok (nw, nh)
    /\ img_size (photo_img p) = (PyNum.max1 nw, PyNum.max1 nh)
    /\ click W i (set_pane width height v1) = (Ok tt, set_pane width height v1)
    /\ label_image (set_pane width height v1) = Some p.
Proof.
  intros H He Hc.
  destruct (click_first_load i e v v1 H He Hc)
    as (p & data & size & nw & nh & _ & Ho & Hg & Hi & Hl & Hp).
  exists p, data, size, nw, nh.
  split; [exact Ho|]. split; [exact Hg|]. split; [now rewrite Hi|].
  split; [|exact Hl].
  unfold click, bind, modify in H |- *.
  destruct (on_select_frame W (set_listbox (listbox_items v) [i] v))
    as (He1 & _ & Hs1 & _). rewrite H in He1, Hs1. simpl in He1, Hs1.
  rewrite (on_select_hit W _ e p).
  - f_equal. destruct v1; simpl in *. subst. reflexivity.
  - unfold selected_entry. simpl. now rewrite He1.
  - exact Hp.
Qed.

End LoadFacts.

(** ** The context menu *)

(** X8: asking for the context menu on a row and choosing Copy puts the
    display name of that row's entry on the clipboard, in place of what was
    there; the row becomes the selection, but [on_select] is not run: the
    label keeps its image, and entries, cache and trace are untouched.
    When there is no row under the cursor nothing is selected and Copy
    leaves the clipboard alone. *)
Theorem right_click_then_copy
    (nearest : viewer -> Z -> Z) (event : tk_event) (d : desk) :
  listbox_items (desk_viewer d) = map entry_display (entries (desk_viewer d)) ->
  let v := desk_viewer d in
  let idx := nearest v (event_y event) in
  let d' := copy_selected (show_context_menu nearest event d) in
  (0 <= idx < Z.of_nat (length (entries v)) ->
   exists e, entries v !! Z.to_nat idx = Some e
             /\ desk_clipboard d' = entry_display e
             /\ listbox_sel (desk_viewer d') = [Z.to_nat idx])
  /\ (~ 0 <= idx < Z.of_nat (length (entries v)) ->
      desk_clipboard d' = desk_clipboard d
      /\ listbox_sel (desk_viewer d') = [])
  /\ label_image (desk_viewer d') = label_image v
  /\ entries (desk_viewer d') = entries v
  /\ listbox_items (desk_viewer d') = listbox_items v
  /\ image_cache (desk_viewer d') = image_cache v
  /\ trace (desk_viewer d') = trace v.
Proof.
  intros Hrows v idx d'.
  assert (Hlen : length (listbox_items v) = length (entries v)).
  { subst v. now rewrite Hrows, length_map. }
  assert (Hsel : context_select idx v
                 = set_listbox (listbox_items v)
                     (if (0 <=? idx) && (idx <? Z.of_nat (length (entries v)))
                      then [Z.to_nat idx] else []) v).
  { unfold context_select, listbox_selection_set_index, listbox_selection_set,
      listbox_selection_clear. simpl. rewrite Hlen.
    destruct (Z.ltb_spec idx 0); destruct (Z.leb_spec 0 idx); try lia; simpl.
    - reflexivity.
    - destruct (Nat.ltb_spec (Z.to_nat idx) (length (entries v)));
        destruct (Z.ltb_spec idx (Z.of_nat (length (entries v)))); try lia;
        reflexivity. }
  subst d'. unfold copy_selected, show_context_menu. fold v idx.
  cbn [desk_viewer desk_clipboard desk_menu]. rewrite Hsel.
  destruct (Z_le_dec 0 idx) as [H0|H0];
    [destruct (Z_lt_dec idx (Z.of_nat (length (entries v)))) as [H1|H1]|].
  - replace ((0 <=? idx) && (idx <? Z.of_nat (length (entries v)))) with true
      by (symmetry; apply andb_true_iff; split;
          [apply Z.leb_le | apply Z.ltb_lt]; lia).
    cbn [listbox_sel set_listbox desk_viewer desk_clipboard].
    split; [intros _ | split; [intros Hout; exfalso; apply Hout; lia|repeat split]].
    destruct (lookup_lt_is_Some_2 (entries v) (Z.to_nat idx) ltac:(lia)) as [e He].
    exists e. split; [exact He|]. split; [|reflexivity].
    unfold listbox_get. cbn [listbox_items set_listbox].
    fold v in Hrows. rewrite Hrows, list_lookup_fmap, He. reflexivity.
  - replace ((0 <=? idx) && (idx <? Z.of_nat (length (entries v)))) with false
      by (symmetry; apply andb_false_iff; right; apply Z.ltb_ge; lia).
    cbn [listbox_sel set_listbox desk_viewer desk_clipboard].
    split; [intros Hin; lia | split; [intros _; split; reflexivity|repeat split]].
  - replace ((0 <=? idx) && (idx <? Z.of_nat (length (entries v)))) with false
      by (symmetry; apply andb_false_iff; left; apply Z.leb_gt; lia).
    cbn [listbox_sel set_listbox desk_viewer desk_clipboard].
    split; [intros Hin; lia | split; [intros _; split; reflexivity|repeat split]].
Qed.

(** ** Doubles, from below *)

(** [int(x)] of a positive double is the integer part of its value. *)
Lemma to_int_floor_both (m : positive) (e : Z) :
  exists z,
    PyNum.to_int (PyNum.Float (S754_finite false m e)) = Ok z
    /\ 0 <= z
    /\ (IZR z <= SF2R (S754_finite false m e) < IZR z + 1)%R.
Proof.
  unfold PyNum.to_int, SF2R, cond_Zopp. rewrite Rmult_1_l.
  destruct e as [|p|p].
  - exists (Zpos m * 2 ^ 0). split; [reflexivity|]. split; [lia|].
    simpl. rewrite Z.mul_1_r. lra.
  - exists (Zpos m * 2 ^ Zpos p). split; [reflexivity|].
    pose proof (Z.pow_pos_nonneg 2 (Zpos p)). split; [lia|].
    rewrite mult_IZR, IZR_pow2 by lia. lra.
  - exists (Zpos m / 2 ^ Zpos p). split; [reflexivity|].
    pose proof (Z.pow_pos_nonneg 2 (Zpos p) ltac:(lia) ltac:(lia)) as Hp.
    split; [apply Z.div_pos; lia|].
    pose proof (Z.mul_div_le (Zpos m) (2 ^ Zpos p) Hp) as Hle.
    pose proof (Z.mul_succ_div_gt (Zpos m) (2 ^ Zpos p) Hp) as Hlt.
    apply IZR_le in Hle. rewrite mult_IZR, IZR_pow2 in Hle by lia.
    apply IZR_lt in Hlt. rewrite mult_IZR, succ_IZR, IZR_pow2 in Hlt by lia.
    change (Zneg p) with (- Zpos p). rewrite powerRZ_neg'.
    pose proof (pow2_pos (Zpos p)) as HP.
    set (P := powerRZ 2 (Zpos p)) in *.
    set (q := IZR (Zpos m / 2 ^ Zpos p)) in *.
    assert (Hinv : (IZR (Zpos m) * / P * P = IZR (Zpos m))%R).
    { rewrite Rmult_assoc, Rinv_l by lra. ring. }
    split.
    + apply Rmult_le_reg_r with P; [exact HP|]. rewrite Hinv. lra.
    + apply Rmult_lt_reg_r with P; [exact HP|]. rewrite Hinv. lra.
Qed.

(** Rounding from below: the result is at least the value cut to 53
    bits, and the exact value, which lies below [(mx + 1) * 2^ex], exceeds
    it by at most one part in [2^52]. *)
Lemma binary_round_aux_lower (mx ex : Z) (lx : location) :
  0 < mx ->
  53 <= Zdigits2 mx ->
  -1074 <= Zdigits2 mx + ex - 53 ->
  Zdigits2 mx + ex <= 1023 ->
  let k := Zdigits2 mx - 53 in
  exists m e,
    binary_round_aux 53 1024 false mx ex lx = S754_finite false m e
    /\ canonical m
    /\ (IZR (mx / 2 ^ k) * powerRZ 2 (ex + k) <= SF2R (S754_finite false m e))%R
    /\ (IZR (mx + 1) * powerRZ 2 ex
        <= SF2R (S754_finite false m e) * (1 + ulp_rel))%R.
Proof.
  intros Hm Hd Hlo Hhi k.
  destruct (binary_round_aux_shape mx ex lx Hm Hd Hlo Hhi)
    as (m & e & Hr & Hcan & Ht & Hcase & _).
  fold k in Ht, Hcase. set (t := mx / 2 ^ k) in *.
  exists m, e. split; [exact Hr|]. split; [exact Hcan|].
  assert (Hk : 0 <= k) by (subst k; lia).
  pose proof (Z.pow_pos_nonneg 2 k ltac:(lia) Hk) as Hpk.
  assert (Htk : mx < 2 ^ k * Z.succ t) by (subst t; apply Z.mul_succ_div_gt; lia).
  pose proof (pow2_pos ex) as HP. set (P := powerRZ 2 ex) in *.
  pose proof (pow2_pos k) as HK. set (K := powerRZ 2 k) in *.
  assert (HtK : (IZR (mx + 1) <= K * (IZR t + 1))%R).
  { subst K. rewrite <- IZR_pow2 by lia.
    replace (IZR t + 1)%R with (IZR (Z.succ t)) by (rewrite succ_IZR; ring).
    rewrite <- mult_IZR. apply IZR_le. lia. }
  assert (Ht52 : (4503599627370496 <= IZR t)%R).
  { apply IZR_le. change 4503599627370496 with (2 ^ 52). lia. }
  assert (Hlow : (IZR t * (P * K) <= SF2R (S754_finite false m e))%R).
  { unfold SF2R. rewrite Rmult_1_l.
    assert (HPK : (0 < P * K)%R) by (apply Rmult_lt_0_compat; assumption).
    destruct Hcase as [[Hme He]|[[Hme He]|[Hc [Hme He]]]]; rewrite Hme, He.
    - rewrite pow2_add. fold P K. lra.
    - rewrite pow2_add. fold P K. rewrite plus_IZR.
      apply Rmult_le_compat_r; lra.
    - rewrite !pow2_add. fold P K. change (powerRZ 2 1) with (2 * 1)%R.
      replace (IZR (2 ^ 52) * (P * K * (2 * 1)))%R
        with (IZR (2 ^ 53) * (P * K))%R
        by (change (2 ^ 53) with (2 * 2 ^ 52); rewrite mult_IZR; ring).
      rewrite <- Hc, plus_IZR. apply Rmult_le_compat_r; lra. }
  split.
  - rewrite pow2_add. fold P K. exact Hlow.
  - set (V := SF2R (S754_finite false m e)) in *.
    assert (HKP : (K * P <= V * ulp_rel)%R).
    { unfold ulp_rel.
      assert (4503599627370496 * (K * P) <= V)%R.
      { eapply Rle_trans; [|exact Hlow].
        replace (IZR t * (P * K))%R with (IZR t * (K * P))%R by ring.
        apply Rmult_le_compat_r; [|exact Ht52].
        apply Rlt_le, Rmult_lt_0_compat; assumption. }
      apply Rmult_le_reg_r with 4503599627370496%R; [lra|].
      replace (V * / 4503599627370496 * 4503599627370496)%R with V by (field; lra).
      lra. }
    eapply Rle_trans.
    { apply Rmult_le_compat_r; [lra | exact HtK]. }
    replace (K * (IZR t + 1) * P)%R with (IZR t * (P * K) + K * P)%R by ring.
    lra.
Qed.

(** The quotient from below: the exact quotient exceeds the double by at
    most one part in [2^52], and the double is at least 1 when the
    dividend is at least the divisor. *)
Lemma truediv_lower (a b : Z) :
  0 < a < 2 ^ 53 -> 0 < b < 2 ^ 53 ->
  exists m e,
    PyNum.truediv a b = Ok (S754_finite false m e)
    /\ canonical m
    /\ (IZR a <= SF2R (S754_finite false m e) * IZR b * (1 + ulp_rel))%R
    /\ (b <= a -> (1 <= SF2R (S754_finite false m e))%R).
Proof.
  intros Ha Hb.
  destruct (float_of_int_exact a Ha) as (ma & ea & Hfa & Hca & Hea & Hma & Hva).
  destruct (float_of_int_exact b Hb) as (mb & eb & Hfb & Hcb & Heb & Hmb & Hvb).
  destruct (SFdiv_core_canonical ma mb ea eb Hca Hcb ltac:(lia)) as [l Hcore].
  set (q := Zpos ma * 2 ^ 53 / Zpos mb) in *.
  assert (Hq : 2 ^ 52 <= q < 2 ^ 54).
  { unfold canonical in Hca, Hcb. subst q. split.
    - apply Z.div_le_lower_bound; lia.
    - apply Z.div_lt_upper_bound; lia. }
  assert (Hqm : Zpos ma * 2 ^ 53 < Zpos mb * Z.succ q).
  { subst q. apply Z.mul_succ_div_gt. lia. }
  assert (Hdq : 53 <= Zdigits2 q <= 54).
  { pose proof (Zdigits2_bounds q ltac:(lia)) as [Hl Hu].
    pose proof (Zdigits2_pos q ltac:(lia)).
    split.
    - assert (52 < Zdigits2 q) by (apply (Z.pow_lt_mono_r_iff 2); lia). lia.
    - assert (Zdigits2 q - 1 < 54) by (apply (Z.pow_lt_mono_r_iff 2); lia). lia. }
  destruct (binary_round_aux_lower q (ea - eb - 53) l)
    as (m & e & Hr & Hcan & Hlow & Hrel); try lia.
  set (k := Zdigits2 q - 53) in *.
  exists m, e.
  assert (Hdiv : PyNum.truediv a b = Ok (S754_finite false m e)).
  { unfold PyNum.truediv. replace (b =? 0) with false by (symmetry; apply Z.eqb_neq; lia).
    rewrite Hfa, Hfb. cbn [res_bind]. unfold SFdiv.
    change PyNum.prec with 53. change PyNum.emax with 1024.
    rewrite Hcore. cbn [xorb]. rewrite Hr. reflexivity. }
  split; [exact Hdiv|]. split; [exact Hcan|].
  set (V := SF2R (S754_finite false m e)) in *.
  assert (HV : (0 < V)%R).
  { subst V. unfold SF2R. rewrite Rmult_1_l.
    apply Rmult_lt_0_compat; [apply IZR_lt; lia | apply pow2_pos]. }
  assert (Hulp : (0 < ulp_rel)%R) by (unfold ulp_rel; lra).
  split.
  - (* the exact quotient is below (q + 1) * 2^e' *)
    unfold SF2R in Hva, Hvb. rewrite Rmult_1_l in Hva, Hvb.
    rewrite <- Hva, <- Hvb.
    pose proof (pow2_pos eb) as HPb. pose proof (pow2_pos (ea - eb - 53)) as HPe.
    assert (Hsplit : powerRZ 2 ea
              = (IZR (2 ^ 53) * (powerRZ 2 (ea - eb - 53) * powerRZ 2 eb))%R).
    { rewrite IZR_pow2, <- !pow2_add by lia. f_equal. lia. }
    assert (HqR : (IZR (Zpos ma) * IZR (2 ^ 53) <= IZR (Zpos mb) * IZR (q + 1))%R).
    { rewrite <- !mult_IZR. apply IZR_le. lia. }
    set (E := powerRZ 2 (ea - eb - 53)) in *. set (B := powerRZ 2 eb) in *.
    rewrite Hsplit.
    replace (IZR (Zpos ma) * (IZR (2 ^ 53) * (E * B)))%R
      with ((IZR (Zpos ma) * IZR (2 ^ 53)) * (E * B))%R by ring.
    assert (HEB : (0 < E * B)%R) by (apply Rmult_lt_0_compat; assumption).
    eapply Rle_trans.
    { apply Rmult_le_compat_r; [lra | exact HqR]. }
    replace (IZR (Zpos mb) * IZR (q + 1) * (E * B))%R
      with ((IZR (q + 1) * E) * (IZR (Zpos mb) * B))%R by ring.
    replace (V * (IZR (Zpos mb) * B) * (1 + ulp_rel))%R
      with ((V * (1 + ulp_rel)) * (IZR (Zpos mb) * B))%R by ring.
    apply Rmult_le_compat_r; [|exact Hrel].
    apply Rmult_le_pos; [apply IZR_le; lia | lra].
  - intros Hba.
    assert (Hk : 0 <= k <= 1) by (subst k; lia).
    assert (Hpow : Zpos mb * 2 ^ (53 - ea + eb) <= Zpos ma * 2 ^ 53).
    { rewrite Hma, Hmb.
      replace (b * 2 ^ (- eb) * 2 ^ (53 - ea + eb)) with (b * 2 ^ (53 - ea)).
      2:{ rewrite <- Z.mul_assoc, <- Z.pow_add_r by lia. do 2 f_equal. lia. }
      replace (a * 2 ^ (- ea) * 2 ^ 53) with (a * 2 ^ (53 - ea)).
      2:{ rewrite <- Z.mul_assoc, <- Z.pow_add_r by lia. do 2 f_equal. lia. }
      apply Z.mul_le_mono_nonneg_r; [apply Z.pow_nonneg|]; lia. }
    assert (Hq1 : 2 ^ (53 - ea + eb) <= q).
    { subst q. apply Z.div_le_lower_bound; lia. }
    assert (Ht : 2 ^ (53 - ea + eb - k) <= q / 2 ^ k).
    { pose proof (Z.pow_pos_nonneg 2 k ltac:(lia) ltac:(lia)).
      apply Z.div_le_lower_bound; [lia|].
      rewrite <- Z.pow_add_r by lia.
      replace (k + (53 - ea + eb - k)) with (53 - ea + eb) by lia. exact Hq1. }
    eapply Rle_trans; [|exact Hlow].
    apply IZR_le in Ht. rewrite IZR_pow2 in Ht by lia.
    pose proof (pow2_pos (ea - eb - 53 + k)) as HP.
    assert (H1 : (powerRZ 2 (53 - ea + eb - k) * powerRZ 2 (ea - eb - 53 + k) = 1)%R).
    { rewrite <- pow2_add. replace (53 - ea + eb - k + (ea - eb - 53 + k)) with 0 by lia.
      reflexivity. }
    rewrite <- H1. apply Rmult_le_compat_r; [lra | exact Ht].
Qed.

(** The product from below. *)
Lemma SFmul_lower (m1 m2 : positive) (e1 e2 : Z) :
  canonical m1 -> canonical m2 -> -1000 <= e1 + e2 <= 900 ->
  let k := Zdigits2 (Zpos (m1 * m2)) - 53 in
  exists m e,
    SFmul 53 1024 (S754_finite false m1 e1) (S754_finite false m2 e2)
    = S754_finite false m e
    /\ (SF2R (S754_finite false m1 e1) * SF2R (S754_finite false m2 e2)
        <= SF2R (S754_finite false m e) * (1 + ulp_rel))%R
    /\ (IZR (Zpos (m1 * m2) / 2 ^ k) * powerRZ 2 (e1 + e2 + k)
        <= SF2R (S754_finite false m e))%R.
Proof.
  intros H1 H2 He k. unfold canonical in H1, H2.
  assert (Hp : 2 ^ 104 <= Zpos (m1 * m2) < 2 ^ 106).
  { rewrite Pos2Z.inj_mul. split.
    - change (2 ^ 104) with (2 ^ 52 * 2 ^ 52). apply Z.mul_le_mono_nonneg; lia.
    - change (2 ^ 106) with (2 ^ 53 * 2 ^ 53). apply Z.mul_lt_mono_nonneg; lia. }
  assert (Hd : 105 <= Zdigits2 (Zpos (m1 * m2)) <= 106).
  { pose proof (Zdigits2_bounds (Zpos (m1 * m2)) ltac:(lia)) as [Hl Hu].
    pose proof (Zdigits2_pos (Zpos (m1 * m2)) ltac:(lia)).
    split.
    - assert (104 < Zdigits2 (Zpos (m1 * m2)))
        by (apply (Z.pow_lt_mono_r_iff 2); lia). lia.
    - assert (Zdigits2 (Zpos (m1 * m2)) - 1 < 106)
        by (apply (Z.pow_lt_mono_r_iff 2); lia). lia. }
  destruct (binary_round_aux_lower (Zpos (m1 * m2)) (e1 + e2) loc_Exact)
    as (m & e & Hr & Hcan & Hlow & Hrel); try lia.
  exists m, e. split; [exact Hr|]. split; [|exact Hlow].
  eapply Rle_trans; [|exact Hrel].
  unfold SF2R. rewrite plus_IZR, Pos2Z.inj_mul, mult_IZR, pow2_add.
  pose proof (pow2_pos e1). pose proof (pow2_pos e2).
  assert (0 < powerRZ 2 e1 * powerRZ 2 e2)%R by (apply Rmult_lt_0_compat; assumption).
  nra.
Qed.

(** [min(rw, rh, 1)], case by case. *)
Lemma min3_cases (rw rh : spec_float) :
  normal_pos rw -> normal_pos rh ->
  let ratio := PyNum.min3 (PyNum.Float rw) (PyNum.Float rh) (PyNum.Int 1) in
  (ratio = PyNum.Float rw /\ (SF2R rw <= SF2R rh)%R /\ (SF2R rw <= 1)%R)
  \/ (ratio = PyNum.Float rh /\ (SF2R rh <= SF2R rw)%R /\ (SF2R rh <= 1)%R)
  \/ (ratio = PyNum.Int 1 /\ (1 < SF2R rw)%R /\ (1 < SF2R rh)%R).
Proof.
  intros (mw & ew & -> & Hcw & Hew) (mh & eh & -> & Hch & Heh) ratio.
  subst ratio. unfold PyNum.min3, PyNum.min2.
  pose (fw := S754_finite false mw ew). pose (fh := S754_finite false mh eh).
  fold fw fh.
  destruct (PyNum.lt (PyNum.Float fh) (PyNum.Float fw)) eqn:Hlt;
    cbn [PyNum.lt] in Hlt.
  - apply SFltb_canonical in Hlt; [|assumption..]. fold fw fh in Hlt.
    destruct (PyNum.lt (PyNum.Int 1) (PyNum.Float fh)) eqn:H1.
    + apply lt_one_float in H1. fold fh in H1. right; right. repeat split; lra.
    + assert (~ (1 < SF2R fh)%R).
      { intros H. apply lt_one_float in H. fold fh in H. congruence. }
      right; left. repeat split; lra.
  - assert (Hge : ~ (SF2R fh < SF2R fw)%R).
    { intros H. apply SFltb_canonical in H; [|assumption..].
      fold fw fh in H. congruence. }
    destruct (PyNum.lt (PyNum.Int 1) (PyNum.Float fw)) eqn:H1.
    + apply lt_one_float in H1. fold fw in H1. right; right. repeat split; lra.
    + assert (~ (1 < SF2R fw)%R).
      { intros H. apply lt_one_float in H. fold fw in H. congruence. }
      left. repeat split; lra.
Qed.

Lemma pow2_neg (n : Z) : 0 <= n -> powerRZ 2 (- n) = (/ IZR (2 ^ n))%R.
Proof. intros Hn. now rewrite powerRZ_neg', IZR_pow2. Qed.

Lemma pow2_mono (a b : Z) : a <= b -> (powerRZ 2 a <= powerRZ 2 b)%R.
Proof.
  intros Hab. replace b with (a + (b - a)) by lia. rewrite pow2_add.
  pose proof (pow2_pos a). rewrite <- (IZR_pow2 (b - a)) by lia.
  assert (1 <= IZR (2 ^ (b - a)))%R.
  { apply IZR_le. pose proof (Z.pow_pos_nonneg 2 (b - a)). lia. }
  nra.
Qed.

(** The double of value 1 is [2^52 * 2^-52]. *)
Lemma float_one (m : positive) (e : Z) :
  canonical m -> SF2R (S754_finite false m e) = 1%R ->
  Zpos m = 2 ^ 52 /\ e = -52.
Proof.
  unfold canonical, SF2R. rewrite Rmult_1_l. intros [Hl Hu] H.
  apply IZR_le in Hl. apply IZR_lt in Hu.
  change (2 ^ 52) with 4503599627370496 in *.
  change (2 ^ 53) with 9007199254740992 in *.
  pose proof (pow2_pos e) as HP.
  assert (H52 : powerRZ 2 (-52) = (/ 4503599627370496)%R).
  { change (-52) with (Z.opp 52). rewrite (pow2_neg 52) by lia. reflexivity. }
  assert (H53 : powerRZ 2 (-53) = (/ 9007199254740992)%R).
  { change (-53) with (Z.opp 53). rewrite (pow2_neg 53) by lia. reflexivity. }
  assert (H51 : powerRZ 2 (-51) = (/ 2251799813685248)%R).
  { change (-51) with (Z.opp 51). rewrite (pow2_neg 51) by lia. reflexivity. }
  destruct (Z_lt_le_dec e (-52)) as [Hlt|Hge].
  - exfalso. pose proof (pow2_mono e (-53) ltac:(lia)) as Hm. rewrite H53 in Hm.
    assert (IZR (Zpos m) * powerRZ 2 e < 9007199254740992 * / 9007199254740992)%R.
    { apply Rle_lt_trans with (IZR (Zpos m) * / 9007199254740992)%R.
      - apply Rmult_le_compat_l; lra.
      - apply Rmult_lt_compat_r; lra. }
    rewrite Rinv_r in H0 by lra. lra.
  - destruct (Z_le_lt_eq_dec _ _ Hge) as [Hgt|Heq].
    + exfalso. pose proof (pow2_mono (-51) e ltac:(lia)) as Hm. rewrite H51 in Hm.
      assert (4503599627370496 * / 2251799813685248 <= IZR (Zpos m) * powerRZ 2 e)%R.
      { apply Rle_trans with (IZR (Zpos m) * / 2251799813685248)%R.
        - apply Rmult_le_compat_r; lra.
        - apply Rmult_le_compat_l; lra. }
      lra.
    + subst e. split; [|reflexivity]. rewrite H52 in H.
      apply eq_IZR.
      assert (IZR (Zpos m) = 4503599627370496)%R; [|assumption].
      apply Rmult_eq_reg_r with (/ 4503599627370496)%R; [|lra].
      rewrite H. field.
Qed.

(** Scaling by a ratio of exactly 1.0 gives the dimension back. *)
Lemma scale_exact (x : Z) (f : spec_float) :
  0 < x < 2 ^ 52 -> normal_pos f -> SF2R f = 1%R ->
  res_bind (PyNum.mul (PyNum.Int x) (PyNum.Float f)) PyNum.to_int = Ok x.
Proof.
  intros Hx (m & e & -> & Hc & He) H1.
  destruct (float_one m e Hc H1) as [Hm ->].
  destruct (float_of_int_exact x ltac:(lia)) as (mx & ex & Hfx & Hcx & Hex & Hmx & Hvx).
  destruct (SFmul_value mx m ex (-52) Hcx Hc ltac:(lia)) as (mp & ep & Hp & Hcp & Hup).
  destruct (SFmul_lower mx m ex (-52) Hcx Hc ltac:(lia)) as (mp' & ep' & Hp' & _ & Hlow).
  rewrite Hp in Hp'. inversion Hp'; subst mp' ep'; clear Hp'.
  destruct (to_int_floor_both mp ep) as (z & Hz & Hz0 & Hzl & Hzu).
  cbn [PyNum.mul]. rewrite Hfx. cbn [res_bind].
  change PyNum.prec with 53. change PyNum.emax with 1024.
  rewrite Hp, Hz. f_equal.
  (* the product is at least x and below x + 1 *)
  assert (Hprod : Zpos (mx * m) = Zpos mx * 2 ^ 52).
  { rewrite Pos2Z.inj_mul, Hm. reflexivity. }
  assert (Hd : Zdigits2 (Zpos (mx * m)) = 105).
  { apply Zdigits2_unique; [|lia]. rewrite Hprod. unfold canonical in Hcx.
    change (2 ^ (105 - 1)) with (2 ^ 52 * 2 ^ 52).
    change (2 ^ 105) with (2 ^ 53 * 2 ^ 52). lia. }
  rewrite Hd, Hprod in Hlow. change (105 - 53) with 52 in Hlow.
  rewrite Z.div_mul in Hlow by lia.
  replace (ex + -52 + 52) with ex in Hlow by lia.
  rewrite Hvx, H1 in Hup.
  unfold SF2R, cond_Zopp in Hvx. rewrite Rmult_1_l in Hvx. rewrite Hvx in Hlow.
  assert (Hxr : (0 < IZR x < 4503599627370496)%R).
  { split; apply IZR_lt; [lia|]. change 4503599627370496 with (2 ^ 52). lia. }
  unfold ulp_rel in Hup.
  assert (IZR z < IZR (x + 1))%R by (rewrite plus_IZR; nra).
  assert (IZR x < IZR (z + 1))%R by (rewrite plus_IZR; lra).
  apply lt_IZR in H, H0. lia.
Qed.

(** Scaling from below. *)
Lemma scale_lower (x : Z) (f : spec_float) :
  0 < x < 2 ^ 53 -> normal_pos f ->
  exists z,
    res_bind (PyNum.mul (PyNum.Int x) (PyNum.Float f)) PyNum.to_int = Ok z
    /\ (IZR x * SF2R f < (IZR z + 1) * (1 + ulp_rel))%R.
Proof.
  intros Hx (m & e & -> & Hc & He).
  destruct (float_of_int_exact x Hx) as (mx & ex & Hfx & Hcx & Hex & Hmx & Hvx).
  destruct (SFmul_lower mx m ex e Hcx Hc ltac:(lia)) as (mp & ep & Hp & Hrel & _).
  destruct (to_int_floor_both mp ep) as (z & Hz & Hz0 & Hzl & Hzu).
  exists z. split.
  - cbn [PyNum.mul]. rewrite Hfx. cbn [res_bind].
    change PyNum.prec with 53. change PyNum.emax with 1024.
    rewrite Hp. exact Hz.
  - rewrite Hvx in Hrel. unfold ulp_rel in *. 
    eapply Rle_lt_trans; [exact Hrel|].
    apply Rmult_lt_compat_r; lra.
Qed.

Lemma truediv_normal (a b : Z) :
  0 < a < 2 ^ 53 -> 0 < b < 2 ^ 53 ->
  exists f,
    PyNum.truediv a b = Ok f
    /\ normal_pos f
    /\ (SF2R f * IZR b <= IZR a * (1 + ulp_rel))%R
    /\ (IZR a <= SF2R f * IZR b * (1 + ulp_rel))%R
    /\ (b <= a -> (1 <= SF2R f)%R).
Proof.
  intros Ha Hb.
  destruct (truediv_value a b Ha Hb) as (m & e & Hd & Hc & He & Hup).
  destruct (truediv_lower a b Ha Hb) as (m' & e' & Hd' & _ & Hlow & Hone).
  rewrite Hd in Hd'. inversion Hd'; subst m' e'.
  exists (S754_finite false m e). split; [exact Hd|].
  split; [exists m, e; auto|]. auto.
Qed.

Lemma IZR_pixel (x : Z) :
  0 < x < 2 ^ 51 -> (1 <= IZR x <= 2251799813685247)%R.
Proof.
  intros Hx. split; apply IZR_le; [lia|].
  change 2251799813685247 with (2 ^ 51 - 1). lia.
Qed.

(** A rounded ratio above 1 means the bound is not below the dimension. *)
Lemma ratio_above_one (mx x : Z) (r : R) :
  0 < mx < 2 ^ 51 -> 0 < x < 2 ^ 51 ->
  (r * IZR x <= IZR mx * (1 + ulp_rel))%R -> (1 < r)%R -> x <= mx.
Proof.
  intros Hm Hx Hr H1.
  pose proof (IZR_pixel mx Hm). pose proof (IZR_pixel x Hx).
  assert (IZR x < IZR (mx + 1))%R; [|apply lt_IZR in H2; lia].
  rewrite plus_IZR. unfold ulp_rel in Hr. nra.
Qed.

(** The dimension whose ratio was taken comes out within a pixel of its
    bound. *)
Lemma scaled_reaches_bound (mx x z : Z) (r : R) :
  0 < mx < 2 ^ 51 -> 0 < x < 2 ^ 51 -> 0 <= z ->
  (IZR mx <= r * IZR x * (1 + ulp_rel))%R ->
  (IZR x * r < (IZR z + 1) * (1 + ulp_rel))%R ->
  mx - 1 <= z.
Proof.
  intros Hm Hx Hz Hlow Hsc.
  destruct (Z_le_gt_dec mx (z + 1)) as [|Hgt]; [lia|].
  pose proof (IZR_pixel mx Hm) as Hmr.
  assert (Hzr : (0 <= IZR z)%R) by (apply IZR_le; lia).
  assert (Hzm : (IZR z + 1 <= IZR mx - 1)%R).
  { rewrite <- (plus_IZR z 1), <- (minus_IZR mx 1). apply IZR_le. lia. }
  assert (IZR mx < IZR (z + 2))%R; [|apply lt_IZR in H; lia].
  rewrite plus_IZR. unfold ulp_rel in *.
  assert (Hc : (IZR mx < (IZR z + 1) * (1 + / 4503599627370496)
                          * (1 + / 4503599627370496))%R).
  { eapply Rle_lt_trans; [exact Hlow|].
    rewrite (Rmult_comm r). apply Rmult_lt_compat_r; lra. }
  lra.
Qed.

(** A picture no larger than the bounds keeps its size: the ratio is 1,
    as the integer 1 or as the double 1.0. *)
Lemma fit_size_fitting (max_w max_h w h : Z) :
  0 < max_w < 2 ^ 51 -> 0 < max_h < 2 ^ 51 ->
  0 < w <= max_w -> 0 < h <= max_h ->
  fit_size max_w max_h w h = Ok (w, h).
Proof.
  intros Hmw Hmh Hw Hh.
  destruct (fit_size_fits max_w max_h w h) as
    (rw & rh & nw & nh & Hrw & Hrh & Hn & Hfit & _); try lia.
  cbv zeta in Hn. destruct Hn as [Hnw Hnh].
  destruct (truediv_normal max_w w) as (fw & Hfw & Hnfw & _ & _ & H1w); try lia.
  destruct (truediv_normal max_h h) as (fh & Hfh & Hnfh & _ & _ & H1h); try lia.
  rewrite Hrw in Hfw. inversion Hfw; subst fw; clear Hfw.
  rewrite Hrh in Hfh. inversion Hfh; subst fh; clear Hfh.
  specialize (H1w ltac:(lia)). specialize (H1h ltac:(lia)).
  rewrite Hfit. 
  assert (Hx : forall x, 0 < x < 2 ^ 52 ->
             res_bind (PyNum.mul (PyNum.Int x)
               (PyNum.min3 (PyNum.Float rw) (PyNum.Float rh) (PyNum.Int 1)))
               PyNum.to_int = Ok x).
  { intros x Hx.
    destruct (min3_cases rw rh Hnfw Hnfh) as [(-> & _ & Hle)|[(-> & _ & Hle)|(-> & _)]].
    - apply scale_exact; [lia|assumption|lra].
    - apply scale_exact; [lia|assumption|lra].
    - cbn. now rewrite Z.mul_1_r. }
  rewrite (Hx w) in Hnw by lia. rewrite (Hx h) in Hnh by lia.
  congruence.
Qed.

(** A picture larger than a bound is scaled until one dimension is
    within a pixel of its bound. *)
Lemma fit_size_fills (max_w max_h w h : Z) :
  0 < max_w < 2 ^ 51 -> 0 < max_h < 2 ^ 51 ->
  0 < w < 2 ^ 51 -> 0 < h < 2 ^ 51 ->
  max_w < w \/ max_h < h ->
  exists new_w new_h,
    fit_size max_w max_h w h = Ok (new_w, new_h)
    /\ (max_w - 1 <= new_w \/ max_h - 1 <= new_h).
Proof.
  intros Hmw Hmh Hw Hh Hbig.
  destruct (fit_size_fits max_w max_h w h) as
    (rw & rh & nw & nh & Hrw & Hrh & Hn & Hfit & Hnw0 & _ & Hnh0 & _); try lia.
  cbv zeta in Hn. destruct Hn as [Hnw Hnh].
  destruct (truediv_normal max_w w) as (fw & Hfw & Hnfw & Huw & Hlw & _); try lia.
  destruct (truediv_normal max_h h) as (fh & Hfh & Hnfh & Huh & Hlh & _); try lia.
  rewrite Hrw in Hfw. inversion Hfw; subst fw; clear Hfw.
  rewrite Hrh in Hfh. inversion Hfh; subst fh; clear Hfh.
  exists nw, nh. split; [exact Hfit|].
  destruct (min3_cases rw rh Hnfw Hnfh) as [(Hr & _)|[(Hr & _)|(_ & H1w & H1h)]].
  - left. rewrite Hr in Hnw.
    destruct (scale_lower w rw ltac:(lia) Hnfw) as (z & Hz & Hsc).
    rewrite Hnw in Hz. inversion Hz; subst z.
    apply (scaled_reaches_bound max_w w nw (SF2R rw)); auto; lia.
  - right. rewrite Hr in Hnh.
    destruct (scale_lower h rh ltac:(lia) Hnfh) as (z & Hz & Hsc).
    rewrite Hnh in Hz. inversion Hz; subst z.
    apply (scaled_reaches_bound max_h h nh (SF2R rh)); auto; lia.
  - exfalso.
    pose proof (ratio_above_one max_w w (SF2R rw) Hmw Hw Huw H1w).
    pose proof (ratio_above_one max_h h (SF2R rh) Hmh Hh Huh H1h).
    lia.
Qed.

Lemma or_400_pos (x : Z) : 0 <= x < 2 ^ 51 -> 0 < or_400 x < 2 ^ 51.
Proof. unfold or_400. destruct (Z.eqb_spec x 0); lia. Qed.

(** ** What [get_display_size] does to a picture *)

(** X9: a picture that is no larger than the pane, in both dimensions,
    keeps its size exactly: the float arithmetic loses no pixel when the
    ratio is 1, whether [min] returns the integer 1 or a quotient that
    rounds to 1.0. *)
Theorem get_display_size_keeps_small
    (v : viewer) (pil_img : pil_image) (w h : Z) :
  img_size pil_img = (w, h) ->
  0 <= frame_width v < 2 ^ 51 -> 0 <= frame_height v < 2 ^ 51 ->
  0 < w <= or_400 (frame_width v) ->
  0 < h <= or_400 (frame_height v) ->
  get_display_size v pil_img = Ok (w, h).
Proof.
  intros Hs Hfw Hfh Hw Hh.
  unfold get_display_size. rewrite Hs.
  apply fit_size_fitting; auto using or_400_pos.
Qed.

(** X10: a picture larger than the pane in some dimension is scaled down
    until it touches the pane: the returned width is the pane's width or
    one pixel less, or the returned height is the pane's height or one
    pixel less. *)
Theorem get_display_size_fills_pane
    (v : viewer) (pil_img : pil_image) (w h : Z) :
  img_size pil_img = (w, h) ->
  0 <= frame_width v < 2 ^ 51 -> 0 <= frame_height v < 2 ^ 51 ->
  0 < w < 2 ^ 51 -> 0 < h < 2 ^ 51 ->
  or_400 (frame_width v) < w \/ or_400 (frame_height v) < h ->
  exists new_w new_h,
    get_display_size v pil_img = Ok (new_w, new_h)
    /\ (or_400 (frame_width v) - 1 <= new_w <= or_400 (frame_width v)
        /\ new_h <= or_400 (frame_height v)
        \/ or_400 (frame_height v) - 1 <= new_h <= or_400 (frame_height v)
           /\ new_w <= or_400 (frame_width v)).
Proof.
  intros Hs Hfw Hfh Hw Hh Hbig.
  pose proof (or_400_pos _ Hfw) as Hmw. pose proof (or_400_pos _ Hfh) as Hmh.
  destruct (fit_size_fills _ _ w h Hmw Hmh Hw Hh Hbig) as (nw & nh & Hfit & Hor).
  destruct (fit_size_fits _ _ w h Hmw Hmh Hw Hh)
    as (_ & _ & nw' & nh' & _ & _ & _ & Hfit' & Hbw & _ & Hbh & _).
  rewrite Hfit in Hfit'. inversion Hfit'; subst nw' nh'.
  exists nw, nh. split.
  - unfold get_display_size. rewrite Hs. exact Hfit.
  - destruct Hor; [left|right]; lia.
Qed.

(** X11: a picture with a zero dimension makes [get_display_size] raise
    [ZeroDivisionError]: at [max_w / w] for a zero width, and at
    [max_h / h] for a zero height once [max_w / w] was computed. *)
Theorem get_display_size_zero
    (v : viewer) (pil_img : pil_image) (w h : Z) :
  img_size pil_img = (w, h) ->
  0 <= frame_width v < 2 ^ 51 ->
  0 <= w < 2 ^ 51 ->
  w = 0 \/ h = 0 ->
  get_display_size v pil_img = Raise ZeroDivisionError.
Proof.
  intros Hs Hfw Hw Hz.
  unfold get_display_size. rewrite Hs. unfold fit_size.
  destruct (Z.eq_dec w 0) as [->|Hw0]; [reflexivity|].
  destruct Hz as [-> | ->]; [lia|].
  pose proof (or_400_pos _ Hfw) as Hmw.
  destruct (truediv_value (or_400 (frame_width v)) w) as (m & e & Hd & _); try lia.
  rewrite Hd. reflexivity.
Qed.

Section ShownFacts.

Variable W : world.

(** X12: the photo that the first pick of an entry puts on the label is
    never empty and never larger than the pane or than the picture: each
    of its dimensions is between 1 and the smaller of the pane bound and
    the picture's own dimension.  In a pane that reports 1x1, as one that
    is not drawn yet does, the photo is 1x1. *)
Theorem first_pick_photo_size (i : nat) (e : entry) (v v1 : viewer) :
  click W i v = (Ok tt, v1) ->
  entries v !! i = Some e ->
  image_cache v !! cache_key e = None ->
  0 <= frame_width v < 2 ^ 51 -> 0 <= frame_height v < 2 ^ 51 ->
  (forall data w h, Image_open W data = Ok (w, h) ->
                    0 < w < 2 ^ 51 /\ 0 < h < 2 ^ 51) ->
  exists p data w h pw ph,
    zip_read (entry_zip e) (entry_name e) = Ok data
    /\ Image_open W data = Ok (w, h)
    /\ label_image v1 = Some p
    /\ img_size (photo_img p) = (pw, ph)
    /\ 1 <= pw <= Z.min (or_400 (frame_width v)) w
    /\ 1 <= ph <= Z.min (or_400 (frame_height v)) h
    /\ (frame_width v = 1 -> frame_height v = 1 -> (pw, ph) = (1, 1)).
Proof.
  intros H He Hc Hfw Hfh Hsizes.
  destruct (click_first_load W i e v v1 H He Hc)
    as (p & data & [w h] & nw & nh & Hr & Ho & Hg & Hi & Hl & _).
  destruct (Hsizes data w h Ho) as [Hw Hh].
  pose proof (or_400_pos _ Hfw) as Hmw. pose proof (or_400_pos _ Hfh) as Hmh.
  destruct (fit_size_fits _ _ w h Hmw Hmh Hw Hh)
    as (_ & _ & nw' & nh' & _ & _ & _ & Hfit & Hbw & Hbw' & Hbh & Hbh').
  unfold get_display_size in Hg. cbn [img_size] in Hg.
  rewrite Hfit in Hg. inversion Hg; subst nw' nh'.
  exists p, data, w, h, (PyNum.max1 nw), (PyNum.max1 nh).
  split; [exact Hr|]. split; [exact Ho|]. split; [exact Hl|].
  split; [now rewrite Hi|].
  assert (Hpw : 1 <= PyNum.max1 nw <= Z.min (or_400 (frame_width v)) w).
  { unfold PyNum.max1. destruct (Z.gtb_spec nw 1); lia. }
  assert (Hph : 1 <= PyNum.max1 nh <= Z.min (or_400 (frame_height v)) h).
  { unfold PyNum.max1. destruct (Z.gtb_spec nh 1); lia. }
  split; [exact Hpw|]. split; [exact Hph|].
  intros H1 H2. rewrite H1 in Hpw. rewrite H2 in Hph.
  change (or_400 1) with 1 in Hpw, Hph. f_equal; lia.
Qed.

(** X13: the cache is keyed by [id(zip_obj)] and the member name, and it
    outlives the entry list.  When a newly opened archive's object has the
    identity and the first image name of a key that is still in the cache,
    [open_ucp] shows the cached photo: nothing of the new archive is read
    or decoded, and no event is emitted. *)
Theorem open_ucp_stale_cache
    (path : string) (z : zip_obj) (name : string) (rest : list string)
    (p : photo) (v : viewer) :
  path <> EmptyString ->
  ZipFile W (constructed v) path = ZipOpened z ->
  List.filter is_image_name (zip_namelist z) = name :: rest ->
  image_cache v !! (zip_id z, name) = Some p ->
  let out := open_ucp W (Some path) v in
  fst out = Ok tt
  /\ entries (snd out) = archive_rows (OsPath.basename path) z
  /\ listbox_sel (snd out) = [0%nat]
  /\ label_image (snd out) = Some p
  /\ image_cache (snd out) = image_cache v
  /\ trace (snd out) = trace v.
Proof.
  intros Hp Hz Hn Hc out. subst out.
  rewrite (open_ucp_opened W path z v Hp Hz), populate_listbox_run.
  unfold archive_rows. rewrite Hn. cbn [map entries set_entries set_constructed].
  set (e0 := {| entry_zip := z; entry_name := name;
                entry_display := display_name (OsPath.basename path) name |}).
  set (es := map _ rest).
  rewrite (on_select_hit W _ e0 p); [simpl; repeat split| reflexivity | exact Hc].
Qed.

End ShownFacts.

(** ** The label and the cache *)

Section LabelFacts.

Variable W : world.

Lemma label_cached_same (v v' : viewer) :
  label_image v' = label_image v -> image_cache v' = image_cache v ->
  label_cached v -> label_cached v'.
Proof. intros Hl Hc H p. rewrite Hl, Hc. apply H. Qed.

Lemma on_select_label_cached (v : viewer) :
  label_cached v -> label_cached (snd (on_select W v)).
Proof.
  intros Inv. unfold on_select, bind, get.
  destruct (entries v) as [|e0 es] eqn:E; [exact Inv|].
  destruct (listbox_sel v) as [|i sel]; [exact Inv|].
  destruct ((e0 :: es) !! i) as [en|]; [|exact Inv].
  destruct (image_cache v !! _) as [p|] eqn:Hc.
  - intros q Hq. simpl in Hq. inversion Hq; subst q.
    eexists. simpl. exact Hc.
  - destruct (load_photo W (entry_zip en) (entry_name en) v) as [[p|e1] v1] eqn:Hl.
    + intros q Hq. simpl in Hq. inversion Hq; subst q.
      eexists. simpl. eapply load_photo_cached. exact Hl.
    + destruct (load_photo_raise W _ _ _ _ _ Hl) as (Hcache & Hlabel & _).
      simpl. now apply (label_cached_same v).
Qed.

Lemma populate_listbox_label_cached (v : viewer) :
  label_cached v -> label_cached (snd (populate_listbox W v)).
Proof.
  intros Inv. rewrite populate_listbox_run.
  destruct (entries v); [exact Inv|].
  apply on_select_label_cached. exact Inv.
Qed.

Lemma act_label_cached (a : action) (v : viewer) :
  label_cached v -> allowed W a v -> label_cached (snd (act W a v)).
Proof.
  intros Inv Hal. destruct a as [fp|folder|i|idx|w h]; simpl in *.
  - rewrite open_ucp_cases. cbv zeta.
    destruct (str_not _); [exact Inv|].
    destruct (ZipFile W _ _) as [z| |e]; [|exact Inv|exact Inv].
    apply populate_listbox_label_cached. exact Inv.
  - destruct (String.eqb_spec folder EmptyString) as [->|Hf].
    { unfold open_ucp_folder, str_not. simpl. exact Inv. }
    destruct (isdir W folder) eqn:Hd.
    2:{ unfold open_ucp_folder. rewrite Hd, orb_true_r. exact Inv. }
    destruct (find_archives W folder) as [|p ps] eqn:Ha.
    + rewrite (open_ucp_folder_none W folder v Hf Hd Ha). exact Inv.
    + rewrite (open_ucp_folder_run W folder v Hf Hd); rewrite ?Ha;
        [|discriminate|exact Hal].
      apply populate_listbox_label_cached. exact Inv.
  - unfold click, bind, modify. apply on_select_label_cached. exact Inv.
  - apply (label_cached_same v); [| |exact Inv];
      unfold context_select, listbox_selection_set_index,
        listbox_selection_set, listbox_selection_clear;
      destruct (idx <? 0); try reflexivity; simpl;
      destruct (_ <? _)%nat; reflexivity.
  - exact Inv.
Qed.

(** X14: in every state the viewer can reach, the photo on the label is
    one that the cache holds: [on_select] stores a photo before it shows
    it, and nothing ever takes a photo out of the cache.  The photo need
    not belong to an entry of the current list. *)
Theorem reachable_label_cached (v : viewer) (p : photo) :
  reachable W v ->
  label_image v = Some p ->
  exists k, image_cache v !! k = Some p.
Proof.
  intros Hr. revert p. change (label_cached v).
  induction Hr as [w h|a v Hr IH Hal].
  - intros p Hp. discriminate Hp.
  - now apply act_label_cached.
Qed.

End LabelFacts.

(** ** How an open ends *)

Section OpenOutcomes.

Variable W : world.

Lemma load_photo_result (e : entry) (v : viewer) :
  res_bind (fst (load_photo W (entry_zip e) (entry_name e) v)) (fun _ => Ok tt)
  = load_result W v e.
Proof.
  unfold load_result, load_photo, bind, modify, lift, get, PhotoImage, ret.
  destruct (zip_read (entry_zip e) (entry_name e)) as [data|e1]; [|reflexivity].
  cbn [res_bind]. destruct (Image_open W data) as [size|e2]; [|reflexivity].
  cbn [res_bind]. rewrite (get_display_size_pane _ v) by reflexivity.
  destruct (get_display_size v _) as [[nw nh]|e3]; [|reflexivity].
  cbn [fst snd res_bind]. rewrite Image_resize_clamped. cbn [img_data].
  destruct (Image_load W data) as [[]|e4]; reflexivity.
Qed.

Lemma on_select_result (s : viewer) (e : entry) :
  selected_entry s = Some e ->
  image_cache s !! cache_key e = None ->
  fst (on_select W s) = load_result W s e.
Proof.
  unfold selected_entry, cache_key, on_select, bind, get. intros Hsel Hc.
  destruct (listbox_sel s) as [|i sel]; [discriminate|].
  destruct (entries s) as [|e0 es]; [discriminate|].
  rewrite Hsel, Hc. rewrite <- load_photo_result.
  destruct (load_photo W _ _ s) as [[p|err] s1]; reflexivity.
Qed.

Lemma on_select_raise_keeps (s s' : viewer) (e : exn) :
  on_select W s = (Raise e, s') ->
  image_cache s' = image_cache s /\ label_image s' = label_image s.
Proof.
  unfold on_select, bind, get.
  destruct (entries s) as [|e0 es]; [discriminate|].
  destruct (listbox_sel s) as [|i sel]; [discriminate|].
  destruct ((e0 :: es) !! i) as [en|].
  2:{ intros H; inversion H; subst. split; reflexivity. }
  destruct (image_cache s !! _) as [p|]; [discriminate|].
  destruct (load_photo W (entry_zip en) (entry_name en) s) as [[p|e1] s1] eqn:Hl;
    [discriminate|].
  intros H; inversion H; subst; clear H.
  destruct (load_photo_raise _ _ _ _ _ _ Hl) as (Hcache & Hlabel & _).
  split; assumption.
Qed.

Lemma load_result_pane (s v : viewer) (e : entry) :
  frame_width s = frame_width v -> frame_height s = frame_height v ->
  load_result W s e = load_result W v e.
Proof.
  intros Hw Hh. unfold load_result.
  destruct (zip_read _ _) as [data|]; [|reflexivity]. cbn [res_bind].
  destruct (Image_open W data) as [size|]; [|reflexivity]. cbn [res_bind].
  now rewrite (get_display_size_pane s v).
Qed.

(** C5, corrected: for a non-empty path, what [open_ucp] does follows
    what the constructor does.  When it raises [BadZipFile] the error
    dialog is shown and the method returns, the entry list being the one
    before.  When it raises anything else, that exception leaves
    [open_ucp] and the state is the one before: no dialog.  When it
    succeeds, the entry list is the one built from that archive and no
    dialog is shown; the method returns when there is no image to show or
    the first image is cached or loads, and otherwise raises what the
    load of the first image raised, the label and the cache being the
    ones before. *)
Theorem open_ucp_valid_or_error (path : string) (v : viewer) :
  path <> EmptyString ->
  let out := open_ucp W (Some path) v in
  (ZipFile W (constructed v) path = ZipBad ->
   exists title message,
     out = (Ok tt, log (ShowError title message) v)
     /\ entries (log (ShowError title message) v) = entries v)
  /\ (forall e, ZipFile W (constructed v) path = ZipFailed e ->
      out = (Raise e, v))
  /\ (forall z, ZipFile W (constructed v) path = ZipOpened z ->
      let rows := archive_rows (OsPath.basename path) z in
      entries (snd out) = rows
      /\ (exists evs, trace (snd out) = (trace v ++ evs)%list
                      /\ Forall (fun ev => is_dialog ev = false) evs)
      /\ fst out = first_image_result W v rows
      /\ (forall e, fst out = Raise e ->
          label_image (snd out) = label_image v
          /\ image_cache (snd out) = image_cache v)).
Proof.
  intros Hp out. subst out. split; [|split].
  - intros Hz. eexists _, _. split; [now apply open_ucp_bad | reflexivity].
  - intros e Hz. pose proof (open_ucp_cases W (Some path) v) as H.
    cbv zeta in H. unfold str_not in H.
    apply String.eqb_neq in Hp. rewrite !Hp, Hz in H. exact H.
  - intros z Hz rows. rewrite (open_ucp_opened W path z v Hp Hz).
    set (s := set_entries (archive_rows (OsPath.basename path) z)
                (set_constructed (S (constructed v)) v)).
    split; [now rewrite populate_listbox_entries|].
    split.
    { destruct (populate_listbox_quiet W s) as [evs [Ht Hq]].
      exists evs. split; [exact Ht|].
      eapply Forall_impl; [exact Hq | intros ev H; apply H]. }
    rewrite populate_listbox_run. fold rows. subst s. cbn [entries set_entries].
    fold rows. unfold first_image_result.
    destruct rows as [|e0 rest] eqn:Hrows.
    { split; [reflexivity | intros e He; discriminate He]. }
    set (s := set_listbox _ _ _).
    assert (Hsel : selected_entry s = Some e0) by reflexivity.
    assert (Hcache : image_cache s = image_cache v) by reflexivity.
    split.
    + destruct (image_cache v !! cache_key e0) as [p|] eqn:Hc.
      * rewrite (on_select_hit W s e0 p Hsel); [reflexivity|].
        now rewrite Hcache.
      * rewrite (on_select_result s e0 Hsel) by now rewrite Hcache.
        now apply load_result_pane.
    + intros e He. destruct (on_select W s) as [r s'] eqn:Hs.
      simpl in He. subst r.
      destruct (on_select_raise_keeps s s' e Hs) as [H1 H2].
      simpl. rewrite H1, H2. split; reflexivity.
Qed.

End OpenOutcomes.

(** ** The entry modes *)

Section EntryModes.

Variable W : world.

Lemma find_archives_members (folder path : string) :
  In path (find_archives W folder)
  <-> exists root fname,
        file_under folder (scandir_tree W folder) root fname
        /\ PyStr.ends_with (PyStr.lower fname) ".ucp"
        /\ path = OsPath.join root fname.
Proof.
  unfold find_archives. rewrite List.in_flat_map. split.
  - intros [[[root dirs] files] [Hin Hp]].
    apply List.in_map_iff in Hp. destruct Hp as [f [Hj Hf]].
    apply List.filter_In in Hf. destruct Hf as [Hf Hu].
    exists root, f. split; [apply walk_file_under; eauto|].
    split; [now apply PyStrFacts.endswith_spec | now symmetry].
  - intros (root & f & Hu & He & ->).
    apply walk_file_under in Hu. destruct Hu as (dirs & files & Hin & Hf).
    exists (root, dirs, files). split; [exact Hin|].
    apply List.in_map. apply List.filter_In. split; [exact Hf|].
    now apply PyStrFacts.endswith_spec.
Qed.

Lemma opened_complete (archives : list string) (path : string) (z : zip_obj) :
  In path archives ->
  (forall k, ZipFile W k path = ZipOpened z) ->
  forall n, In (path, z) (opened W n archives).
Proof.
  intros Hin Hz. induction archives as [|p ps IH]; [destruct Hin|].
  intros n. simpl. destruct Hin as [->|Hin].
  - rewrite Hz. now left.
  - destruct (ZipFile W n p); [right|..]; now apply IH.
Qed.

Lemma archive_rows_member (base : string) (z : zip_obj) (name : string) :
  In name (zip_namelist z) -> is_image_name name = true ->
  In {| entry_zip := z; entry_name := name;
        entry_display := display_name base name |}
     (archive_rows base z).
Proof.
  intros Hin Hi. unfold archive_rows.
  apply (List.in_map (fun name => {| entry_zip := z; entry_name := name;
                                    entry_display := display_name base name |})).
  apply List.filter_In. split; assumption.
Qed.

(** C6: with a non-empty folder argument the program runs the folder
    mode, whatever the file argument is, and without one and with a
    non-empty file argument it runs the file mode.  The folder mode loads
    the archives below the folder, at any depth: every image member of
    every archive file below it that opens is an entry afterwards, the
    entry list is the rows of the archives that open, in scan order, and
    the list box shows it.  The file mode loads that one archive: the
    entry list is its rows, and the list box shows it. *)
Theorem main_entry_modes
    (folder file : string) (other : option string) (v : viewer) :
  folder <> EmptyString ->
  file <> EmptyString ->
  let by_folder := main W {| arg_folder := Some folder; arg_file := other |} in
  let by_file := main W {| arg_folder := None; arg_file := Some file |} in
  (by_folder = open_ucp_folder W folder
   /\ by_file = open_ucp W (Some file)
   /\ main W {| arg_folder := Some folder; arg_file := Some file |}
      = open_ucp_folder W folder)
  /\ (isdir W folder = true ->
      only_bad W (find_archives W folder) ->
      let v' := snd (by_folder v) in
      (forall root fname z name,
          file_under folder (scandir_tree W folder) root fname ->
          PyStr.ends_with (PyStr.lower fname) ".ucp" ->
          (forall k, ZipFile W k (OsPath.join root fname) = ZipOpened z) ->
          In name (zip_namelist z) ->
          is_image_name name = true ->
          In {| entry_zip := z; entry_name := name;
                entry_display :=
                  display_name (OsPath.basename (OsPath.join root fname)) name |}
             (entries v'))
      /\ (find_archives W folder <> [] ->
          entries v'
          = flat_map rows_of
              (opened W (constructed v) (find_archives W folder))
          /\ listbox_items v' = map entry_display (entries v')))
  /\ (forall z, ZipFile W (constructed v) file = ZipOpened z ->
      let v' := snd (by_file v) in
      entries v' = archive_rows (OsPath.basename file) z
      /\ listbox_items v' = map entry_display (entries v')).
Proof.
  intros Hf Hp by_folder by_file.
  assert (Hdispatch :
    by_folder = open_ucp_folder W folder
    /\ by_file = open_ucp W (Some file)
    /\ main W {| arg_folder := Some folder; arg_file := Some file |}
       = open_ucp_folder W folder).
  { subst by_folder by_file. pose proof Hf as Hf'. pose proof Hp as Hp'.
    apply String.eqb_neq in Hf', Hp'.
    unfold main, given, str_not; simpl. rewrite Hf', Hp'. auto. }
  destruct Hdispatch as (Hfolder & Hfile & Hboth).
  split; [auto|]. split.
  - intros Hd Hok v'. subst v'. rewrite Hfolder.
    assert (Hrun : find_archives W folder <> [] ->
              open_ucp_folder W folder v
              = populate_listbox W
                  (set_entries
                     (flat_map rows_of
                        (opened W (constructed v) (find_archives W folder)))
                     (set_constructed
                        (constructed v
                         + length (opened W (constructed v)
                                     (find_archives W folder))) v))).
    { intros Hne. now apply open_ucp_folder_run. }
    assert (Hentries : find_archives W folder <> [] ->
              entries (snd (open_ucp_folder W folder v))
              = flat_map rows_of
                  (opened W (constructed v) (find_archives W folder))).
    { intros Hne. rewrite (Hrun Hne). now rewrite populate_listbox_entries. }
    split.
    + intros root fname z name Hu He Hz Hin Hi.
      assert (Hfound : In (OsPath.join root fname) (find_archives W folder)).
      { apply find_archives_members. eauto. }
      rewrite Hentries by (intros E; rewrite E in Hfound; destruct Hfound).
      apply List.in_flat_map. exists (OsPath.join root fname, z).
      split; [now apply opened_complete|].
      unfold rows_of. cbn [fst snd]. now apply archive_rows_member.
    + intros Hne. split; [now apply Hentries|].
      rewrite (Hrun Hne). apply (populate_listbox_shown W).
  - intros z Hz v'. subst v'. rewrite Hfile.
    rewrite (open_ucp_opened W file z v Hp Hz).
    split; [now rewrite populate_listbox_entries|].
    apply (populate_listbox_shown W).
Qed.

End EntryModes.

(** ** The properties at work *)

Lemma demo_image_sizes (data : list Byte.byte) (w h : Z) :
  Image_open Demo.W data = Ok (w, h) -> 0 < w < 2 ^ 51 /\ 0 < h < 2 ^ 51.
Proof.
  destruct data as [|b [|c l]]; try discriminate;
    destruct b; try discriminate; intros [= <- <-]; lia.
Qed.

Lemma reachable_listing_ok_witness :
  listbox_items Demo.v2 = map entry_display (entries Demo.v2)
  /\ (forall i, In i (listbox_sel Demo.v2) ->
      exists e, entries Demo.v2 !! i = Some e
                /\ listbox_items Demo.v2 !! i = Some (entry_display e)).
Proof.
  apply (reachable_listing_ok Demo.W Demo.v2).
  apply (reach_step Demo.W (Pick 1) Demo.v1).
  - apply (reach_step Demo.W (OpenFile (Some "/data/a.ucp")) Demo.v0).
    + apply reach_init.
    + exact I.
  - vm_compute. lia.
Defined.

Lemma open_ucp_folder_failure_witness :
  let out := open_ucp_folder Shelf.W "/shelf" Shelf.v1 in
  fst out = Raise OSError
  /\ entries (snd out)
     = flat_map rows_of (opened Shelf.W (constructed Shelf.v1) ["/shelf/a.ucp"])
  /\ listbox_items (snd out) = listbox_items Shelf.v1
  /\ listbox_sel (snd out) = listbox_sel Shelf.v1
  /\ label_image (snd out) = label_image Shelf.v1
  /\ trace (snd out) = trace Shelf.v1.
Proof.
  apply (open_ucp_folder_failure Shelf.W "/shelf" ["/shelf/a.ucp"]
           ["/shelf/text.ucp"] "/shelf/gone.ucp" OSError Shelf.v1).
  - discriminate.
  - reflexivity.
  - reflexivity.
  - intros p n e [<-|[]] H. vm_compute in H. discriminate H.
  - reflexivity.
Defined.

Lemma open_ucp_no_images_witness :
  let out := open_ucp Shelf.W (Some "/shelf/text.ucp") Shelf.v1 in
  fst out = Ok tt
  /\ entries (snd out) = []
  /\ listbox_items (snd out) = []
  /\ listbox_sel (snd out) = []
  /\ label_image (snd out) = label_image Shelf.v1
  /\ trace (snd out) = trace Shelf.v1.
Proof.
  apply (open_ucp_no_images Shelf.W "/shelf/text.ucp" Shelf.zip_text Shelf.v1);
    [discriminate | reflexivity | reflexivity].
Defined.

Lemma open_ucp_folder_all_bad_witness :
  let out := open_ucp_folder Shelf.W "/scrap" Shelf.v1 in
  fst out = Ok tt
  /\ entries (snd out) = []
  /\ listbox_items (snd out) = []
  /\ listbox_sel (snd out) = []
  /\ label_image (snd out) = label_image Shelf.v1
  /\ trace (snd out) = trace Shelf.v1.
Proof.
  apply (open_ucp_folder_all_bad Shelf.W "/scrap" Shelf.v1).
  - discriminate.
  - reflexivity.
  - vm_compute. discriminate.
  - intros p k [<-|[<-|[]]]; reflexivity.
Defined.

Lemma on_select_failure_witness :
  let v' := snd (on_select Demo.W Shelf.torn) in
  image_cache v' = image_cache Shelf.torn
  /\ label_image v' = label_image Shelf.torn
  /\ fst (on_select Demo.W v') = Raise UnidentifiedImageError.
Proof.
  apply (on_select_failure Demo.W Shelf.torn
           (snd (on_select Demo.W Shelf.torn)) UnidentifiedImageError).
  vm_compute. reflexivity.
Defined.

Lemma cached_photo_ignores_pane_witness :
  exists p data size nw nh,
    Image_open Demo.W data = Ok size
    /\ get_display_size Demo.v1 {| img_size := size; img_data := data |}
       = Ok (nw, nh)
    /\ img_size (photo_img p) = (PyNum.max1 nw, PyNum.max1 nh)
    /\ click Demo.W 1 (set_pane 1024 768 Demo.v2)
       = (Ok tt, set_pane 1024 768 Demo.v2)
    /\ label_image (set_pane 1024 768 Demo.v2) = Some p.
Proof.
  apply (cached_photo_ignores_pane Demo.W 1
           {| entry_zip := Demo.zip_a; entry_name := "pics/wide.jpg";
              entry_display := "a.ucp::pics/wide.jpg" |}
           Demo.v1 Demo.v2 1024 768);
    vm_compute; reflexivity.
Defined.

Lemma right_click_then_copy_witness :
  let v := desk_viewer Shelf.desk0 in
  let idx := Shelf.nearest v (event_y Shelf.right_click) in
  let d' := copy_selected
              (show_context_menu Shelf.nearest Shelf.right_click Shelf.desk0) in
  (0 <= idx < Z.of_nat (length (entries v)) ->
   exists e, entries v !! Z.to_nat idx = Some e
             /\ desk_clipboard d' = entry_display e
             /\ listbox_sel (desk_viewer d') = [Z.to_nat idx])
  /\ (~ 0 <= idx < Z.of_nat (length (entries v)) ->
      desk_clipboard d' = desk_clipboard Shelf.desk0
      /\ listbox_sel (desk_viewer d') = [])
  /\ label_image (desk_viewer d') = label_image v
  /\ entries (desk_viewer d') = entries v
  /\ listbox_items (desk_viewer d') = listbox_items v
  /\ image_cache (desk_viewer d') = image_cache v
  /\ trace (desk_viewer d') = trace v.
Proof.
  apply (right_click_then_copy Shelf.nearest Shelf.right_click Shelf.desk0).
  vm_compute. reflexivity.
Defined.

Lemma get_display_size_keeps_small_witness :
  get_display_size Demo.v0 Shelf.thumb = Ok (240, 320).
Proof.
  apply (get_display_size_keeps_small Demo.v0 Shelf.thumb 240 320);
    [reflexivity | unfold or_400; simpl; lia ..].
Defined.

Lemma get_display_size_fills_pane_witness :
  exists new_w new_h,
    get_display_size Demo.v0 Demo.photo_1500x900 = Ok (new_w, new_h)
    /\ (or_400 (frame_width Demo.v0) - 1 <= new_w <= or_400 (frame_width Demo.v0)
        /\ new_h <= or_400 (frame_height Demo.v0)
        \/ or_400 (frame_height Demo.v0) - 1 <= new_h
             <= or_400 (frame_height Demo.v0)
           /\ new_w <= or_400 (frame_width Demo.v0)).
Proof.
  apply (get_display_size_fills_pane Demo.v0 Demo.photo_1500x900 1500 900);
    [reflexivity | unfold or_400; simpl; lia ..].
Defined.

Lemma get_display_size_zero_witness :
  get_display_size Demo.v0 Shelf.flat = Raise ZeroDivisionError.
Proof.
  apply (get_display_size_zero Demo.v0 Shelf.flat 640 0);
    [reflexivity | unfold or_400; simpl; lia ..].
Defined.

Lemma first_pick_photo_size_witness :
  exists p data w h pw ph,
    zip_read Demo.zip_a "pics/wide.jpg" = Ok data
    /\ Image_open Demo.W data = Ok (w, h)
    /\ label_image Demo.v2 = Some p
    /\ img_size (photo_img p) = (pw, ph)
    /\ 1 <= pw <= Z.min (or_400 (frame_width Demo.v1)) w
    /\ 1 <= ph <= Z.min (or_400 (frame_height Demo.v1)) h
    /\ (frame_width Demo.v1 = 1 -> frame_height Demo.v1 = 1 -> (pw, ph) = (1, 1)).
Proof.
  apply (first_pick_photo_size Demo.W 1
           {| entry_zip := Demo.zip_a; entry_name := "pics/wide.jpg";
              entry_display := "a.ucp::pics/wide.jpg" |}
           Demo.v1 Demo.v2).
  - vm_compute. reflexivity.
  - vm_compute. reflexivity.
  - vm_compute. reflexivity.
  - vm_compute (frame_width Demo.v1). lia.
  - vm_compute (frame_height Demo.v1). lia.
  - exact demo_image_sizes.
Defined.

Lemma open_ucp_stale_cache_witness :
  let out := open_ucp Shelf.W (Some "/shelf/later.ucp") Shelf.v2 in
  fst out = Ok tt
  /\ entries (snd out)
     = archive_rows (OsPath.basename "/shelf/later.ucp") Shelf.zip_recycled
  /\ listbox_sel (snd out) = [0%nat]
  /\ label_image (snd out)
     = Some {| photo_id := 1;
               photo_img := {| img_size := (240, 320);
                               img_data := [Byte.x01] |} |}
  /\ image_cache (snd out) = image_cache Shelf.v2
  /\ trace (snd out) = trace Shelf.v2.
Proof.
  apply (open_ucp_stale_cache Shelf.W "/shelf/later.ucp" Shelf.zip_recycled
           "logo.PNG" []
           {| photo_id := 1;
              photo_img := {| img_size := (240, 320);
                              img_data := [Byte.x01] |} |}
           Shelf.v2).
  - discriminate.
  - reflexivity.
  - reflexivity.
  - vm_compute. reflexivity.
Defined.

Lemma reachable_label_cached_witness :
  exists k,
    image_cache Demo.v2 !! k
    = Some {| photo_id := 2;
              photo_img := {| img_size := (500, 1);
                              img_data := [Byte.x02] |} |}.
Proof.
  apply (reachable_label_cached Demo.W Demo.v2).
  - apply (reach_step Demo.W (Pick 1) Demo.v1).
    + apply (reach_step Demo.W (OpenFile (Some "/data/a.ucp")) Demo.v0).
      * apply reach_init.
      * exact I.
    + vm_compute. lia.
  - vm_compute. reflexivity.
Defined.

Lemma open_ucp_valid_or_error_witness :
  (exists title message,
      open_ucp Demo.W (Some "/data/junk.ucp") Demo.v2
      = (Ok tt, log (ShowError title message) Demo.v2)
      /\ entries (log (ShowError title message) Demo.v2) = entries Demo.v2)
  /\ open_ucp Demo.W (Some "/data/missing.ucp") Demo.v2 = (Raise OSError, Demo.v2)
  /\ (let out := open_ucp Demo.W (Some "/data/sub/c.UCP") Demo.v2 in
      let rows := archive_rows (OsPath.basename "/data/sub/c.UCP") Demo.zip_c in
      entries (snd out) = rows
      /\ (exists evs, trace (snd out) = (trace Demo.v2 ++ evs)%list
                      /\ Forall (fun ev => is_dialog ev = false) evs)
      /\ fst out = first_image_result Demo.W Demo.v2 rows
      /\ (forall e, fst out = Raise e ->
          label_image (snd out) = label_image Demo.v2
          /\ image_cache (snd out) = image_cache Demo.v2))
  /\ (let out := open_ucp Demo.W (Some "/data/torn.ucp") Demo.v2 in
      let rows := archive_rows (OsPath.basename "/data/torn.ucp") Demo.zip_broken in
      entries (snd out) = rows
      /\ (exists evs, trace (snd out) = (trace Demo.v2 ++ evs)%list
                      /\ Forall (fun ev => is_dialog ev = false) evs)
      /\ fst out = first_image_result Demo.W Demo.v2 rows
      /\ (forall e, fst out = Raise e ->
          label_image (snd out) = label_image Demo.v2
          /\ image_cache (snd out) = image_cache Demo.v2)).
Proof.
  split; [|split; [|split]].
  - apply (open_ucp_valid_or_error Demo.W "/data/junk.ucp" Demo.v2);
      [discriminate | reflexivity].
  - apply (open_ucp_valid_or_error Demo.W "/data/missing.ucp" Demo.v2);
      [discriminate | reflexivity].
  - apply (open_ucp_valid_or_error Demo.W "/data/sub/c.UCP" Demo.v2);
      [discriminate | reflexivity].
  - apply (open_ucp_valid_or_error Demo.W "/data/torn.ucp" Demo.v2);
      [discriminate | reflexivity].
Defined.

(** C5 as worded fails: [torn.ucp] is a valid container, and opening it
    raises [UnidentifiedImageError], since its first image does not
    decode and nothing in [open_ucp], [populate_listbox] or [on_select]
    catches that. *)
Lemma open_ucp_claimed_counterexample :
  ~ open_ucp_claimed Demo.W "/data/torn.ucp" Demo.v0.
Proof.
  unfold open_ucp_claimed. intros (evs & _ & H).
  change (ZipFile Demo.W (constructed Demo.v0) "/data/torn.ucp")
    with (ZipOpened Demo.zip_broken) in H.
  destruct H as [H _]. vm_compute in H. discriminate H.
Qed.

Lemma main_entry_modes_witness :
  let both := {| arg_folder := Some "/data"; arg_file := Some "/data/a.ucp" |} in
  let only_file := {| arg_folder := None; arg_file := Some "/data/a.ucp" |} in
  main Demo.W both = open_ucp_folder Demo.W "/data"
  /\ main Demo.W only_file = open_ucp Demo.W (Some "/data/a.ucp")
  /\ In {| entry_zip := Demo.zip_c; entry_name := "anim.Gif";
           entry_display :=
             display_name (OsPath.basename (OsPath.join "/data/sub" "c.UCP"))
               "anim.Gif" |}
        (entries (snd (main Demo.W both Demo.v0)))
  /\ entries (snd (main Demo.W both Demo.v0))
     = flat_map rows_of
         (opened Demo.W (constructed Demo.v0) (find_archives Demo.W "/data"))
  /\ listbox_items (snd (main Demo.W both Demo.v0))
     = map entry_display (entries (snd (main Demo.W both Demo.v0)))
  /\ entries (snd (main Demo.W only_file Demo.v0))
     = archive_rows (OsPath.basename "/data/a.ucp") Demo.zip_a
  /\ listbox_items (snd (main Demo.W only_file Demo.v0))
     = map entry_display (entries (snd (main Demo.W only_file Demo.v0))).
Proof.
  intros both only_file.
  destruct (main_entry_modes Demo.W "/data" "/data/a.ucp" (Some "/data/a.ucp")
              Demo.v0 ltac:(discriminate) ltac:(discriminate))
    as ((Hfolder & Hfile & _) & Hloads & Hone).
  destruct (Hloads eq_refl demo_only_bad) as (Hall & Hrows).
  destruct (Hrows ltac:(vm_compute; discriminate)) as (Hentries & Hshown).
  destruct (Hone Demo.zip_a eq_refl) as (Hfile_entries & Hfile_shown).
  split; [exact Hfolder|]. split; [exact Hfile|].
  split.
  { apply (Hall "/data/sub" "c.UCP" Demo.zip_c "anim.Gif").
    - apply file_below with (d := "sub") (t := Dir [] ["c.UCP"; "notes.txt"]).
      + left. reflexivity.
      + apply (file_here (OsPath.join "/data" "sub") [] ["c.UCP"; "notes.txt"]).
        left. reflexivity.
    - apply PyStrFacts.endswith_spec. reflexivity.
    - intros k. reflexivity.
    - left. reflexivity.
    - reflexivity. }
  split; [exact Hentries|]. split; [exact Hshown|].
  split; [exact Hfile_entries | exact Hfile_shown].
Defined.
